(** * Texturing: UV generation and texture baking of AliceVision's mesh module

    A shallow embedding of [aliceVision::mesh::Texturing] (Texturing.cpp):
    [isPixelInTriangle], [barycentricToCartesian], [AccuColor],
    [Texturing::generateUVs], [Texturing::generateTexture],
    [Texturing::clear] and [Texturing::loadFromMeshing], with the properties
    the specification states about them; then the rest of the file,
    [EUnwrapMethod], [toGeoMesh], [Texturing::generateTextures],
    [Texturing::loadFromOBJ], [Texturing::replaceMesh], [Texturing::unwrap]
    and [Texturing::saveAsOBJ], with further properties of the code.

    Conventions of the embedding.
    - [double] and [float] values are exact rationals ([Qc]); rounding, NaN
      and infinities are outside the model.
    - [int] and [unsigned int] values are integers ([Z]); where the source
      computes on texel indices with [unsigned int], the wrap-around modulo
      2^32 is written out ([u32]), and the conversion to [int] is [i32].
      The sizes of the vectors of a mesh are taken to fit an [int].
    - [std::vector] and [StaticVector] are lists; reading or writing past the
      end is undefined behaviour in C++ and is [None] here.
    - [std::map<int,int>] is [gmap Z Z].
    - The camera model, the image cache, the file loaders, geogram and the
      remapping of visibilities are external collaborators and are Section
      variables.
    - A file written with [fprintf] is the list of the calls made, each with
      its arguments. *)

From Stdlib Require Import ZArith QArith Qcanon Qround Lia String.
From stdpp Require Import base option numbers list gmap strings sorting pretty.

Local Open Scope Z_scope.

(** ** Machine integers *)

Definition u32 (z : Z) : Z := z mod 2 ^ 32.

Definition i32 (z : Z) : Z := (z + 2 ^ 31) mod 2 ^ 32 - 2 ^ 31.

(** [v[i]] on a vector: defined only inside the bounds. *)
Definition vec_at {A} (v : list A) (i : Z) : option A :=
  if decide (0 <= i) then v !! Z.to_nat i else None.

(** [v[i] = x] on a vector: defined only inside the bounds. *)
Definition vec_set {A} (v : list A) (i : Z) (x : A) : option (list A) :=
  if decide (0 <= i < Z.of_nat (length v)) then Some (<[Z.to_nat i := x]> v) else None.

(** ** Points, pixels, colors *)

Record Point2d := mkPoint2d { p2_x : Qc; p2_y : Qc }.
Record Point3d := mkPoint3d { p3_x : Qc; p3_y : Qc; p3_z : Qc }.
Record Pixel := mkPixel { pix_x : Z; pix_y : Z }.
Record Color := mkColor { col_r : Qc; col_g : Qc; col_b : Qc }.

(** The default constructors [Point2d()] and [Color()] give zeros. *)
Definition Point2d_default : Point2d := mkPoint2d 0 0.
Definition Color_default : Color := mkColor 0 0 0.

Definition Point2d_add (a b : Point2d) : Point2d :=
  mkPoint2d (p2_x a + p2_x b) (p2_y a + p2_y b).
Definition Point2d_sub (a b : Point2d) : Point2d :=
  mkPoint2d (p2_x a - p2_x b) (p2_y a - p2_y b).
Definition Point2d_scale (a : Point2d) (d : Qc) : Point2d :=
  mkPoint2d (p2_x a * d) (p2_y a * d).
Definition Point2d_div (a : Point2d) (d : Qc) : Point2d :=
  mkPoint2d (p2_x a / d) (p2_y a / d).

Definition Point3d_add (a b : Point3d) : Point3d :=
  mkPoint3d (p3_x a + p3_x b) (p3_y a + p3_y b) (p3_z a + p3_z b).
Definition Point3d_sub (a b : Point3d) : Point3d :=
  mkPoint3d (p3_x a - p3_x b) (p3_y a - p3_y b) (p3_z a - p3_z b).
Definition Point3d_scale (a : Point3d) (d : Qc) : Point3d :=
  mkPoint3d (p3_x a * d) (p3_y a * d) (p3_z a * d).

Definition Pixel_sub (a b : Pixel) : Pixel :=
  mkPixel (pix_x a - pix_x b) (pix_y a - pix_y b).

Definition Color_add (a b : Color) : Color :=
  mkColor (col_r a + col_r b) (col_g a + col_g b) (col_b a + col_b b).
Definition Color_div (a : Color) (d : Qc) : Color :=
  mkColor (col_r a / d) (col_g a / d) (col_b a / d).

(** [std::numeric_limits<double>::epsilon()] is 2^-52. *)
Definition epsilon : Qc := Q2Qc (1 # (2 ^ 52)).

(** The literal [0.5]. *)
Definition half : Qc := Q2Qc (1 # 2).

(** ** isPixelInTriangle *)

(** A triangle handed over as an array of three [Point2d]. *)
Record Triangle2d := mkTriangle2d { tri_0 : Point2d; tri_1 : Point2d; tri_2 : Point2d }.
Record Triangle3d := mkTriangle3d { tri3_0 : Point3d; tri3_1 : Point3d; tri3_2 : Point3d }.

(** What [GEO::Geom::point_triangle_squared_distance] hands back: the squared
    distance it returns, and its out-parameters. *)
Record TriangleDistance := mkTriangleDistance {
  td_dist : Qc;
  td_closestPoint : Point2d;
  td_l1 : Qc;
  td_l2 : Qc;
  td_l3 : Qc
}.

Section IsPixelInTriangle.

(** geogram's point/triangle squared distance, an external library. *)
Variable point_triangle_squared_distance :
  Point2d → Point2d → Point2d → Point2d → TriangleDistance.

(** The center of a pixel: [GEO::vec2 p(pixel.x + 0.5, pixel.y + 0.5)]. *)
Definition pixel_center (pixel : Pixel) : Point2d :=
  mkPoint2d (Qc_of_Z (pix_x pixel) + half) (Qc_of_Z (pix_y pixel) + half).

(** The result is the returned [bool] paired with the out-parameter
    [barycentricCoords]. *)
Definition isPixelInTriangle (triangle : Triangle2d) (pixel : Pixel) : bool * Point2d :=
  let p := pixel_center pixel in
  let V0 := mkPoint2d (p2_x (tri_0 triangle)) (p2_y (tri_0 triangle)) in
  let V1 := mkPoint2d (p2_x (tri_1 triangle)) (p2_y (tri_1 triangle)) in
  let V2 := mkPoint2d (p2_x (tri_2 triangle)) (p2_y (tri_2 triangle)) in
  let d := point_triangle_squared_distance p V0 V1 V2 in
  let barycentricCoords := mkPoint2d (td_l3 d) (td_l2 d) in
  (bool_decide (td_dist d < half + epsilon)%Qc, barycentricCoords).

End IsPixelInTriangle.

Definition barycentricToCartesian (triangle : Triangle2d) (coords : Point2d) : Point2d :=
  Point2d_add
    (Point2d_add (tri_0 triangle)
       (Point2d_scale (Point2d_sub (tri_2 triangle) (tri_0 triangle)) (p2_x coords)))
    (Point2d_scale (Point2d_sub (tri_1 triangle) (tri_0 triangle)) (p2_y coords)).

Definition barycentricToCartesian3 (triangle : Triangle3d) (coords : Point2d) : Point3d :=
  Point3d_add
    (Point3d_add (tri3_0 triangle)
       (Point3d_scale (Point3d_sub (tri3_2 triangle) (tri3_0 triangle)) (p2_x coords)))
    (Point3d_scale (Point3d_sub (tri3_1 triangle) (tri3_0 triangle)) (p2_y coords)).

(** ** AccuColor: accumulates colors and keeps count for providing average *)

Record AccuColor := mkAccuColor { colorSum : Color; count : Z }.

(** A fresh accumulator: [Color colorSum; unsigned int count = 0]. *)
Definition AccuColor_new : AccuColor := mkAccuColor Color_default 0.

(** [add] stores the new sum and the pre-incremented [unsigned int] count. *)
Definition add (a : AccuColor) (color : Color) : AccuColor :=
  mkAccuColor (Color_add (colorSum a) color) (u32 (count a + 1)).

Definition average (a : AccuColor) : Color :=
  if decide (0 < count a) then Color_div (colorSum a) (Qc_of_Z (count a)) else colorSum a.

(** ** Loops *)

(** A [for] loop over the values of [l], threading the state and stopping at
    the first undefined step. *)
Fixpoint for_each {A S} (body : A → S → option S) (l : list A) (s : S) : option S :=
  match l with
  | [] => Some s
  | a :: l' => s' ← body a s; for_each body l' s'
  end.

(** [for (i = lo; i < hi; ++i)]. *)
Definition for_range {S} (lo hi : Z) (body : Z → S → option S) (s : S) : option S :=
  for_each body (seqZ lo (hi - lo)) s.

(** ** Mesh and pipeline state *)

(** [Mesh::triangle]: the three point indices [v[0..2]]. *)
Record Mesh_triangle := mkTriangle { v0 : Z; v1 : Z; v2 : Z }.

(** [Voxel]: the three UV indices [m[0..2]] of a triangle. *)
Record Voxel := mkVoxel { m0 : Z; m1 : Z; m2 : Z }.

Record Mesh := mkMesh { pts : list Point3d; tris : list Mesh_triangle }.

(** [PointsVisibility]: per point, a possibly null array of camera ids. *)
Abbreviation PointsVisibility := (list (option (list Z))).

Record TexParams := mkTexParams {
  textureSide : Z;
  padding : Z;
  downscale : Z;
  fillHoles : bool
}.

Record Texturing := mkTexturing {
  texParams : TexParams;
  nmtls : Z;
  trisMtlIds : list Z;
  uvCoords : list Point2d;
  trisUvIds : list Voxel;
  normals : list Point3d;
  trisNormalsIds : list Voxel;
  pointsVisibilities : option PointsVisibility;
  me : option Mesh;
  _atlases : list (list Z)
}.

(** How a member function ends: it returns, it throws a
    [std::runtime_error] (the state reached so far stays), or its behaviour
    is undefined. *)
Inductive outcome :=
  | Returns (t : Texturing)
  | Throws (what : string) (t : Texturing)
  | Undefined.

(** ** generateTexture: edge padding (dilate gutter) *)

(** One step of the dilation scan, on the texel [xyoffset]. *)
Definition padCell (side : Z) (xyoffset : Z) (colorIDs : list Z) : option (list Z) :=
  c ← vec_at colorIDs xyoffset;
  if decide (0 < c) then Some colorIDs else
  l ← vec_at colorIDs (u32 (xyoffset - 1));
  if decide (0 < l) then
    vec_set colorIDs xyoffset (i32 (u32 (u32 (xyoffset - 1) * u32 (-1))))
  else
  r ← vec_at colorIDs (u32 (xyoffset + 1));
  if decide (0 < r) then
    vec_set colorIDs xyoffset (i32 (u32 (u32 (xyoffset + 1) * u32 (-1))))
  else
  d ← vec_at colorIDs (u32 (xyoffset + side));
  if decide (0 < d) then
    vec_set colorIDs xyoffset (i32 (u32 (u32 (xyoffset + side) * u32 (-1))))
  else
  u ← vec_at colorIDs (u32 (xyoffset - side));
  if decide (0 < u) then
    vec_set colorIDs xyoffset (i32 (u32 (u32 (xyoffset - side) * u32 (-1))))
  else Some colorIDs.

(** The scan of one round: [y] and [x] both run from 1 to
    [textureSide - 1] (an [unsigned int]) excluded. *)
Definition padScan (side : Z) (colorIDs : list Z) : option (list Z) :=
  for_range 1 (u32 (side - 1)) (λ y ids,
    let yoffset := u32 (y * side) in
    for_range 1 (u32 (side - 1)) (λ x ids,
      let xyoffset := u32 (yoffset + x) in
      padCell side xyoffset ids) ids) colorIDs.

(** One step of the resolution pass, on the texel [i]; [colorIDs[i] * -1] is
    an [int] product, undefined when it overflows. *)
Definition resolveCell (i : Z) (colorIDs : list Z) : option (list Z) :=
  c ← vec_at colorIDs i;
  if decide (c < 0) then
    if decide (c = - 2 ^ 31) then None else
    r ← vec_at colorIDs (c * -1);
    vec_set colorIDs i r
  else Some colorIDs.

Definition padResolve (textureSize : Z) (colorIDs : list Z) : option (list Z) :=
  for_range 0 textureSize resolveCell colorIDs.

(** One round [g]: the scan, then the resolution pass. *)
Definition padRound (side textureSize : Z) (colorIDs : list Z) : option (list Z) :=
  ids ← padScan side colorIDs; padResolve textureSize ids.

(** The block guarded by [!texParams.fillHoles && texParams.padding > 0]. *)
Definition edgePadding (tp : TexParams) (textureSize : Z) (colorIDs : list Z)
  : option (list Z) :=
  if negb (fillHoles tp) && bool_decide (0 < padding tp) then
    for_range 0 (padding tp) (λ _ ids, padRound (textureSide tp) textureSize ids) colorIDs
  else Some colorIDs.

(** ** generateTexture: computing the final (average) color *)

(** The body of the double loop, on the texel of row [yp] and column [xp]. *)
Definition colorCell (tp : TexParams) (colorIDs : list Z) (perPixelColors : list AccuColor)
    (yp xp : Z) (bufs : list Color * list Qc) : option (list Color * list Qc) :=
  let '(colorBuffer, alphaBuffer) := bufs in
  let yoffset := u32 (yp * textureSide tp) in
  let xyoffset := u32 (yoffset + xp) in
  colorID ← vec_at colorIDs xyoffset;
  if decide (0 <= colorID) then
    acc ← vec_at perPixelColors colorID;
    alphaBuffer' ← (if fillHoles tp then vec_set alphaBuffer xyoffset 1%Qc
                    else Some alphaBuffer);
    colorBuffer' ← vec_set colorBuffer xyoffset (average acc);
    Some (colorBuffer', alphaBuffer')
  else
    colorBuffer' ← vec_set colorBuffer xyoffset Color_default;
    Some (colorBuffer', alphaBuffer).

(** The color and alpha buffers after the double loop. *)
Definition fillColorBuffer (tp : TexParams) (colorIDs : list Z)
    (perPixelColors : list AccuColor) : option (list Color * list Qc) :=
  let side := textureSide tp in
  let colorBuffer := replicate (Z.to_nat (u32 (side * side))) Color_default in
  let alphaBuffer := if fillHoles tp then replicate (length colorBuffer) 0%Qc else [] in
  for_range 0 side (λ yp bufs,
    for_range 0 side (λ xp bufs, colorCell tp colorIDs perPixelColors yp xp bufs) bufs)
    (colorBuffer, alphaBuffer).

(** ** generateTexture: registering triangles and reading pixel colors *)

(** [std::min] and [std::max] on [double]. *)
Definition Qc_min (a b : Qc) : Qc := if decide (b < a)%Qc then b else a.
Definition Qc_max (a b : Qc) : Qc := if decide (a < b)%Qc then b else a.

(** [static_cast<int>] of an integral [double]: defined inside the range of
    [int] only. *)
Definition to_int (z : Z) : option Z :=
  if decide (- 2 ^ 31 <= z < 2 ^ 31) then Some z else None.

(** Modelled from the spec: [clamp] of numeric.hpp, which is not part of the
    sources at hand; the bounding box is "clamped to [0, textureSide]". *)
Definition clamp (val lo hi : Z) : Z := Z.max lo (Z.min val hi).

(** The texture image handed to [imageIO::writeImage], or the failure. *)
Inductive texture_outcome :=
  | Written (textureName : string) (outTextureSide : Z) (colorBuffer : list Color)
  | TextureThrows (what : string)
  | TextureUndefined.

Section GenerateTexture.

(** [mp.ncams], [mp.getPixelFor3DPoint], [mp.isPixelInImage]. *)
Variable ncams : Z.
Variable getPixelFor3DPoint : Point3d → Z → Point2d.
Variable isPixelInImage : Point2d → Z → bool.
(** [imageCache.getPixelValueInterpolated]. *)
Variable getPixelValueInterpolated : Point2d → Z → Color.
Variable point_triangle_squared_distance :
  Point2d → Point2d → Point2d → Point2d → TriangleDistance.
(** [imageIO::fillHoles] and [imageIO::resizeImage]. *)
Variable imageIO_fillHoles : Z → Z → list Color → list Qc → list Color.
Variable imageIO_resizeImage : Z → Z → Z → list Color → list Color.
Variable EImageFileType : Type.
Variable EImageFileType_enumToString : EImageFileType → string.

(** The cameras of a possibly null visibility array. *)
Definition visibilityCams (pointVisibilities : option (list Z)) : gset Z :=
  match pointVisibilities with
  | Some cams => list_to_set cams
  | None => ∅
  end.

(** [triCams]: the set of the visibilities of the triangle's points. *)
Definition triangleCams (t : Texturing) (triangleId : Z) : option (gset Z) :=
  mesh ← me t;
  vis ← pointsVisibilities t;
  tri ← vec_at (tris mesh) triangleId;
  c0 ← vec_at vis (v0 tri);
  c1 ← vec_at vis (v1 tri);
  c2 ← vec_at vis (v2 tri);
  Some (visibilityCams c0 ∪ visibilityCams c1 ∪ visibilityCams c2).

(** [camTriangles[camId].push_back(triangleId)], into a vector of
    [unsigned int]. *)
Definition registerTriangle (triangleId camId : Z) (camTriangles : list (list Z))
  : option (list (list Z)) :=
  l ← vec_at camTriangles camId;
  vec_set camTriangles camId (l ++ [u32 triangleId]).

(** The loop over the atlas' triangles; a [std::set<int>] is walked in
    increasing order. *)
Definition registerCamTriangles (t : Texturing) (atlas : list Z) : option (list (list Z)) :=
  for_each (λ triangleId camTriangles,
    triCams ← triangleCams t triangleId;
    for_each (registerTriangle triangleId) (merge_sort Z.le (elements triCams)) camTriangles)
    atlas (replicate (Z.to_nat ncams) []).

(** The triangle's UV coordinates in texels and its 3D coordinates. *)
Definition triangleCorners (t : Texturing) (triangleId : Z)
  : option (Triangle2d * Triangle3d) :=
  mesh ← me t;
  tri ← vec_at (tris mesh) triangleId;
  uvIds ← vec_at (trisUvIds t) triangleId;
  let side := Qc_of_Z (textureSide (texParams t)) in
  p0 ← vec_at (pts mesh) (v0 tri);
  uv0 ← vec_at (uvCoords t) (m0 uvIds);
  p1 ← vec_at (pts mesh) (v1 tri);
  uv1 ← vec_at (uvCoords t) (m1 uvIds);
  p2 ← vec_at (pts mesh) (v2 tri);
  uv2 ← vec_at (uvCoords t) (m2 uvIds);
  Some (mkTriangle2d (Point2d_scale uv0 side) (Point2d_scale uv1 side)
          (Point2d_scale uv2 side),
        mkTriangle3d p0 p1 p2).

(** The triangle's bounding box in pixel indexes, clamped:
    [(LU.x, LU.y, RD.x, RD.y)]. *)
Definition boundingBox (tp : TexParams) (triPixs : Triangle2d) : option (Z * Z * Z * Z) :=
  let x0 := p2_x (tri_0 triPixs) in let y0 := p2_y (tri_0 triPixs) in
  let x1 := p2_x (tri_1 triPixs) in let y1 := p2_y (tri_1 triPixs) in
  let x2 := p2_x (tri_2 triPixs) in let y2 := p2_y (tri_2 triPixs) in
  LUx ← to_int (Qfloor (Qc_min (Qc_min x0 x1) x2));
  LUy ← to_int (Qfloor (Qc_min (Qc_min y0 y1) y2));
  RDx ← to_int (Qceiling (Qc_max (Qc_max x0 x1) x2));
  RDy ← to_int (Qceiling (Qc_max (Qc_max y0 y1) y2));
  let texSide := i32 (textureSide tp) in
  Some (clamp LUx 0 texSide, clamp LUy 0 texSide, clamp RDx 0 texSide, clamp RDy 0 texSide).

(** The state of the rasterization: [colorIDs] and [perPixelColors]. *)
Definition raster_state : Type := list Z * list AccuColor.

(** The body of the loop over the bounding box's pixels. *)
Definition rasterPixel (tp : TexParams) (camId : Z) (triPixs : Triangle2d)
    (triPts : Triangle3d) (y x : Z) (s : raster_state) : option raster_state :=
  let pix := mkPixel x y in
  let '(inside, barycCoords) :=
    isPixelInTriangle point_triangle_squared_distance triPixs pix in
  if negb inside then Some s else
  let y_ := u32 (u32 (textureSide tp - 1) - y) in
  let xyoffset := u32 (y_ * textureSide tp + x) in
  let pt3d := barycentricToCartesian3 triPts barycCoords in
  let pixRC := getPixelFor3DPoint pt3d camId in
  if negb (isPixelInImage pixRC camId) then Some s else
  colorIDs ← vec_set s.1 xyoffset (i32 xyoffset);
  acc ← vec_at s.2 xyoffset;
  perPixelColors ← vec_set s.2 xyoffset (add acc (getPixelValueInterpolated pixRC camId));
  Some (colorIDs, perPixelColors).

(** The body of the loop over a camera's triangles. *)
Definition rasterTriangle (t : Texturing) (camId triangleId : Z) (s : raster_state)
  : option raster_state :=
  '(triPixs, triPts) ← triangleCorners t triangleId;
  '(LUx, LUy, RDx, RDy) ← boundingBox (texParams t) triPixs;
  for_range LUy RDy (λ y s,
    for_range LUx RDx (λ x s, rasterPixel (texParams t) camId triPixs triPts y x s) s) s.

(** The loop over the cameras, each given with its [camId] and its
    triangles; the source walks [camTriangles], [camId] counting from 0. *)
Definition rasterCameraList (t : Texturing) (cams : list (nat * list Z)) (s : raster_state)
  : option raster_state :=
  for_each (λ '(camId, triangles) s,
    for_each (rasterTriangle t (Z.of_nat camId)) triangles s) cams s.

(** [colorBuffer] and [alphaBuffer] when the final color has been
    computed, before holes are filled and the texture is downscaled: first
    from the cameras and their triangles, then from the atlas. *)
Definition bakeCameras (t : Texturing) (cams : list (nat * list Z))
  : option (list Color * list Qc) :=
  let tp := texParams t in
  let textureSize := u32 (textureSide tp * textureSide tp) in
  let colorIDs := replicate (Z.to_nat textureSize) (-1) in
  let perPixelColors := replicate (Z.to_nat textureSize) AccuColor_new in
  '(colorIDs, perPixelColors) ← rasterCameraList t cams (colorIDs, perPixelColors);
  colorIDs ← edgePadding tp textureSize colorIDs;
  fillColorBuffer tp colorIDs perPixelColors.

Definition bakeColorBuffer (t : Texturing) (atlasID : Z) : option (list Color * list Qc) :=
  atlas ← vec_at (_atlases t) atlasID;
  camTriangles ← registerCamTriangles t atlas;
  bakeCameras t (imap (λ camId triangles, (camId, triangles)) camTriangles).

Definition generateTexture (t : Texturing) (atlasID : Z) (textureFileType : EImageFileType)
  : texture_outcome :=
  let tp := texParams t in
  if decide (Z.of_nat (length (_atlases t)) <= atlasID) then
    TextureThrows ("Invalid atlas ID " +:+ pretty atlasID)
  else
    match bakeColorBuffer t atlasID with
    | None => TextureUndefined
    | Some (colorBuffer, alphaBuffer) =>
        let textureName :=
          "texture_" +:+ pretty atlasID +:+ "." +:+
          EImageFileType_enumToString textureFileType in
        let colorBuffer :=
          if fillHoles tp then
            imageIO_fillHoles (textureSide tp) (textureSide tp) colorBuffer alphaBuffer
          else colorBuffer in
        if decide (1 < downscale tp) then
          Written textureName (textureSide tp / downscale tp)
            (imageIO_resizeImage (textureSide tp) (textureSide tp) (downscale tp) colorBuffer)
        else Written textureName (textureSide tp) colorBuffer
    end.

End GenerateTexture.

(** ** generateUVs *)

(** A chart of the atlas: its reference camera (-1 for none), the upper-left
    corners of its source and target rectangles, and its triangles. *)
Record Chart := mkChart {
  refCameraID : Z;
  sourceLU : Pixel;
  targetLU : Pixel;
  triangleIDs : list Z
}.

(** What [generateUVs] reads of a [UVAtlas]: [atlases()] and
    [textureSide()]. *)
Record UVAtlas := mkUVAtlas {
  atlases : list (list Chart);
  mua_textureSide : Z
}.

(** The data written by the loops of [generateUVs]: the new mesh [m], the
    members [uvCoords], [trisUvIds] and [_atlases], the locals
    [vertexCache], [updatedPointsCams], [atlasId] and [triangleCount]. *)
Record uv_state := mkUvState {
  g_pts : list Point3d;
  g_tris : list Mesh_triangle;
  g_uvCoords : list Point2d;
  g_trisUvIds : list Voxel;
  g_atlases : list (list Z);
  g_vertexCache : gmap Z Z;
  g_updatedPointsCams : PointsVisibility;
  g_atlasId : Z;
  g_triangleCount : Z
}.

(** [_atlases[atlasId].push_back(triangleCount)]. *)
Definition registerInAtlas (s : uv_state) : option uv_state :=
  atlas ← vec_at (g_atlases s) (g_atlasId s);
  atlases' ← vec_set (g_atlases s) (g_atlasId s) (atlas ++ [g_triangleCount s]);
  Some (mkUvState (g_pts s) (g_tris s) (g_uvCoords s) (g_trisUvIds s) atlases'
          (g_vertexCache s) (g_updatedPointsCams s) (g_atlasId s) (g_triangleCount s)).

(** The branch [it == vertexCache.end()]: the point gets a new vertex, its
    visibilities are copied, the cache is updated. *)
Definition pushVertex (pointId : Z) (p : Point3d) (pRef : option (list Z)) (s : uv_state)
  : Z * uv_state :=
  let newPointIdx := Z.of_nat (length (g_pts s ++ [p])) - 1 in
  let pOther := match pRef with Some cams => cams | None => [] end in
  (newPointIdx,
   mkUvState (g_pts s ++ [p]) (g_tris s) (g_uvCoords s) (g_trisUvIds s) (g_atlases s)
     (<[pointId := newPointIdx]> (g_vertexCache s))
     (g_updatedPointsCams s ++ [Some pOther]) (g_atlasId s) (g_triangleCount s)).

(** The branch [uvcacheIt == uvCache.end()]: [uvCoords.push_back(uvPix)]. *)
Definition pushUV (uvPix : Point2d) (s : uv_state) : Z * uv_state :=
  (Z.of_nat (length (g_uvCoords s ++ [uvPix])) - 1,
   mkUvState (g_pts s) (g_tris s) (g_uvCoords s ++ [uvPix]) (g_trisUvIds s) (g_atlases s)
     (g_vertexCache s) (g_updatedPointsCams s) (g_atlasId s) (g_triangleCount s)).

(** The end of the loop over a chart's triangles:
    [m->tris->push_back(t); trisUvIds.push_back(triUv); triangleCount++]. *)
Definition pushTriangle (t : Mesh_triangle) (triUv : Voxel) (s : uv_state) : uv_state :=
  mkUvState (g_pts s) (g_tris s ++ [t]) (g_uvCoords s) (g_trisUvIds s ++ [triUv])
    (g_atlases s) (g_vertexCache s) (g_updatedPointsCams s) (g_atlasId s)
    (g_triangleCount s + 1).

(** The end of the loop over an atlas' charts: [atlasId++]. *)
Definition nextAtlas (s : uv_state) : uv_state :=
  mkUvState (g_pts s) (g_tris s) (g_uvCoords s) (g_trisUvIds s) (g_atlases s)
    (g_vertexCache s) (g_updatedPointsCams s) (g_atlasId s + 1) (g_triangleCount s).

Section GenerateUVs.

Variable getPixelFor3DPoint : Point3d → Z → Point2d.
Variable isPixelInImage : Point2d → Z → bool.

(** The placement of the charts computed by UVAtlas.cpp, which is not
    among the sources at hand. *)
Variable packCharts : Mesh → option PointsVisibility → Z → Z → list (list Chart).

(** Modelled from the spec: the constructor of [UVAtlas] (UVAtlas.cpp is
    missing), "buildAtlases(mesh, visibility, textureSide, padding) →
    ordered list of Atlas ... Failure: throws/reports an error if the mesh
    is absent or empty", the error kind being [MissingMesh]. *)
Definition UVAtlas_new (mesh : Mesh) (ptsCams : option PointsVisibility)
    (textureSide gutterSize : Z) : string + UVAtlas :=
  if decide (pts mesh = [] ∨ tris mesh = []) then inl "MissingMesh"
  else inr (mkUVAtlas (packCharts mesh ptsCams textureSide gutterSize) textureSide).

(** The pixel coordinates [uvPix] of a point in a chart. The quotient by
    [(float)mua.textureSide()] is the exact one; a [textureSide] of 0, where
    the code divides by zero, is outside the model. *)
Definition computeUV (side : Z) (chart : Chart) (offset : Pixel) (p : Point3d) : Point2d :=
  if decide (refCameraID chart ≠ -1) then
    let pix := getPixelFor3DPoint p (refCameraID chart) in
    if isPixelInImage pix (refCameraID chart) then
      let uvPix :=
        Point2d_div
          (Point2d_add pix (mkPoint2d (Qc_of_Z (pix_x offset)) (Qc_of_Z (pix_y offset))))
          (Qc_of_Z side) in
      let uvPix := mkPoint2d (p2_x uvPix) (1 - p2_y uvPix) in
      if decide (Qc_of_Z side ≤ p2_x uvPix ∨ Qc_of_Z side ≤ p2_y uvPix)%Qc
      then Point2d_default
      else uvPix
    else Point2d_default
  else Point2d_default.

(** The body of the loop over the three points of a triangle, for the point
    [pointId]; it yields [newPointIdx] and [uvIdx]. *)
Definition processCorner (mesh : Mesh) (vis : PointsVisibility) (side : Z) (chart : Chart)
    (offset : Pixel) (pointId : Z) (st : gmap Z Z * uv_state)
  : option (Z * Z * (gmap Z Z * uv_state)) :=
  let '(uvCache, s) := st in
  p ← vec_at (pts mesh) pointId;
  let uvPix := computeUV side chart offset p in
  '(newPointIdx, s) ←
    match g_vertexCache s !! pointId with
    | None => pRef ← vec_at vis pointId; Some (pushVertex pointId p pRef s)
    | Some idx => Some (idx, s)
    end;
  match uvCache !! newPointIdx with
  | None =>
      let '(uvIdx, s) := pushUV uvPix s in
      Some (newPointIdx, uvIdx, (<[newPointIdx := uvIdx]> uvCache, s))
  | Some uvIdx => Some (newPointIdx, uvIdx, (uvCache, s))
  end.

(** The body of the loop over the triangles of a chart. *)
Definition processTriangle (mesh : Mesh) (vis : PointsVisibility) (side : Z) (chart : Chart)
    (offset : Pixel) (triangleID : Z) (st : gmap Z Z * uv_state)
  : option (gmap Z Z * uv_state) :=
  s ← registerInAtlas st.2;
  tri ← vec_at (tris mesh) triangleID;
  '(n0, u0, st) ← processCorner mesh vis side chart offset (v0 tri) (st.1, s);
  '(n1, u1, st) ← processCorner mesh vis side chart offset (v1 tri) st;
  '(n2, u2, st) ← processCorner mesh vis side chart offset (v2 tri) st;
  Some (st.1, pushTriangle (mkTriangle n0 n1 n2) (mkVoxel u0 u1 u2) st.2).

(** The body of the loop over the charts of an atlas; [uvCache] is a local
    of this body. *)
Definition processChart (mesh : Mesh) (vis : PointsVisibility) (side : Z) (chart : Chart)
    (s : uv_state) : option uv_state :=
  let offset := Pixel_sub (targetLU chart) (sourceLU chart) in
  st ← for_each (processTriangle mesh vis side chart offset) (triangleIDs chart) (∅, s);
  Some st.2.

(** The body of the loop over [mua.atlases()]. *)
Definition processAtlas (mesh : Mesh) (vis : PointsVisibility) (side : Z)
    (charts : list Chart) (s : uv_state) : option uv_state :=
  s ← for_each (processChart mesh vis side) charts s;
  Some (nextAtlas s).

(** The state before the loops. *)
Definition uv_state_init (t : Texturing) (mua : UVAtlas) : uv_state :=
  mkUvState [] [] (uvCoords t) (trisUvIds t) (replicate (length (atlases mua)) [])
    ∅ [] 0 0.

(** The members after the loops: the new mesh and visibilities replace
    the former ones. *)
Definition uv_state_commit (t : Texturing) (s : uv_state) : Texturing :=
  mkTexturing (texParams t) (nmtls t) (trisMtlIds t) (g_uvCoords s) (g_trisUvIds s)
    (normals t) (trisNormalsIds t) (Some (g_updatedPointsCams s))
    (Some (mkMesh (g_pts s) (g_tris s))) (g_atlases s).

Definition generateUVs (t : Texturing) : outcome :=
  match me t with
  | None => Throws "Can't generate UVs without a mesh" t
  | Some mesh =>
      match UVAtlas_new mesh (pointsVisibilities t) (textureSide (texParams t))
              (padding (texParams t)) with
      | inl what => Throws what t
      | inr mua =>
          match
            vis ← pointsVisibilities t;
            for_each (processAtlas mesh vis (mua_textureSide mua)) (atlases mua)
              (uv_state_init t mua)
          with
          | None => Undefined
          | Some s => Returns (uv_state_commit t s)
          end
      end
  end.

End GenerateUVs.

(** ** clear and loadFromMeshing *)

Definition clear (t : Texturing) : Texturing :=
  mkTexturing (texParams t) (nmtls t) [] [] [] [] [] None None [].

Section LoadFromMeshing.

(** [Mesh::loadFromBin] on a fresh mesh: whether it succeeded, and the
    mesh. [loadArrayOfArraysFromFile<int>]: the array read. *)
Variable Mesh_loadFromBin : string → bool * Mesh.
Variable loadArrayOfArraysFromFile : string → PointsVisibility.

Definition with_mesh (t : Texturing) (mesh : Mesh) : Texturing :=
  mkTexturing (texParams t) (nmtls t) (trisMtlIds t) (uvCoords t) (trisUvIds t)
    (normals t) (trisNormalsIds t) (pointsVisibilities t) (Some mesh) (_atlases t).

Definition with_visibilities (t : Texturing) (vis : PointsVisibility) : Texturing :=
  mkTexturing (texParams t) (nmtls t) (trisMtlIds t) (uvCoords t) (trisUvIds t)
    (normals t) (trisNormalsIds t) (Some vis) (me t) (_atlases t).

Definition loadFromMeshing (t : Texturing) (meshFilepath visibilitiesFilepath : string)
  : outcome :=
  let t := clear t in
  let '(loaded, mesh) := Mesh_loadFromBin meshFilepath in
  let t := with_mesh t mesh in
  if negb loaded then Throws ("Unable to load: " +:+ meshFilepath) t
  else
    let vis := loadArrayOfArraysFromFile visibilitiesFilepath in
    let t := with_visibilities t vis in
    if decide (length vis ≠ length (pts mesh)) then
      Throws "Error: Reference mesh and associated visibilities don't have the same size." t
    else Returns t.

End LoadFromMeshing.

(** ** The samples of a texture

    The rasterization only adds to its state; what it adds is the sequence
    of its samples: the texel index and the color read, in the order of the
    loops. *)

(** [colorIDs[xyoffset] = xyoffset; perPixelColors[xyoffset] += color]. *)
Definition applySample (e : Z * Color) (s : list Z * list AccuColor)
  : option (list Z * list AccuColor) :=
  colorIDs ← vec_set s.1 e.1 (i32 e.1);
  acc ← vec_at s.2 e.1;
  perPixelColors ← vec_set s.2 e.1 (add acc e.2);
  Some (colorIDs, perPixelColors).

(** The colors that reach the texel [i], and a sum of colors. *)
Definition samples_at (i : Z) (evs : list (Z * Color)) : list Color :=
  (filter (λ e, e.1 = i) evs).*2.

Definition Color_sum (colors : list Color) : Color := foldl Color_add Color_default colors.

(** The pairs of a camera and one of its triangles, in the order of the
    loops. *)
Definition camera_work (cams : list (nat * list Z)) : list (Z * Z) :=
  cam ← cams; (λ triangleId, (Z.of_nat cam.1, triangleId)) <$> cam.2.

Section TextureSamples.

Variable getPixelFor3DPoint : Point3d → Z → Point2d.
Variable isPixelInImage : Point2d → Z → bool.
Variable getPixelValueInterpolated : Point2d → Z → Color.
Variable point_triangle_squared_distance :
  Point2d → Point2d → Point2d → Point2d → TriangleDistance.

(** The sample of the pixel [(x, y)] of a triangle's bounding box, if it has
    one. *)
Definition pixelSample (tp : TexParams) (camId : Z) (triPixs : Triangle2d)
    (triPts : Triangle3d) (y x : Z) : option (Z * Color) :=
  let pix := mkPixel x y in
  let '(inside, barycCoords) :=
    isPixelInTriangle point_triangle_squared_distance triPixs pix in
  if negb inside then None else
  let y_ := u32 (u32 (textureSide tp - 1) - y) in
  let xyoffset := u32 (y_ * textureSide tp + x) in
  let pt3d := barycentricToCartesian3 triPts barycCoords in
  let pixRC := getPixelFor3DPoint pt3d camId in
  if negb (isPixelInImage pixRC camId) then None
  else Some (xyoffset, getPixelValueInterpolated pixRC camId).

(** The samples of a triangle seen from a camera; [None] where
    [rasterTriangle] reads outside a vector. *)
Definition triangleSamples (t : Texturing) (camId triangleId : Z)
  : option (list (Z * Color)) :=
  '(triPixs, triPts) ← triangleCorners t triangleId;
  '(LUx, LUy, RDx, RDy) ← boundingBox (texParams t) triPixs;
  Some (concat ((λ y, omap (pixelSample (texParams t) camId triPixs triPts y)
                       (seqZ LUx (RDx - LUx))) <$> seqZ LUy (RDy - LUy))).

(** The samples of a texture, for the cameras and triangles [cams]. *)
Definition textureSamples (t : Texturing) (cams : list (nat * list Z))
  : option (list (Z * Color)) :=
  evs ← mapM (λ w, triangleSamples t w.1 w.2) (camera_work cams);
  Some (concat evs).

End TextureSamples.

(** ** Reading the color ids of a texture

    The vocabulary in which the properties of the edge padding are stated. *)

(** The color id of the texel [j], 0 outside the texture. *)
Definition texel (colorIDs : list Z) (j : Z) : Z := default 0 (vec_at colorIDs j).

(** The texels scanned by the dilation: column and row both in
    [1, side - 2]. *)
Definition interior (side j : Z) : Prop :=
  1 <= j mod side <= side - 2 ∧ 1 <= j / side <= side - 2.

(** The first neighbor holding a positive color id, in the order left, right,
    [+ side], [- side]. *)
Definition first_valid_neighbor (side : Z) (colorIDs : list Z) (i : Z) : option Z :=
  if decide (0 < texel colorIDs (i - 1)) then Some (i - 1)
  else if decide (0 < texel colorIDs (i + 1)) then Some (i + 1)
  else if decide (0 < texel colorIDs (i + side)) then Some (i + side)
  else if decide (0 < texel colorIDs (i - side)) then Some (i - side)
  else None.

(** What the scan leaves at an interior texel. *)
Definition scan_value (side : Z) (colorIDs : list Z) (i : Z) : Z :=
  if decide (0 < texel colorIDs i) then texel colorIDs i
  else match first_valid_neighbor side colorIDs i with
       | Some n => - n
       | None => texel colorIDs i
       end.

(** The four neighbors of a texel. *)
Definition neighbor (side i j : Z) : Prop :=
  j = i - 1 ∨ j = i + 1 ∨ j = i + side ∨ j = i - side.

(** [within side colorIDs k i]: the texel [i] holds a color id, or is linked
    to a texel that does by at most [k] steps between neighbors, every texel
    left by a step being interior. *)
Fixpoint within (side : Z) (colorIDs : list Z) (k : nat) (i : Z) : Prop :=
  match k with
  | O => 0 <= i < Z.of_nat (length colorIDs) ∧ 0 <= texel colorIDs i
  | S k' =>
      within side colorIDs k' i ∨
      (interior side i ∧ ∃ j, neighbor side i j ∧ within side colorIDs k' j)
  end.

(** The color ids a rasterization leaves: as many as texels, each the
    sentinel -1 or the texel's own index. *)
Definition rasterized (textureSize : Z) (colorIDs : list Z) : Prop :=
  Z.of_nat (length colorIDs) = textureSize ∧
  ∀ j, 0 <= j < textureSize → texel colorIDs j = -1 ∨ texel colorIDs j = j.

(** What the final loop writes at the texel [i]. *)
Definition texel_color (colorIDs : list Z) (perPixelColors : list AccuColor) (i : Z) : Color :=
  if decide (0 <= texel colorIDs i) then
    average (default AccuColor_new (vec_at perPixelColors (texel colorIDs i)))
  else Color_default.

#[global] Instance interior_dec side j : Decision (interior side j).
Proof. unfold interior. apply _. Defined.

(** Every id is a texel index or the negation of one. *)
Definition bounded (textureSize : Z) (colorIDs : list Z) : Prop :=
  ∀ j, - textureSize < texel colorIDs j < textureSize.

(** No texel but the first one holds the id 0. *)
Definition no_zero (textureSize : Z) (colorIDs : list Z) : Prop :=
  ∀ j, 1 <= j → texel colorIDs j = 0 → textureSize <= j.

(** The color ids between two rounds of the edge padding. *)
Definition padding_state (textureSize : Z) (colorIDs : list Z) : Prop :=
  Z.of_nat (length colorIDs) = textureSize ∧
  bounded textureSize colorIDs ∧ no_zero textureSize colorIDs.

(** The invariant of the scan: the interior texels below [bound] have been
    scanned, the others still hold the id they had in [colorIDs]. *)
Definition scanned (side : Z) (colorIDs : list Z) (bound : Z) (ids : list Z) : Prop :=
  length ids = length colorIDs ∧
  ∀ j, texel ids j =
       if decide (interior side j ∧ j < bound) then scan_value side colorIDs j
       else texel colorIDs j.

(** The invariant of the resolution pass over the scanned ids [cs], the
    texels below [i] being done. *)
Definition resolved (textureSize : Z) (cs : list Z) (i : Z) (ids : list Z) : Prop :=
  length ids = length cs ∧ bounded textureSize ids ∧ no_zero textureSize ids ∧
  (∀ j, 0 <= texel cs j → texel ids j = texel cs j) ∧
  (∀ j, j < i → texel cs j < 0 → 0 < texel cs (- texel cs j) →
        texel ids j = texel cs (- texel cs j)) ∧
  (∀ j, i <= j → texel ids j = texel cs j).

(** ** The triangles walked by generateUVs

    The vocabulary in which the properties of [generateUVs] are stated. *)

(** A triangle of a chart, as the loops meet it: the position of its atlas,
    the position of its chart in the atlas, the chart, the triangle. *)
Record work_item := mkWorkItem {
  w_atlas : nat;
  w_chart : nat;
  w_data : Chart;
  w_triangle : Z
}.

Definition chart_work (a c : nat) (chart : Chart) : list work_item :=
  mkWorkItem a c chart <$> triangleIDs chart.

Definition atlas_work (a c0 : nat) (charts : list Chart) : list work_item :=
  concat (imap (λ c chart, chart_work a (c0 + c) chart) charts).

Definition atlases_work (a0 : nat) (atlasesIn : list (list Chart)) : list work_item :=
  concat (imap (λ a charts, atlas_work (a0 + a) 0 charts) atlasesIn).

(** All the triangles of all the charts, in the order of the loops. *)
Definition uv_work (atlasesIn : list (list Chart)) : list work_item :=
  atlases_work 0 atlasesIn.

(** The positions, in the order of the loops, of the triangles of the atlas
    [a]. *)
Definition atlas_members (a : nat) (work : list work_item) : list Z :=
  omap (λ jw, if decide (w_atlas jw.2 = a) then Some (Z.of_nat jw.1) else None)
    (imap (λ j w, (j, w)) work).

(** What the loops make of a triangle: the triangle read in the former
    mesh, the triangle pushed in the new mesh, its UV indices. *)
Record uv_record := mkUvRecord {
  r_item : work_item;
  r_in : Mesh_triangle;
  r_out : Mesh_triangle;
  r_uv : Voxel
}.

(** A corner of a record: the former point index, the new one, the UV
    index. *)
Record corner := mkCorner { c_point : Z; c_vertex : Z; c_uv : Z }.

Definition record_corners (r : uv_record) : list corner :=
  [mkCorner (v0 (r_in r)) (v0 (r_out r)) (m0 (r_uv r));
   mkCorner (v1 (r_in r)) (v1 (r_out r)) (m1 (r_uv r));
   mkCorner (v2 (r_in r)) (v2 (r_out r)) (m2 (r_uv r))].

(** The chart of a record, as a position. *)
Definition r_chart (r : uv_record) : nat * nat := (w_atlas (r_item r), w_chart (r_item r)).

(** The charts name triangles of the mesh whose points exist and have a
    visibility entry: the loops then read inside the vectors. *)
Definition wf_triangle (mesh : Mesh) (vis : PointsVisibility) (triangleID : Z) : Prop :=
  ∃ tri, vec_at (tris mesh) triangleID = Some tri ∧
    ∀ pointId, pointId ∈ [v0 tri; v1 tri; v2 tri] →
      0 <= pointId < Z.of_nat (length (pts mesh)) ∧ pointId < Z.of_nat (length vis).

Definition wf_chart (mesh : Mesh) (vis : PointsVisibility) (chart : Chart) : Prop :=
  ∀ triangleID, triangleID ∈ triangleIDs chart → wf_triangle mesh vis triangleID.

Definition wf_atlases (mesh : Mesh) (vis : PointsVisibility) (atlasesIn : list (list Chart))
  : Prop :=
  ∀ charts chart, charts ∈ atlasesIn → chart ∈ charts → wf_chart mesh vis chart.

(** The position of a point in the texture, in texels: its projection in
    the reference camera of the chart, shifted by the offset of the chart. *)
Definition texturePosition (getPixelFor3DPoint : Point3d → Z → Point2d) (chart : Chart)
    (p : Point3d) : Point2d :=
  let offset := Pixel_sub (targetLU chart) (sourceLU chart) in
  Point2d_add (getPixelFor3DPoint p (refCameraID chart))
    (mkPoint2d (Qc_of_Z (pix_x offset)) (Qc_of_Z (pix_y offset))).

(** The position lies in the square of a texture of side [side]. *)
Definition in_texture (side : Z) (q : Point2d) : Prop :=
  (0 ≤ p2_x q ≤ Qc_of_Z side)%Qc ∧ (0 ≤ p2_y q ≤ Qc_of_Z side)%Qc.

#[global] Instance in_texture_dec side q : Decision (in_texture side q).
Proof. unfold in_texture. apply _. Defined.

(** ** The invariants of generateUVs *)

Section UVInvariants.

Variable getPixelFor3DPoint : Point3d → Z → Point2d.
Variable isPixelInImage : Point2d → Z → bool.
Variable mesh : Mesh.
Variable vis : PointsVisibility.
Variable side : Z.
Variable uv0 : list Point2d.
Variable tu0 : list Voxel.
Variable nAtl : nat.

(** The UV coordinates of a point in a chart. *)
Definition chartUV (chart : Chart) (p : Point3d) : Point2d :=
  computeUV getPixelFor3DPoint isPixelInImage side chart
    (Pixel_sub (targetLU chart) (sourceLU chart)) p.

(** [s'] extends [s]: points and UV coordinates were pushed, cache entries
    added, nothing else touched. *)
Definition uv_extends (s s' : uv_state) : Prop :=
  g_pts s `prefix_of` g_pts s' ∧ g_uvCoords s `prefix_of` g_uvCoords s' ∧
  g_vertexCache s ⊆ g_vertexCache s' ∧
  g_tris s' = g_tris s ∧ g_trisUvIds s' = g_trisUvIds s ∧ g_atlases s' = g_atlases s ∧
  g_atlasId s' = g_atlasId s ∧ g_triangleCount s' = g_triangleCount s.

(** [vertexCache] maps the former points met so far one-to-one onto the
    vertices of the new mesh, which copy them. *)
Definition cache_ok (s : uv_state) : Prop :=
  (∀ pid v, g_vertexCache s !! pid = Some v →
     ∃ p, vec_at (pts mesh) pid = Some p ∧ vec_at (g_pts s) v = Some p) ∧
  (∀ pid pid' v, g_vertexCache s !! pid = Some v → g_vertexCache s !! pid' = Some v →
     pid = pid') ∧
  (∀ v, 0 <= v < Z.of_nat (length (g_pts s)) → ∃ pid, g_vertexCache s !! pid = Some v) ∧
  length (g_updatedPointsCams s) = length (g_pts s).

(** [uvCache] maps vertices to UV entries pushed for the chart at hand, at
    or after [uvBase], which hold the vertex' UV coordinates in the chart. *)
Definition uvcache_ok (chart : Chart) (uvBase : Z) (uvCache : gmap Z Z) (s : uv_state) : Prop :=
  uvBase <= Z.of_nat (length (g_uvCoords s)) ∧
  ∀ v u, uvCache !! v = Some u →
    uvBase <= u ∧
    ∃ p, vec_at (g_pts s) v = Some p ∧ vec_at (g_uvCoords s) u = Some (chartUV chart p).

Definition corner_ok (s : uv_state) (r : uv_record) (c : corner) : Prop :=
  g_vertexCache s !! c_point c = Some (c_vertex c) ∧
  ∃ p, vec_at (pts mesh) (c_point c) = Some p ∧
       vec_at (g_uvCoords s) (c_uv c) = Some (chartUV (w_data (r_item r)) p).

(** Two corners of one chart share their UV entry when they share their
    vertex; two corners of two charts never share their UV entry. *)
Definition uv_split (recs : list uv_record) : Prop :=
  ∀ r c r' c', r ∈ recs → c ∈ record_corners r → r' ∈ recs → c' ∈ record_corners r' →
    if decide (r_chart r = r_chart r') then c_vertex c = c_vertex c' → c_uv c = c_uv c'
    else c_uv c ≠ c_uv c'.

Definition records_ok (recs : list uv_record) (s : uv_state) : Prop :=
  (∀ r, r ∈ recs → vec_at (tris mesh) (w_triangle (r_item r)) = Some (r_in r)) ∧
  (∀ r c, r ∈ recs → c ∈ record_corners r → corner_ok s r c) ∧
  uv_split recs.

(** The invariant of the loops, in the atlas [a], the triangles met so far
    having left the records [recs]. *)
Definition uv_inv (a : nat) (recs : list uv_record) (s : uv_state) : Prop :=
  g_tris s = r_out <$> recs ∧
  g_trisUvIds s = tu0 ++ (r_uv <$> recs) ∧
  g_triangleCount s = Z.of_nat (length recs) ∧
  g_atlasId s = Z.of_nat a ∧
  uv0 `prefix_of` g_uvCoords s ∧
  length (g_atlases s) = nAtl ∧
  (∀ a', (a' < nAtl)%nat → g_atlases s !! a' = Some (atlas_members a' (r_item <$> recs))) ∧
  cache_ok s ∧ records_ok recs s.

(** The invariant of the loop over the triangles of the chart [cur]. *)
Definition chart_inv (cur : nat * nat) (chart : Chart) (uvBase : Z) (uvCache : gmap Z Z)
    (recs : list uv_record) (s : uv_state) : Prop :=
  uvcache_ok chart uvBase uvCache s ∧
  ∀ r c, r ∈ recs → c ∈ record_corners r →
    if decide (r_chart r = cur) then uvCache !! c_vertex c = Some (c_uv c)
    else c_uv c < uvBase.

End UVInvariants.

(** ** Sample data *)

(** A point/triangle squared distance that is exact on the points of a
    triangle that is not flat: there it is 0, with the barycentric weights
    of the point. Elsewhere it answers with the squared distance to the first
    vertex, which is not below the distance to the triangle. *)
Definition barycentric_distance (p V0 V1 V2 : Point2d) : TriangleDistance :=
  let d := ((p2_y V1 - p2_y V2) * (p2_x V0 - p2_x V2)
            + (p2_x V2 - p2_x V1) * (p2_y V0 - p2_y V2))%Qc in
  let l1 := (((p2_y V1 - p2_y V2) * (p2_x p - p2_x V2)
              + (p2_x V2 - p2_x V1) * (p2_y p - p2_y V2)) / d)%Qc in
  let l2 := (((p2_y V2 - p2_y V0) * (p2_x p - p2_x V2)
              + (p2_x V0 - p2_x V2) * (p2_y p - p2_y V2)) / d)%Qc in
  let l3 := (1 - l1 - l2)%Qc in
  if decide (0 ≤ l1 ∧ 0 ≤ l2 ∧ 0 ≤ l3)%Qc then mkTriangleDistance 0 p l1 l2 l3
  else
    let dx := (p2_x p - p2_x V0)%Qc in
    let dy := (p2_y p - p2_y V0)%Qc in
    mkTriangleDistance (dx * dx + dy * dy) V0 1 0 0.

(** A triangle inside the pixel of column 0 and row 1, around its center. *)
Definition small_triangle : Triangle2d :=
  mkTriangle2d (mkPoint2d (Q2Qc (1 # 10)) (Q2Qc (11 # 10)))
    (mkPoint2d (Q2Qc (9 # 10)) (Q2Qc (11 # 10)))
    (mkPoint2d half (Q2Qc (19 # 10))).

(** A texture of side 3 padded by one texel. *)
Definition params_3 : TexParams := mkTexParams 3 1 1 false.

(** Its color ids when only the texel 3 (column 0, row 1) got a sample,
    when only the texel 4 (the center) did, and when only the texel 1
    (column 1, row 0) did. *)
Definition ids_left_sampled : list Z := [-1; -1; -1; 3; -1; -1; -1; -1; -1].
Definition ids_center_sampled : list Z := [-1; -1; -1; -1; 4; -1; -1; -1; -1].
Definition ids_top_sampled : list Z := [-1; 1; -1; -1; -1; -1; -1; -1; -1].

(** A pipeline with nothing loaded. *)
Definition texturing_blank : Texturing := mkTexturing params_3 0 [] [] [] [] [] None None [].

(** Loaders that find a mesh of one point and no triangle, and one (null)
    visibility array. *)
Definition one_point_mesh : Mesh := mkMesh [mkPoint3d 0 0 0] [].
Definition load_one_point_mesh (meshFilepath : string) : bool * Mesh := (true, one_point_mesh).
Definition load_one_visibility (visibilitiesFilepath : string) : PointsVisibility := [None].

(** A camera that drops the third coordinate and sees everything, and a
    packing that places no chart. *)
Definition flat_projection (p : Point3d) (camId : Z) : Point2d := mkPoint2d (p3_x p) (p3_y p).
Definition whole_plane_image (pix : Point2d) (camId : Z) : bool := true.
Definition pack_nothing (mesh : Mesh) (ptsCams : option PointsVisibility)
  (textureSide gutterSize : Z) : list (list Chart) := [].

(** Two cameras that see red and blue, and a mesh of one triangle, seen by
    both, whose UV coordinates are those of [small_triangle] in the texture
    of [params_3]. *)
Definition red : Color := mkColor 1 0 0.
Definition blue : Color := mkColor 0 0 1.
Definition two_camera_colors (pix : Point2d) (camId : Z) : Color :=
  if decide (camId = 0) then red else blue.
Definition texturing_one_triangle : Texturing :=
  mkTexturing params_3 0 []
    [mkPoint2d (Q2Qc (1 # 30)) (Q2Qc (11 # 30)); mkPoint2d (Q2Qc (3 # 10)) (Q2Qc (11 # 30));
     mkPoint2d (Q2Qc (1 # 6)) (Q2Qc (19 # 30))]
    [mkVoxel 0 1 2] [] []
    (Some [Some [0; 1]; None; Some [1]])
    (Some (mkMesh [mkPoint3d 0 0 0; mkPoint3d 1 0 0; mkPoint3d 0 1 0] [mkTriangle 0 1 2]))
    [[0]].

(** The same mesh with its triangle around the center of the pixel of
    column 1 and row 2, which is the texel 1 of the color buffer. *)
Definition texturing_top_triangle : Texturing :=
  mkTexturing params_3 0 []
    [mkPoint2d (Q2Qc (11 # 30)) (Q2Qc (21 # 30)); mkPoint2d (Q2Qc (19 # 30)) (Q2Qc (21 # 30));
     mkPoint2d half (Q2Qc (29 # 30))]
    [mkVoxel 0 1 2] [] []
    (Some [Some [0; 1]; None; Some [1]])
    (Some (mkMesh [mkPoint3d 0 0 0; mkPoint3d 1 0 0; mkPoint3d 0 1 0] [mkTriangle 0 1 2]))
    [[0]].

#[global] Instance Color_eq_dec : EqDecision Color.
Proof. solve_decision. Defined.

(** A quad of two triangles, placed in two charts of one atlas of side 8:
    the first chart has the camera 0 as reference, the second has none; and
    the same quad in one chart that fills a texture of side 1. *)
Definition quad_mesh : Mesh :=
  mkMesh [mkPoint3d 0 0 0; mkPoint3d 1 0 0; mkPoint3d 0 1 0; mkPoint3d 1 1 0]
    [mkTriangle 0 1 2; mkTriangle 1 3 2].
Definition quad_visibility : PointsVisibility := [Some [0]; Some [0]; None; Some [0]].
Definition chart_front : Chart := mkChart 0 (mkPixel 0 0) (mkPixel 1 1) [0].
Definition chart_back : Chart := mkChart (-1) (mkPixel 0 0) (mkPixel 4 4) [1].
Definition chart_unit : Chart := mkChart 0 (mkPixel 0 0) (mkPixel 0 0) [0; 1].
Definition pack_two_charts (mesh : Mesh) (ptsCams : option PointsVisibility)
  (textureSide gutterSize : Z) : list (list Chart) := [[chart_front; chart_back]].
Definition pack_unit_chart (mesh : Mesh) (ptsCams : option PointsVisibility)
  (textureSide gutterSize : Z) : list (list Chart) := [[chart_unit]].
Definition params_8 : TexParams := mkTexParams 8 1 1 false.
Definition texturing_quad : Texturing :=
  mkTexturing params_8 0 [] [] [] [] [] (Some quad_visibility) (Some quad_mesh) [].
Definition params_1 : TexParams := mkTexParams 1 0 1 false.
Definition texturing_unit : Texturing :=
  mkTexturing params_1 0 [] [] [] [] [] (Some quad_visibility) (Some quad_mesh) [].

#[global] Instance Point2d_eq_dec : EqDecision Point2d.
Proof. solve_decision. Defined.

(** ** Unwrap methods *)

Inductive EUnwrapMethod := Basic | ABF | LSCM.

(** The method named, or the message of the [std::out_of_range] thrown. *)
Definition EUnwrapMethod_stringToEnum (method : string) : string + EUnwrapMethod :=
  if decide (method = "Basic") then inr Basic
  else if decide (method = "ABF") then inr ABF
  else if decide (method = "LSCM") then inr LSCM
  else inl ("Invalid unwrap method " +:+ method).

Definition EUnwrapMethod_enumToString (method : EUnwrapMethod) : string :=
  match method with
  | Basic => "Basic"
  | ABF => "ABF"
  | LSCM => "LSCM"
  end.

(** ** toGeoMesh *)

(** The arrays [point.m] and [tri.v]. *)
Definition Point3d_m (p : Point3d) : list Qc := [p3_x p; p3_y p; p3_z p].
Definition triangle_v (t : Mesh_triangle) : list Z := [v0 t; v1 t; v2 t].

(** The vectors [vertices] and [facets] handed to geogram's
    [assign_triangle_mesh]; a facet index is a [GEO::index_t], an unsigned
    32-bit integer. *)
Definition toGeoMesh (src : Mesh) : list Qc * list Z :=
  (foldl (λ vertices point, vertices ++ Point3d_m point) [] (pts src),
   foldl (λ facets tri, facets ++ (u32 <$> triangle_v tri)) [] (tris src)).

(** ** generateTextures *)

(** What [generateTextures] leaves: the images written, in order, and how it
    ended. *)
Inductive textures_outcome :=
  | TexturesWritten (images : list (string * Z * list Color))
  | TexturesThrow (what : string) (images : list (string * Z * list Color))
  | TexturesUndefined.

Section GenerateTextures.

Variable ncams : Z.
Variable getPixelFor3DPoint : Point3d → Z → Point2d.
Variable isPixelInImage : Point2d → Z → bool.
Variable getPixelValueInterpolated : Point2d → Z → Color.
Variable point_triangle_squared_distance :
  Point2d → Point2d → Point2d → Point2d → TriangleDistance.
Variable imageIO_fillHoles : Z → Z → list Color → list Qc → list Color.
Variable imageIO_resizeImage : Z → Z → Z → list Color → list Color.
Variable EImageFileType : Type.
Variable EImageFileType_enumToString : EImageFileType → string.

(** The loop over the atlas ids still to do. *)
Fixpoint generateTextures_loop (t : Texturing) (textureFileType : EImageFileType)
    (atlasIDs : list Z) (images : list (string * Z * list Color)) : textures_outcome :=
  match atlasIDs with
  | [] => TexturesWritten images
  | atlasID :: atlasIDs' =>
      match generateTexture ncams getPixelFor3DPoint isPixelInImage
              getPixelValueInterpolated point_triangle_squared_distance
              imageIO_fillHoles imageIO_resizeImage EImageFileType
              EImageFileType_enumToString t atlasID textureFileType with
      | Written textureName outTextureSide colorBuffer =>
          generateTextures_loop t textureFileType atlasIDs'
            (images ++ [(textureName, outTextureSide, colorBuffer)])
      | TextureThrows what => TexturesThrow what images
      | TextureUndefined => TexturesUndefined
      end
  end.

Definition generateTextures (t : Texturing) (textureFileType : EImageFileType)
  : textures_outcome :=
  generateTextures_loop t textureFileType (seqZ 0 (Z.of_nat (length (_atlases t)))) [].

End GenerateTextures.

(** ** loadFromOBJ *)

(** What [Mesh::loadFromObjAscii] fills: the mesh and the tables it is handed
    by reference. *)
Record ObjData := mkObjData {
  obj_mesh : Mesh;
  obj_nmtls : Z;
  obj_trisMtlIds : list Z;
  obj_normals : list Point3d;
  obj_trisNormalsIds : list Voxel;
  obj_uvCoords : list Point2d;
  obj_trisUvIds : list Voxel
}.

(** [_atlases[atlasID].push_back(triangleID)], the material id of the
    triangle being converted to [unsigned int]. *)
Definition registerMaterialTriangle (nmtls : Z) (trisMtlIds : list Z) (triangleID : Z)
    (atlasesOut : list (list Z)) : option (list (list Z)) :=
  mtl ← vec_at trisMtlIds triangleID;
  let atlasID := if decide (nmtls = 0) then 0 else u32 mtl in
  atlas ← vec_at atlasesOut atlasID;
  vec_set atlasesOut atlasID (atlas ++ [triangleID]).

(** The loop filling the atlases, one per material. *)
Definition fillMaterialAtlases (nmtls : Z) (trisMtlIds : list Z) : option (list (list Z)) :=
  for_range 0 (Z.of_nat (length trisMtlIds)) (registerMaterialTriangle nmtls trisMtlIds)
    (replicate (Z.to_nat (Z.max 1 nmtls)) []).

Section LoadFromOBJ.

(** [Mesh::loadFromObjAscii] on a fresh mesh: whether it succeeded and what
    it filled; [Mesh::invertTriangleOrientations]. *)
Variable Mesh_loadFromObjAscii : string → bool * ObjData.
Variable Mesh_invertTriangleOrientations : Mesh → Mesh.

Definition with_obj (t : Texturing) (d : ObjData) (mesh : Mesh) (atlasesOut : list (list Z))
  : Texturing :=
  mkTexturing (texParams t) (obj_nmtls d) (obj_trisMtlIds d) (obj_uvCoords d)
    (obj_trisUvIds d) (obj_normals d) (obj_trisNormalsIds d) (pointsVisibilities t)
    (Some mesh) atlasesOut.

Definition loadFromOBJ (t : Texturing) (filename : string) (flipNormals : bool) : outcome :=
  let t := clear t in
  let '(loaded, d) := Mesh_loadFromObjAscii filename in
  if negb loaded then
    Throws ("Unable to load: " +:+ filename) (with_obj t d (obj_mesh d) (_atlases t))
  else
    let mesh :=
      if flipNormals then Mesh_invertTriangleOrientations (obj_mesh d) else obj_mesh d in
    match fillMaterialAtlases (obj_nmtls d) (obj_trisMtlIds d) with
    | None => Undefined
    | Some atlasesOut => Returns (with_obj t d mesh atlasesOut)
    end.

End LoadFromOBJ.

(** The positions of the elements of [l] that satisfy [P], in increasing
    order. *)
Definition positions_where {A} (P : A → Prop) `{∀ x, Decision (P x)} (l : list A) : list Z :=
  omap (λ jx, if decide (P jx.2) then Some (Z.of_nat jx.1) else None)
    (imap (λ j x, (j, x)) l).

(** The atlas of a triangle of material [mtl]. *)
Definition material_atlas (nmtls mtl : Z) : Z := if decide (nmtls = 0) then 0 else u32 mtl.

(** ** saveAsOBJ *)

(** The calls to [fprintf] on the .obj file and on the .mtl file, in order,
    each with its arguments; [ObjText] and [MtlText] are the calls without
    argument, given by their format string as the source spells it. *)
Inductive obj_print :=
  | ObjText (format : string)
  | ObjMtllib (mtlName : string)
  | ObjV (p : Point3d)
  | ObjVt (uv : Point2d)
  | ObjUsemtl (atlasID : Z)
  | ObjFace (vertexID1 uvID1 vertexID2 uvID2 vertexID3 uvID3 : Z).

Inductive mtl_print :=
  | MtlText (format : string)
  | MtlNewmtl (atlasID : Z)
  | MtlMapKd (textureName : string).

(** [id + 1] on an [int], undefined when it overflows. *)
Definition succ_int (id : Z) : option Z :=
  if decide (id + 1 < 2 ^ 31) then Some (id + 1) else None.

Section SaveAsOBJ.

Variable EImageFileType : Type.
Variable EImageFileType_enumToString : EImageFileType → string.

(** The face of a triangle: vertex and UV indices, indexed from 1. *)
Definition objFace (t : Texturing) (mesh : Mesh) (triangleID : Z) : option obj_print :=
  tri ← vec_at (tris mesh) triangleID;
  uvIds ← vec_at (trisUvIds t) triangleID;
  vertexID1 ← succ_int (v0 tri); uvID1 ← succ_int (m0 uvIds);
  vertexID2 ← succ_int (v1 tri); uvID2 ← succ_int (m1 uvIds);
  vertexID3 ← succ_int (v2 tri); uvID3 ← succ_int (m2 uvIds);
  Some (ObjFace vertexID1 uvID1 vertexID2 uvID2 vertexID3 uvID3).

(** The faces of an atlas, after its [usemtl]. *)
Definition objAtlas (t : Texturing) (mesh : Mesh) (atlasID : nat) (atlas : list Z)
  : option (list obj_print) :=
  faces ← mapM (objFace t mesh) atlas;
  Some (ObjUsemtl (Z.of_nat atlasID) :: faces).

Definition objPrints (t : Texturing) (mtlName : string) : option (list obj_print) :=
  mesh ← me t;
  groups ← mapM (λ ia, objAtlas t mesh ia.1 ia.2) (imap (λ i atlas, (i, atlas)) (_atlases t));
  Some ([ObjText "# \n"; ObjText "# Wavefront OBJ file\n";
         ObjText "# Created with AliceVision\n"; ObjText "# \n"; ObjMtllib mtlName;
         ObjText "g TexturedMesh\n"]
        ++ (ObjV <$> pts mesh) ++ (ObjVt <$> uvCoords t) ++ concat groups).

(** The material of an atlas. *)
Definition mtlAtlas (textureFileType : EImageFileType) (atlasID : nat) : list mtl_print :=
  let textureName :=
    "texture_" +:+ pretty (Z.of_nat atlasID) +:+ "." +:+
    EImageFileType_enumToString textureFileType in
  [MtlText "\n"; MtlNewmtl (Z.of_nat atlasID); MtlText "Ka  0.6 0.6 0.6\n";
   MtlText "Kd  0.6 0.6 0.6\n"; MtlText "Ks  0.0 0.0 0.0\n"; MtlText "d  1.0\n";
   MtlText "Ns  0.0\n"; MtlText "illum 2\n"; MtlMapKd textureName].

Definition mtlPrints (t : Texturing) (textureFileType : EImageFileType) : list mtl_print :=
  [MtlText "# \n"; MtlText "# Wavefront material file\n";
   MtlText "# Created with AliceVision\n"; MtlText "# \n\n"]
  ++ concat (mtlAtlas textureFileType <$> seq 0 (length (_atlases t))).

(** What is written to the .obj file and to the .mtl file, both files
    being open; [None] where a vector is read outside its bounds. *)
Definition saveAsOBJ (t : Texturing) (basename : string) (textureFileType : EImageFileType)
  : option (list obj_print * list mtl_print) :=
  obj ← objPrints t (basename +:+ ".mtl");
  Some (obj, mtlPrints t textureFileType).

End SaveAsOBJ.

(** ** Reading a .obj file

    The vocabulary in which the properties of [saveAsOBJ] are stated. *)

(** The points of the [v] lines, the UV coordinates of the [vt] lines, and
    the [usemtl] and [f] lines, each in the order of the file. *)
Definition obj_v_lines (obj : list obj_print) : list Point3d :=
  omap (λ line, match line with ObjV p => Some p | _ => None end) obj.
Definition obj_vt_lines (obj : list obj_print) : list Point2d :=
  omap (λ line, match line with ObjVt uv => Some uv | _ => None end) obj.
Definition obj_face_lines (obj : list obj_print) : list obj_print :=
  omap (λ line, match line with
                | ObjUsemtl _ | ObjFace _ _ _ _ _ _ => Some line
                | _ => None
                end) obj.

(** The line that an index of a face names, the lines being counted
    from 1. *)
Definition obj_line {A} (lines : list A) (id : Z) : option A := vec_at lines (id - 1).

(** The points and UV coordinates that the three corners of a face name
    among the [v] and [vt] lines of the file. *)
Definition obj_face_corners (obj : list obj_print) (face : obj_print)
  : option (list (Point3d * Point2d)) :=
  match face with
  | ObjFace vertexID1 uvID1 vertexID2 uvID2 vertexID3 uvID3 =>
      p1 ← obj_line (obj_v_lines obj) vertexID1;
      uv1 ← obj_line (obj_vt_lines obj) uvID1;
      p2 ← obj_line (obj_v_lines obj) vertexID2;
      uv2 ← obj_line (obj_vt_lines obj) uvID2;
      p3 ← obj_line (obj_v_lines obj) vertexID3;
      uv3 ← obj_line (obj_vt_lines obj) uvID3;
      Some [(p1, uv1); (p2, uv2); (p3, uv3)]
  | _ => None
  end.

(** The points and UV coordinates of the three corners of a triangle, in
    the tables of the pipeline. *)
Definition triangle_points_uvs (t : Texturing) (mesh : Mesh) (triangleID : Z)
  : option (list (Point3d * Point2d)) :=
  tri ← vec_at (tris mesh) triangleID;
  uvIds ← vec_at (trisUvIds t) triangleID;
  p0 ← vec_at (pts mesh) (v0 tri);
  uv0 ← vec_at (uvCoords t) (m0 uvIds);
  p1 ← vec_at (pts mesh) (v1 tri);
  uv1 ← vec_at (uvCoords t) (m1 uvIds);
  p2 ← vec_at (pts mesh) (v2 tri);
  uv2 ← vec_at (uvCoords t) (m2 uvIds);
  Some [(p0, uv0); (p1, uv1); (p2, uv2)].

(** ** replaceMesh and unwrap *)

(** [me = nullptr; pointsVisibilities = nullptr]. *)
Definition without_mesh (t : Texturing) : Texturing :=
  mkTexturing (texParams t) (nmtls t) (trisMtlIds t) (uvCoords t) (trisUvIds t)
    (normals t) (trisNormalsIds t) None None (_atlases t).

Section Unwrap.

Variable getPixelFor3DPoint : Point3d → Z → Point2d.
Variable isPixelInImage : Point2d → Z → bool.
Variable packCharts : Mesh → option PointsVisibility → Z → Z → list (list Chart).
Variable Mesh_invertTriangleOrientations : Mesh → Mesh.

(** [remapMeshVisibilities] of the mesh module: the visibilities it fills
    for the new mesh, from the reference mesh and its visibilities. *)
Variable remapMeshVisibilities : Mesh → PointsVisibility → Mesh → PointsVisibility.

(** The reference mesh and visibilities are read after the new mesh is
    loaded; both are dereferenced. *)
Definition replaceMesh (Mesh_loadFromObjAscii : string → bool * ObjData) (t : Texturing)
    (otherMeshPath : string) (flipNormals : bool) : outcome :=
  let refMesh := me t in
  let refVisibilities := pointsVisibilities t in
  match loadFromOBJ Mesh_loadFromObjAscii Mesh_invertTriangleOrientations
          (without_mesh t) otherMeshPath flipNormals with
  | Returns t =>
      match refMesh, refVisibilities, me t with
      | Some refMesh, Some refVisibilities, Some mesh =>
          Returns (with_visibilities t (remapMeshVisibilities refMesh refVisibilities mesh))
      | _, _, _ => Undefined
      end
  | Throws what t => Throws what t
  | Undefined => Undefined
  end.

(** geogram's part of [unwrap]: [Mesh::loadFromObjAscii] as it reads the
    files once [GEO::mesh_make_atlas] has made the atlas of the mesh handed
    by [toGeoMesh] and [GEO::mesh_save] has saved it; and the path of the
    temporary file. *)
Variable geogram_saved_atlas : list Qc * list Z → EUnwrapMethod → string → bool * ObjData.
Variable tmpObjPath : string.

(** The default value of [flipNormals] in the declaration of [replaceMesh],
    which [unwrap] leaves out of its call. *)
Variable flipNormals_default : bool.

Definition unwrap (t : Texturing) (method : EUnwrapMethod) : outcome :=
  match method with
  | Basic => generateUVs getPixelFor3DPoint isPixelInImage packCharts t
  | _ =>
      match me t with
      | None => Undefined
      | Some mesh =>
          replaceMesh (geogram_saved_atlas (toGeoMesh mesh) method) t tmpObjPath
            flipNormals_default
      end
  end.

End Unwrap.

(** ** The rounds of the edge padding *)

(** The color ids between two rounds of the edge padding: each texel holds
    the sentinel -1 or a positive texel index, the texel 0 possibly its own
    index. *)
Definition color_ids (textureSize : Z) (colorIDs : list Z) : Prop :=
  Z.of_nat (length colorIDs) = textureSize ∧
  ∀ j, 0 <= j < textureSize →
    texel colorIDs j = -1 ∨ 0 < texel colorIDs j < textureSize ∨
    (j = 0 ∧ texel colorIDs j = 0).

(** What a round leaves at the texel [j]: its id if it has one; else, for
    an interior texel next to a positive id, the first such neighbor's id;
    else what the texel 1 holds, -1 being both the sentinel and the negated
    index 1. *)
Definition round_value (side : Z) (colorIDs : list Z) (j : Z) : Z :=
  if decide (0 <= texel colorIDs j) then texel colorIDs j
  else
    match (if decide (interior side j) then first_valid_neighbor side colorIDs j
           else None) with
    | Some n => texel colorIDs n
    | None => texel colorIDs 1
    end.

(** ** The visibilities rebuilt by generateUVs *)

(** [updatedPointsCams] has one entry per vertex of the new mesh; the vertex
    of a former point holds a copy of the cameras of that point, none where
    the point has a null array; and every vertex copies a former point. *)
Definition visibilities_ok (mesh : Mesh) (vis : PointsVisibility) (s : uv_state) : Prop :=
  length (g_updatedPointsCams s) = length (g_pts s) ∧
  (∀ pointId v, g_vertexCache s !! pointId = Some v →
     ∃ pRef, vec_at vis pointId = Some pRef ∧
       vec_at (g_updatedPointsCams s) v = Some (Some (default [] pRef))) ∧
  (∀ v, 0 <= v < Z.of_nat (length (g_pts s)) →
     ∃ pointId p pRef,
       vec_at (pts mesh) pointId = Some p ∧ vec_at (g_pts s) v = Some p ∧
       vec_at vis pointId = Some pRef ∧
       vec_at (g_updatedPointsCams s) v = Some (Some (default [] pRef))).

(** ** The triangles of a camera *)

(** The camera [camId] sees one of the points of the triangle. *)
Definition triangle_seen (t : Texturing) (camId triangleId : Z) : Prop :=
  match triangleCams t triangleId with
  | Some triCams => camId ∈ triCams
  | None => False
  end.

#[global] Instance triangle_seen_dec t camId triangleId :
  Decision (triangle_seen t camId triangleId).
Proof. unfold triangle_seen. destruct (triangleCams t triangleId); apply _. Defined.

(** ** Coordinates that fit an int *)

(** Both [std::floor] and [std::ceil] of the coordinate can be cast to
    [int]. *)
Definition fits_int (q : Qc) : Prop := - 2 ^ 31 <= Qfloor q ∧ Qceiling q < 2 ^ 31.

(** ** More sample data *)

(** The texture of [texturing_one_triangle], its holes being filled. *)
Definition texturing_fill_holes : Texturing :=
  mkTexturing (mkTexParams 3 1 1 true) 0 []
    [mkPoint2d (Q2Qc (1 # 30)) (Q2Qc (11 # 30)); mkPoint2d (Q2Qc (3 # 10)) (Q2Qc (11 # 30));
     mkPoint2d (Q2Qc (1 # 6)) (Q2Qc (19 # 30))]
    [mkVoxel 0 1 2] [] []
    (Some [Some [0; 1]; None; Some [1]])
    (Some (mkMesh [mkPoint3d 0 0 0; mkPoint3d 1 0 0; mkPoint3d 0 1 0] [mkTriangle 0 1 2]))
    [[0]].

(** * Properties *)

(** ** Machine integers and vectors *)

Lemma u32_small z : 0 <= z < 2 ^ 32 → u32 z = z.
Proof. intros. unfold u32. by apply Z.mod_small. Qed.

Lemma i32_small z : - 2 ^ 31 <= z < 2 ^ 31 → i32 z = z.
Proof. intros. unfold i32. rewrite Z.mod_small; lia. Qed.

(** Negating an [unsigned int] by [* -1] and storing it in an [int]. *)
Lemma negate_unsigned n : 0 <= n < 2 ^ 31 → i32 (u32 (u32 n * u32 (-1))) = - n.
Proof.
  intros Hn. rewrite (u32_small n) by lia.
  unfold u32 at 2. change ((-1) mod 2 ^ 32) with (2 ^ 32 - 1).
  destruct (decide (n = 0)) as [->|Hn0]; [done|].
  unfold u32, i32.
  replace (n * (2 ^ 32 - 1)) with ((2 ^ 32 - n) + (n - 1) * 2 ^ 32) by lia.
  rewrite Z_mod_plus_full, (Z.mod_small (2 ^ 32 - n)) by lia.
  replace (2 ^ 32 - n + 2 ^ 31) with ((- n + 2 ^ 31) + 1 * 2 ^ 32) by lia.
  rewrite Z_mod_plus_full, Z.mod_small; lia.
Qed.

Lemma vec_at_nat {A} (v : list A) (n : nat) : vec_at v (Z.of_nat n) = v !! n.
Proof. unfold vec_at. rewrite decide_True by lia. by rewrite Nat2Z.id. Qed.

Lemma vec_at_lt {A} (v : list A) i :
  0 <= i < Z.of_nat (length v) → ∃ x, vec_at v i = Some x.
Proof.
  intros Hi. unfold vec_at. rewrite decide_True by lia.
  apply lookup_lt_is_Some_2. lia.
Qed.

Lemma vec_set_nat {A} (v : list A) (n : nat) x :
  (n < length v)%nat → vec_set v (Z.of_nat n) x = Some (<[n := x]> v).
Proof. intros. unfold vec_set. rewrite decide_True by lia. by rewrite Nat2Z.id. Qed.

(** ** isPixelInTriangle *)

Lemma quarter_below_threshold (r : Qc) :
  (0 ≤ r)%Qc → (r ≤ half)%Qc → (r * r < half + epsilon)%Qc.
Proof.
  intros H0 Hh.
  apply Qcle_lt_trans with (half * half)%Qc; [|done].
  trans (half * r)%Qc.
  - by apply Qcmult_le_compat_r.
  - rewrite !(Qcmult_comm half). by apply Qcmult_le_compat_r.
Qed.

(** C4. [isPixelInTriangle] answers true exactly when the squared distance
    from the pixel center (pixel coordinates + 0.5) to the triangle is
    strictly below 0.5 + machine epsilon, and hands back the weights l3 and
    l2; so a pixel whose center is at distance zero (on an edge) is inside,
    and so is every pixel whose center is within half a pixel of the
    triangle. *)
Theorem isPixelInTriangle_half_pixel_tolerance
    (point_triangle_squared_distance : Point2d → Point2d → Point2d → Point2d → TriangleDistance)
    (triangle : Triangle2d) (pixel : Pixel) :
  let d := point_triangle_squared_distance
             (mkPoint2d (Qc_of_Z (pix_x pixel) + half) (Qc_of_Z (pix_y pixel) + half))
             (tri_0 triangle) (tri_1 triangle) (tri_2 triangle) in
  let r := isPixelInTriangle point_triangle_squared_distance triangle pixel in
  (r.1 = true ↔ (td_dist d < half + epsilon)%Qc)
  ∧ r.2 = mkPoint2d (td_l3 d) (td_l2 d)
  ∧ (td_dist d = 0%Qc → r.1 = true)
  ∧ (∀ dist : Qc, (0 ≤ dist ≤ half)%Qc → td_dist d = (dist * dist)%Qc → r.1 = true).
Proof.
  destruct triangle as [[] [] []]; simpl.
  unfold isPixelInTriangle, pixel_center; simpl.
  rewrite bool_decide_eq_true.
  repeat split; try tauto.
  - intros ->. done.
  - intros dist [H0 Hh] ->. rewrite bool_decide_eq_true.
    by apply quarter_below_threshold.
Qed.

Lemma isPixelInTriangle_half_pixel_tolerance_witness :
  (isPixelInTriangle barycentric_distance small_triangle (mkPixel 0 1)).1 = true.
Proof.
  apply (isPixelInTriangle_half_pixel_tolerance
           barycentric_distance small_triangle (mkPixel 0 1)).
  apply Qc_is_canon. reflexivity.
Defined.

(** ** Loops *)

Lemma for_range_ind {S} (body : Z → S → option S) (P : Z → S → Prop) lo hi s :
  lo <= hi →
  P lo s →
  (∀ i s, lo <= i < hi → P i s → ∃ s', body i s = Some s' ∧ P (i + 1) s') →
  ∃ s', for_range lo hi body s = Some s' ∧ P hi s'.
Proof.
  intros Hle HP Hstep. unfold for_range.
  remember (Z.to_nat (hi - lo)) as n eqn:Hn.
  revert lo s Hle HP Hstep Hn. induction n as [|n IH]; intros lo s Hle HP Hstep Hn.
  - assert (hi = lo) as -> by lia. rewrite Z.sub_diag. simpl. eauto.
  - rewrite seqZ_cons by lia. simpl.
    destruct (Hstep lo s) as (s' & -> & HP'); [lia|done|]. simpl.
    replace (Z.pred (hi - lo)) with (hi - Z.succ lo) by lia.
    apply IH; [lia| by replace (Z.succ lo) with (lo + 1) by lia | | lia].
    intros i s0 ? ?. apply Hstep; [lia|done].
Qed.


Lemma texel_lookup (c : list Z) j :
  0 <= j < Z.of_nat (length c) → vec_at c j = Some (texel c j).
Proof.
  intros Hj. destruct (vec_at_lt c j Hj) as [x Hx]. unfold texel. by rewrite Hx.
Qed.

Lemma texel_outside (c : list Z) j :
  ¬ (0 <= j < Z.of_nat (length c)) → texel c j = 0.
Proof.
  intros Hj. unfold texel, vec_at. case_decide; [|done].
  rewrite lookup_ge_None_2; [done|lia].
Qed.

Lemma texel_insert (c : list Z) i v j :
  0 <= i < Z.of_nat (length c) →
  texel (<[Z.to_nat i := v]> c) j = if decide (j = i) then v else texel c j.
Proof.
  intros Hi. unfold texel, vec_at. case_decide as Hj.
  - case_decide as Hji.
    + subst. rewrite list_lookup_insert_eq; [done|lia].
    + rewrite list_lookup_insert_ne; [done|lia].
  - rewrite decide_False by lia. done.
Qed.

Lemma texel_pos_in_range (c : list Z) j :
  0 < texel c j → 0 <= j < Z.of_nat (length c).
Proof.
  intros Hp. destruct (decide (0 <= j < Z.of_nat (length c))); [done|].
  rewrite texel_outside in Hp; [lia|done].
Qed.

(** ** Edge padding *)

Section EdgePadding.

Variable side : Z.
Hypothesis side_min : 2 <= side.
Hypothesis size_int : side * side <= 2 ^ 31.

Lemma interior_coords j :
  interior side j ↔ ∃ y x, 1 <= y <= side - 2 ∧ 1 <= x <= side - 2 ∧ j = y * side + x.
Proof.
  unfold interior. split.
  - intros [Hx Hy]. exists (j / side), (j mod side). repeat split; try lia.
    rewrite (Z.mul_comm _ side). apply Z.div_mod. lia.
  - intros (y & x & Hy & Hx & ->).
    rewrite (Z.add_comm (y * side)), Z_mod_plus_full, Z.mod_small by lia.
    rewrite (Z.add_comm x).
    rewrite Z.div_add_l, Z.div_small by lia. lia.
Qed.

Lemma interior_bounds j : interior side j → side + 1 <= j ∧ j + side + 1 < side * side.
Proof. rewrite interior_coords. intros (y & x & Hy & Hx & ->). nia. Qed.

Lemma first_valid_neighbor_Some c i n :
  first_valid_neighbor side c i = Some n → neighbor side i n ∧ 0 < texel c n.
Proof.
  unfold first_valid_neighbor, neighbor.
  repeat case_decide; intros; simplify_eq; auto.
Qed.

Lemma first_valid_neighbor_None c i n :
  first_valid_neighbor side c i = None → neighbor side i n → texel c n <= 0.
Proof.
  unfold first_valid_neighbor, neighbor.
  repeat case_decide; intros; simplify_eq. intuition (subst; lia).
Qed.

(** The scan never turns an id positive nor a positive id into another. *)
Lemma scan_value_pos c i :
  interior side i → (0 < scan_value side c i ↔ 0 < texel c i).
Proof.
  intros Hi. unfold scan_value. case_decide; [done|].
  destruct (first_valid_neighbor side c i) as [n|] eqn:Hn; [|done].
  apply first_valid_neighbor_Some in Hn as [Hn _].
  apply interior_bounds in Hi. unfold neighbor in Hn. lia.
Qed.

(** [scan_value] reads the id of the texel and the signs of its
    neighbors. *)
Lemma scan_value_ext c c' i :
  texel c' i = texel c i →
  (∀ n, neighbor side i n → (0 < texel c' n ↔ 0 < texel c n)) →
  scan_value side c' i = scan_value side c i.
Proof.
  intros Hi Hn. unfold scan_value, first_valid_neighbor. rewrite Hi.
  pose proof (Hn (i - 1)). pose proof (Hn (i + 1)).
  pose proof (Hn (i + side)). pose proof (Hn (i - side)).
  unfold neighbor in *.
  repeat case_decide; try done; exfalso; intuition lia.
Qed.

Lemma padCell_spec c i :
  Z.of_nat (length c) = side * side → interior side i →
  padCell side i c = Some (<[Z.to_nat i := scan_value side c i]> c).
Proof.
  intros Hlen Hi. pose proof (interior_bounds i Hi) as Hb.
  assert (∀ j v, 0 <= j < side * side →
            vec_set c j v = Some (<[Z.to_nat j := v]> c)) as Hset.
  { intros j v Hj. unfold vec_set. rewrite decide_True by lia. done. }
  assert (Some c = Some (<[Z.to_nat i := texel c i]> c)) as Hid.
  { f_equal. symmetry. apply list_insert_id.
    rewrite <-(texel_lookup c i) by lia. unfold vec_at. by rewrite decide_True by lia. }
  unfold padCell, scan_value, first_valid_neighbor.
  rewrite !negate_unsigned by lia.
  rewrite !u32_small by lia.
  rewrite !texel_lookup by lia. simpl.
  repeat case_decide; try done; by rewrite Hset by lia.
Qed.

Local Abbreviation scanned := (scanned side).
Local Abbreviation bounded := (bounded (side * side)).
Local Abbreviation no_zero := (no_zero (side * side)).
Local Abbreviation resolved := (resolved (side * side)).

Lemma scanned_ext c b b' c' :
  (∀ j, interior side j → (j < b ↔ j < b')) → scanned c b c' → scanned c b' c'.
Proof.
  intros Hb [Hlen Hc]. split; [done|]. intros j. rewrite Hc.
  destruct (decide (interior side j)) as [Hj|Hj].
  - specialize (Hb j Hj). repeat case_decide; try done; exfalso; intuition lia.
  - repeat case_decide; try done; exfalso; intuition lia.
Qed.

Lemma scanned_step c c' i :
  Z.of_nat (length c) = side * side → interior side i → scanned c i c' →
  ∃ c'', padCell side i c' = Some c'' ∧ scanned c (i + 1) c''.
Proof.
  intros Hlen Hi [Hlen' Hc]. pose proof (interior_bounds i Hi) as Hb.
  eexists. split; [apply padCell_spec; [congruence|done]|].
  assert (scan_value side c' i = scan_value side c i) as ->.
  { apply scan_value_ext.
    - rewrite Hc. rewrite decide_False; [done|lia].
    - intros n _. rewrite Hc. case_decide as Hn; [|done].
      apply scan_value_pos. tauto. }
  split; [by rewrite length_insert|].
  intros j. rewrite texel_insert by lia. rewrite Hc.
  destruct (decide (j = i)) as [->|Hji].
  - rewrite decide_True; [done|]. split; [done|lia].
  - repeat case_decide; try done; exfalso; intuition lia.
Qed.

Lemma padScan_spec c :
  Z.of_nat (length c) = side * side →
  ∃ cs, padScan side c = Some cs ∧ length cs = length c ∧
    ∀ j, texel cs j = if decide (interior side j) then scan_value side c j else texel c j.
Proof.
  intros Hlen. unfold padScan. rewrite u32_small by lia.
  destruct (for_range_ind
    (λ y ids, for_range 1 (side - 1)
       (λ x ids0, padCell side (u32 (u32 (y * side) + x)) ids0) ids)
    (λ y c', scanned c (y * side + 1) c') 1 (side - 1) c) as (cs & Hcs & Hinv).
  - lia.
  - split; [done|]. intros j. rewrite decide_False; [done|].
    intros [Hj ?]. apply interior_bounds in Hj. lia.
  - intros y c' Hy Hinv.
    destruct (for_range_ind
      (λ x ids0, padCell side (u32 (u32 (y * side) + x)) ids0)
      (λ x c'', scanned c (y * side + x) c'') 1 (side - 1) c') as (c'' & Hc'' & Hinv'').
    + lia.
    + done.
    + intros x c'' Hx Hinv'.
      rewrite (u32_small (y * side)) by nia. rewrite u32_small by nia.
      replace (y * side + (x + 1)) with (y * side + x + 1) by lia.
      apply scanned_step; [done| |done].
      apply interior_coords. exists y, x. lia.
    + exists c''. split; [done|]. revert Hinv''. apply scanned_ext.
      intros j. rewrite interior_coords. intros (y' & x' & ? & ? & ->).
      assert (y' <= y ∨ y + 1 <= y') as [?|?] by lia; split; intros; nia.
  - exists cs. split; [done|]. destruct Hinv as [Hl Hinv]. split; [done|].
    intros j. rewrite Hinv. destruct (decide (interior side j)) as [Hj|Hj].
    + rewrite decide_True; [done|]. split; [done|].
      revert Hj. rewrite interior_coords. intros (y' & x' & ? & ? & ->). nia.
    + rewrite decide_False; [done|tauto].
Qed.


Lemma resolved_step cs c' i :
  Z.of_nat (length cs) = side * side → 0 <= i < side * side → resolved cs i c' →
  ∃ c'', resolveCell i c' = Some c'' ∧ resolved cs (i + 1) c''.
Proof.
  intros Hlen Hi (Hlen' & Hb & Hz & HA & HB & HC).
  unfold resolveCell. rewrite texel_lookup by lia. simpl.
  case_decide as Hneg.
  - pose proof (Hb i). rewrite decide_False by lia.
    rewrite texel_lookup by lia. simpl.
    unfold vec_set. rewrite decide_True by lia.
    eexists. split; [done|].
    assert (texel c' i = texel cs i) as Hci by (apply HC; lia).
    split_and!.
    + by rewrite length_insert.
    + intros j. rewrite texel_insert by lia. case_decide; apply Hb.
    + intros j Hj. rewrite texel_insert by lia. case_decide; [|by apply Hz].
      intros Hnew. apply Hz in Hnew; lia.
    + intros j Hj. rewrite texel_insert by lia. case_decide; [subst; lia|by apply HA].
    + intros j Hj Hn Hp. rewrite texel_insert by lia. case_decide as Hji.
      * subst j. rewrite Hci.
        replace (texel cs i * -1) with (- texel cs i) by lia.
        apply HA. lia.
      * apply HB; [lia|done|done].
    + intros j Hj. rewrite texel_insert by lia. rewrite decide_False by lia.
      apply HC. lia.
  - eexists. split; [done|]. split_and!; try done.
    + intros j Hj Hn Hp. destruct (decide (j = i)) as [->|Hji].
      * rewrite HC in Hneg by lia. lia.
      * apply HB; [lia|done|done].
    + intros j Hj. apply HC. lia.
Qed.

Lemma padResolve_spec cs :
  Z.of_nat (length cs) = side * side → bounded cs → no_zero cs →
  ∃ cr, padResolve (side * side) cs = Some cr ∧ resolved cs (side * side) cr.
Proof.
  intros Hlen Hb Hz. unfold padResolve.
  apply (for_range_ind resolveCell (λ i c', resolved cs i c')); [lia| |].
  - split_and!; try done.
    intros j Hj Hn. rewrite texel_outside in Hn; lia.
  - intros i c' Hi Hinv. apply resolved_step; [done|lia|done].
Qed.

(** One round: positive ids stay; an interior texel without a positive id
    and with a neighbor that has one gets the negated index of the first
    such neighbor from the scan, and that neighbor's id from the
    resolution. *)
Lemma padRound_spec c :
  Z.of_nat (length c) = side * side → bounded c → no_zero c →
  ∃ cs cr, padScan side c = Some cs ∧ padResolve (side * side) cs = Some cr ∧
    padRound side (side * side) c = Some cr ∧
    length cr = length c ∧ bounded cr ∧ no_zero cr ∧
    (∀ j, 0 <= texel c j → texel cr j = texel c j) ∧
    (∀ i n, interior side i → texel c i <= 0 → first_valid_neighbor side c i = Some n →
            texel cs i = - n ∧ texel cr i = texel c n).
Proof.
  intros Hlen Hb Hz.
  destruct (padScan_spec c Hlen) as (cs & Hscan & Hlens & Hcs).
  assert (∀ j, 0 < texel c j → texel cs j = texel c j) as Hpos.
  { intros j Hj. rewrite Hcs. case_decide; [|done].
    unfold scan_value. by rewrite decide_True. }
  assert (∀ j, 0 <= texel c j → texel cs j = texel c j) as Hnonneg.
  { intros j Hj. destruct (decide (texel c j = 0)) as [H0|H0]; [|apply Hpos; lia].
    rewrite Hcs. rewrite decide_False; [done|].
    intros Hi. pose proof (interior_bounds j Hi). apply Hz in H0; lia. }
  assert (bounded cs) as Hbs.
  { intros j. rewrite Hcs. case_decide as Hi; [|apply Hb].
    unfold scan_value. case_decide; [apply Hb|].
    destruct (first_valid_neighbor side c j) as [n|] eqn:Hn; [|apply Hb].
    apply first_valid_neighbor_Some in Hn as [_ Hn].
    apply texel_pos_in_range in Hn. lia. }
  assert (no_zero cs) as Hzs.
  { intros j Hj. rewrite Hcs. case_decide as Hi; [|by apply Hz].
    unfold scan_value. case_decide; [lia|].
    destruct (first_valid_neighbor side c j) as [n|] eqn:Hn; [|by apply Hz].
    apply first_valid_neighbor_Some in Hn as [Hn _].
    apply interior_bounds in Hi. unfold neighbor in Hn. lia. }
  destruct (padResolve_spec cs) as (cr & Hres & Hlenr & Hbr & Hzr & HA & HB & _);
    [congruence|done|done|].
  exists cs, cr. split_and!; try done.
  - unfold padRound. rewrite Hscan. simpl. done.
  - congruence.
  - intros j Hj. rewrite HA; rewrite Hnonneg; done.
  - intros i n Hi Hle Hn.
    assert (texel cs i = - n) as Hsi.
    { rewrite Hcs, decide_True by done. unfold scan_value.
      rewrite decide_False by lia. by rewrite Hn. }
    split; [done|].
    apply first_valid_neighbor_Some in Hn as [Hnb Hn].
    pose proof (interior_bounds i Hi). pose proof (texel_pos_in_range _ _ Hn).
    assert (0 < n) by (unfold neighbor in Hnb; lia).
    rewrite HB; rewrite ?Hsi, ?Z.opp_involutive, ?Hpos; try done; lia.
Qed.

Lemma rasterized_padding_state c :
  rasterized (side * side) c → padding_state (side * side) c.
Proof.
  intros [Hlen Hc]. split_and!; [done| |].
  - intros j. destruct (decide (0 <= j < side * side)) as [Hj|Hj].
    + destruct (Hc j Hj); nia.
    + rewrite texel_outside by lia. nia.
  - intros j Hj H0. destruct (decide (j < side * side)); [|lia].
    destruct (Hc j); lia.
Qed.

Lemma padRound_state c :
  padding_state (side * side) c →
  ∃ cr, padRound side (side * side) c = Some cr ∧ padding_state (side * side) cr ∧
    (∀ j, 0 <= texel c j → texel cr j = texel c j) ∧
    (∀ i j, interior side i → neighbor side i j → 0 < texel c j → 0 <= texel cr i).
Proof.
  intros (Hlen & Hb & Hz).
  destruct (padRound_spec c Hlen Hb Hz)
    as (cs & cr & _ & _ & Hr & Hlenr & Hbr & Hzr & Hkeep & Hfill).
  exists cr. split; [done|]. split; [split_and!; [by rewrite Hlenr|done|done]|].
  split; [done|].
  intros i j Hi Hn Hj.
  destruct (decide (0 <= texel c i)) as [Hci|Hci]; [by rewrite Hkeep|].
  destruct (first_valid_neighbor side c i) as [n|] eqn:Hfirst.
  - destruct (Hfill i n) as [_ ->]; [done|lia|done|].
    apply first_valid_neighbor_Some in Hfirst. lia.
  - pose proof (first_valid_neighbor_None c i j Hfirst Hn). lia.
Qed.

Lemma padRounds_spec c k :
  0 <= k → padding_state (side * side) c →
  ∃ c', for_range 0 k (λ _ ids, padRound side (side * side) ids) c = Some c' ∧
    padding_state (side * side) c' ∧
    (∀ j, 0 <= texel c j → texel c' j = texel c j) ∧
    (∀ i, within side c (Z.to_nat k) i → 0 <= texel c' i).
Proof.
  intros Hk Hst.
  apply (for_range_ind (λ _ ids, padRound side (side * side) ids)
           (λ g c', padding_state (side * side) c' ∧
                    (∀ j, 0 <= texel c j → texel c' j = texel c j) ∧
                    (∀ i, within side c (Z.to_nat g) i → 0 <= texel c' i))); [done| |].
  - split_and!; [done|done|]. intros i [_ Hi]. done.
  - intros g c' Hg (Hst' & Hkeep & Hin).
    destruct (padRound_state c' Hst') as (cr & Hr & Hstr & Hkeepr & Hfill).
    exists cr. split; [done|]. split_and!; [done| |].
    + intros j Hj. rewrite Hkeepr; rewrite Hkeep; done.
    + intros i. replace (Z.to_nat (g + 1)) with (S (Z.to_nat g)) by lia. simpl.
      intros [Hi|(Hi & j & Hn & Hj)].
      * apply Hin in Hi. by rewrite Hkeepr.
      * apply Hin in Hj. pose proof (interior_bounds i Hi).
        destruct Hst' as (_ & _ & Hz).
        apply (Hfill i j); [done|done|].
        destruct (decide (texel c' j = 0)) as [H0|H0]; [|lia].
        apply Hz in H0; unfold neighbor in Hn; lia.
Qed.

End EdgePadding.

Lemma edgePadding_spec tp c :
  2 <= textureSide tp → textureSide tp * textureSide tp <= 2 ^ 31 →
  0 <= padding tp →
  padding_state (textureSide tp * textureSide tp) c →
  ∃ c', edgePadding tp (textureSide tp * textureSide tp) c = Some c' ∧
    padding_state (textureSide tp * textureSide tp) c' ∧
    (∀ j, 0 <= texel c j → texel c' j = texel c j) ∧
    (fillHoles tp = false →
     ∀ i, within (textureSide tp) c (Z.to_nat (padding tp)) i → 0 <= texel c' i).
Proof.
  intros Hside Hsize Hpad Hst. unfold edgePadding.
  destruct (fillHoles tp); simpl.
  { exists c. split_and!; done. }
  case_bool_decide as Hp.
  - destruct (padRounds_spec (textureSide tp) Hside Hsize c (padding tp))
      as (c' & Hc' & Hst' & Hkeep & Hin); [done|done|].
    exists c'. split_and!; done.
  - assert (padding tp = 0) as -> by lia.
    exists c. split_and!; try done. intros _ i [_ Hi]. done.
Qed.

(** C7 (amended). After the edge padding of width [padding] (hole filling
    disabled, [padding > 0]), every texel linked to a texel holding a color
    id by at most [padding] steps between 4-neighbors, each step arriving at
    an interior texel, holds a color id; and in every round an interior texel
    without a positive id gets, from the scan, the negated index of its first
    neighbor with a positive id in the order left, right, [+ textureSide],
    [- textureSide], which the resolution pass replaces with that neighbor's
    color id. Texels of the outermost border are never scanned. *)
Theorem edgePadding_dilates_interior tp c :
  2 <= textureSide tp → textureSide tp * textureSide tp <= 2 ^ 31 →
  fillHoles tp = false → 0 < padding tp →
  rasterized (textureSide tp * textureSide tp) c →
  (∃ c', edgePadding tp (textureSide tp * textureSide tp) c = Some c' ∧
     ∀ i, within (textureSide tp) c (Z.to_nat (padding tp)) i → 0 <= texel c' i) ∧
  (∀ ids, padding_state (textureSide tp * textureSide tp) ids →
     ∃ cs cr, padScan (textureSide tp) ids = Some cs ∧
       padResolve (textureSide tp * textureSide tp) cs = Some cr ∧
       padRound (textureSide tp) (textureSide tp * textureSide tp) ids = Some cr ∧
       padding_state (textureSide tp * textureSide tp) cr ∧
       ∀ i n, interior (textureSide tp) i → texel ids i <= 0 →
         first_valid_neighbor (textureSide tp) ids i = Some n →
         neighbor (textureSide tp) i n ∧ texel cs i = - n ∧ texel cr i = texel ids n).
Proof.
  intros Hside Hsize Hfill Hpad Hc. split.
  - destruct (edgePadding_spec tp c) as (c' & Hc' & _ & _ & Hin); try done; [lia| |].
    + by apply rasterized_padding_state.
    + exists c'. auto.
  - intros ids (Hlen & Hb & Hz).
    destruct (padRound_spec (textureSide tp) Hside Hsize ids Hlen Hb Hz)
      as (cs & cr & Hs & Hr & Hround & Hlenr & Hbr & Hzr & _ & Hfirst).
    exists cs, cr. split; [done|]. split; [done|]. split; [done|].
    split; [split_and!; [by rewrite Hlenr|done|done]|].
    intros i n Hi Hle Hn. destruct (Hfirst i n Hi Hle Hn) as [? ?].
    apply first_valid_neighbor_Some in Hn as [? _]. done.
Qed.

Lemma rasterized_ids_left_sampled : rasterized 9 ids_left_sampled.
Proof.
  split; [reflexivity|]. intros j Hj.
  assert (j = 0 ∨ j = 1 ∨ j = 2 ∨ j = 3 ∨ j = 4 ∨ j = 5 ∨ j = 6 ∨ j = 7 ∨ j = 8)
    as Hcases by lia.
  repeat (destruct Hcases as [->|Hcases]); try subst j; vm_compute; auto.
Defined.

Lemma edgePadding_dilates_interior_witness :
  ∃ c', edgePadding params_3 9 ids_left_sampled = Some c' ∧
    ∀ i, within 3 ids_left_sampled 1 i → 0 <= texel c' i.
Proof.
  apply (edgePadding_dilates_interior params_3 ids_left_sampled).
  - simpl. lia.
  - simpl. lia.
  - reflexivity.
  - simpl. lia.
  - exact rasterized_ids_left_sampled.
Defined.

Lemma rasterized_ids_center_sampled : rasterized 9 ids_center_sampled.
Proof.
  split; [reflexivity|]. intros j Hj.
  assert (j = 0 ∨ j = 1 ∨ j = 2 ∨ j = 3 ∨ j = 4 ∨ j = 5 ∨ j = 6 ∨ j = 7 ∨ j = 8)
    as Hcases by lia.
  repeat (destruct Hcases as [->|Hcases]); try subst j; vm_compute; auto.
Qed.

(** C7, as stated, fails on the border: the texel 1 (column 1, row 0) is a
    4-neighbor of the center texel 4, which holds a sample, and the padding
    width is 1; yet after the edge padding the texel 1 is still empty. *)
Lemma edgePadding_skips_border_texel :
  rasterized 9 ids_center_sampled ∧
  texel ids_center_sampled 4 = 4 ∧
  1 = 4 - textureSide params_3 ∧
  1 <= padding params_3 ∧
  edgePadding params_3 9 ids_center_sampled = Some ids_center_sampled ∧
  texel ids_center_sampled 1 = -1.
Proof.
  split; [exact rasterized_ids_center_sampled|].
  split; [reflexivity|]. split; [reflexivity|]. split; [done|].
  split; reflexivity.
Qed.

(** ** The rounds of the edge padding, exactly *)

Section PaddingRounds.

Variable side : Z.
Hypothesis side_min : 2 <= side.
Hypothesis size_int : side * side <= 2 ^ 31.

Lemma texel_neg_in_range (c : list Z) j :
  texel c j < 0 → 0 <= j < Z.of_nat (length c).
Proof.
  intros Hn. destruct (decide (0 <= j < Z.of_nat (length c))); [done|].
  rewrite texel_outside in Hn; [lia|done].
Qed.

Lemma border_texel_1 : ¬ interior side 1.
Proof.
  intros H. apply (interior_bounds side side_min size_int) in H. lia.
Qed.

(** The resolution pass, on ids whose back-references point to texels that
    it leaves as they are. *)
Lemma padResolve_exact cs :
  Z.of_nat (length cs) = side * side →
  (∀ j, texel cs j < 0 →
     0 <= - texel cs j < side * side ∧
     (0 <= texel cs (- texel cs j) ∨
      texel cs (- texel cs (- texel cs j)) = texel cs (- texel cs j))) →
  ∃ cr, padResolve (side * side) cs = Some cr ∧ length cr = length cs ∧
    ∀ j, texel cr j = if decide (texel cs j < 0) then texel cs (- texel cs j)
                      else texel cs j.
Proof.
  intros Hlen Hpre. unfold padResolve.
  destruct (for_range_ind resolveCell
    (λ i c', length c' = length cs ∧
       ∀ j, texel c' j = if decide (j < i ∧ texel cs j < 0) then texel cs (- texel cs j)
                         else texel cs j) 0 (side * side) cs) as (cr & Hcr & Hl & Hinv).
  - lia.
  - split; [done|]. intros j. case_decide as Hj; [|done].
    destruct Hj as [Hj Hn]. apply texel_neg_in_range in Hn. lia.
  - intros i c' Hi [Hl Hinv].
    unfold resolveCell. rewrite texel_lookup by lia. simpl.
    assert (texel c' i = texel cs i) as Hci.
    { rewrite Hinv. rewrite decide_False; [done|lia]. }
    rewrite Hci. case_decide as Hneg.
    + destruct (Hpre i Hneg) as [Ht Hfix].
      rewrite decide_False by lia.
      replace (texel cs i * -1) with (- texel cs i) by lia.
      rewrite texel_lookup by lia. simpl.
      unfold vec_set. rewrite decide_True by lia.
      eexists. split; [done|]. split; [by rewrite length_insert|].
      intros j. rewrite texel_insert by lia.
      destruct (decide (j = i)) as [->|Hji].
      * rewrite decide_True by lia. rewrite Hinv.
        case_decide as Hd; [|done]. destruct Hfix as [Hfix|Hfix]; [lia|done].
      * rewrite Hinv. repeat case_decide; try done; exfalso; intuition lia.
    + eexists. split; [done|]. split; [done|].
      intros j. rewrite Hinv.
      destruct (decide (j = i)) as [->|];
        repeat case_decide; try done; exfalso; intuition lia.
  - exists cr. split; [done|]. split; [done|].
    intros j. rewrite Hinv. repeat case_decide; try done; exfalso.
    + intuition lia.
    + assert (0 <= j < Z.of_nat (length cs)) by (apply texel_neg_in_range; lia).
      intuition lia.
Qed.

Lemma padRound_exact c :
  color_ids (side * side) c →
  ∃ cr, padRound side (side * side) c = Some cr ∧ color_ids (side * side) cr ∧
    ∀ j, 0 <= j < side * side → texel cr j = round_value side c j.
Proof.
  intros [Hlen Hc].
  destruct (padScan_spec side side_min size_int c Hlen) as (cs & Hscan & Hlens & Hcs).
  assert (H1 : texel cs 1 = texel c 1).
  { rewrite Hcs. rewrite decide_False; [done|apply border_texel_1]. }
  assert (Hc1 : texel c 1 = -1 ∨ 0 < texel c 1 < side * side).
  { destruct (Hc 1) as [?|[?|[? _]]]; [nia|auto|auto|lia]. }
  assert (Hpos : ∀ j, 0 < texel c j → texel cs j = texel c j).
  { intros j Hj. rewrite Hcs. case_decide; [|done].
    unfold scan_value. by rewrite decide_True. }
  assert (Hval : ∀ j, 0 <= j < side * side →
            texel cs j =
            if decide (0 <= texel c j) then texel c j
            else match (if decide (interior side j) then first_valid_neighbor side c j
                        else None) with
                 | Some n => - n
                 | None => -1
                 end).
  { intros j Hj. rewrite Hcs. destruct (Hc j Hj) as [Hv|[Hv|[-> Hv]]].
    - rewrite (decide_False (P := 0 <= texel c j)) by lia. case_decide; [|done].
      unfold scan_value. rewrite decide_False by lia.
      destruct (first_valid_neighbor side c j); done.
    - rewrite (decide_True (P := 0 <= texel c j)) by lia. case_decide; [|done].
      unfold scan_value. by rewrite decide_True by lia.
    - rewrite (decide_True (P := 0 <= texel c 0)) by lia. rewrite decide_False; [done|].
      intros Hi. apply (interior_bounds side side_min size_int) in Hi. lia. }
  assert (Htarget : ∀ j, texel cs j < 0 →
            0 <= j < side * side ∧ 0 < - texel cs j < side * side ∧
            texel cs (- texel cs j) = texel c (- texel cs j) ∧
            (texel c (- texel cs j) = -1 → texel cs j = -1)).
  { intros j Hneg.
    assert (Hj : 0 <= j < side * side).
    { apply texel_neg_in_range in Hneg. lia. }
    split; [done|]. rewrite (Hval j Hj) in *.
    case_decide as Hnn; [lia|].
    destruct (decide (interior side j)) as [Hi|Hi].
    - destruct (first_valid_neighbor side c j) as [n|] eqn:Hn.
      + apply first_valid_neighbor_Some in Hn as [Hnb Hn].
        pose proof (texel_pos_in_range _ _ Hn).
        pose proof (interior_bounds side side_min size_int j Hi).
        rewrite Z.opp_involutive.
        split; [unfold neighbor in Hnb; lia|]. split; [by apply Hpos|lia].
      + replace (- -1) with 1 by lia. split; [lia|]. split; [done|done].
    - replace (- -1) with 1 by lia. split; [lia|]. split; [done|done]. }
  destruct (padResolve_exact cs) as (cr & Hres & Hlenr & Hcr); [congruence| |].
  { intros j Hneg. destruct (Htarget j Hneg) as (Hj & Ht & Heq & Hs).
    split; [lia|]. rewrite Heq.
    destruct (Hc (- texel cs j)) as [Hv|[Hv|[Hv _]]]; [lia| | |lia].
    - right. rewrite Hv. replace (- -1) with 1 by lia.
      rewrite H1. rewrite (Hs Hv) in Hv. by replace (- -1) with 1 in Hv by lia.
    - left. lia. }
  exists cr. split; [unfold padRound; rewrite Hscan; done|].
  assert (Hround : ∀ j, 0 <= j < side * side → texel cr j = round_value side c j).
  { intros j Hj. rewrite Hcr. unfold round_value.
    case_decide as Hneg.
    - destruct (Htarget j Hneg) as (_ & _ & -> & _).
      rewrite (Hval j Hj) in *.
      case_decide; [lia|].
      destruct (if decide (interior side j) then first_valid_neighbor side c j else None);
        [by rewrite Z.opp_involutive|done].
    - rewrite (Hval j Hj) in *.
      case_decide; [done|]. exfalso.
      destruct (decide (interior side j)) as [Hi|Hi]; [|lia].
      destruct (first_valid_neighbor side c j) as [n|] eqn:Hn; [|lia].
      apply first_valid_neighbor_Some in Hn as [Hnb _].
      pose proof (interior_bounds side side_min size_int j Hi).
      unfold neighbor in Hnb. lia. }
  split; [|done].
  split; [lia|]. intros j Hj. rewrite (Hround j Hj). unfold round_value.
  case_decide; [apply (Hc j Hj)|].
  destruct (decide (interior side j)) as [Hi|Hi].
  - destruct (first_valid_neighbor side c j) as [n|] eqn:Hn.
    + apply first_valid_neighbor_Some in Hn as [_ Hn].
      pose proof (texel_pos_in_range _ _ Hn).
      destruct (Hc n) as [?|[?|[? ?]]]; [lia|lia|auto|lia].
    + destruct Hc1; auto.
  - destruct Hc1; auto.
Qed.

Lemma rasterized_color_ids c : rasterized (side * side) c → color_ids (side * side) c.
Proof.
  intros [Hlen Hc]. split; [done|]. intros j Hj.
  destruct (Hc j Hj) as [?|Hv]; [auto|].
  destruct (decide (j = 0)) as [->|]; [right; right; done|right; left; lia].
Qed.


(** The invariants of the rounds, started from the color ids [c]. *)
Lemma padRounds_exact c k :
  0 <= k → color_ids (side * side) c →
  ∃ c', for_range 0 k (λ _ ids, padRound side (side * side) ids) c = Some c' ∧
    color_ids (side * side) c' ∧
    (∀ j, 0 <= texel c j → texel c' j = texel c j) ∧
    (∀ j, 0 <= j < side * side →
       texel c' j = -1 ∨
       ∃ i, 0 <= i < side * side ∧ 0 <= texel c i ∧ texel c' j = texel c i) ∧
    (texel c 1 = -1 →
       ∀ i, 0 <= i < side * side → 0 <= texel c' i → within side c (Z.to_nat k) i) ∧
    (0 < texel c 1 → 0 < k →
       ∀ j, 0 <= j < side * side →
         0 <= texel c' j ∧
         (texel c j = -1 → ¬ interior side j → texel c' j = texel c 1)).
Proof.
  intros Hk Hc.
  destruct (for_range_ind (λ _ ids, padRound side (side * side) ids)
    (λ g c', color_ids (side * side) c' ∧
       (∀ j, 0 <= texel c j → texel c' j = texel c j) ∧
       (∀ j, 0 <= j < side * side →
          texel c' j = -1 ∨
          ∃ i, 0 <= i < side * side ∧ 0 <= texel c i ∧ texel c' j = texel c i) ∧
       (texel c 1 = -1 →
          texel c' 1 = -1 ∧
          ∀ i, 0 <= i < side * side → 0 <= texel c' i → within side c (Z.to_nat g) i) ∧
       (0 < texel c 1 →
          (g = 0 ∧ c' = c) ∨
          (0 < g ∧ ∀ j, 0 <= j < side * side →
             0 <= texel c' j ∧
             (texel c j = -1 → ¬ interior side j → texel c' j = texel c 1))))
    0 k c) as (c' & Hrun & Hc' & Hkeep & Hfrom & Hreach & Hflood).
  - done.
  - split; [done|]. split; [done|]. split; [|split].
    + intros j Hj. destruct Hc as [_ Hc]. destruct (Hc j Hj) as [?|[?|[? ?]]]; [auto| |].
      * right. exists j. split; [done|]. split; [lia|done].
      * right. exists j. split; [done|]. split; [lia|done].
    + intros H1. split; [done|]. intros i Hi Hnn. simpl. destruct Hc as [Hlen _].
      split; [lia|done].
    + intros _. by left.
  - intros g c' Hg (Hc' & Hkeep & Hfrom & Hreach & Hflood).
    destruct (padRound_exact c' Hc') as (cr & Hr & Hcr & Hval).
    exists cr. split; [done|]. split; [done|].
    pose proof Hc as [Hlen Hcv]. pose proof Hc' as [Hlen' Hcv'].
    assert (H1r : 0 <= 1 < side * side) by nia.
    split; [|split; [|split]].
    + intros j Hj.
      destruct (decide (0 <= j < side * side)) as [Hjr|Hjr].
      2:{ destruct Hcr as [Hlenr _].
          rewrite (texel_outside cr), (texel_outside c); [done|lia|lia]. }
      rewrite (Hval j Hjr). unfold round_value.
      rewrite decide_True by (rewrite Hkeep; done). by apply Hkeep.
    + intros j Hj. rewrite (Hval j Hj). unfold round_value.
      case_decide; [by apply Hfrom|].
      destruct (if decide (interior side j) then first_valid_neighbor side c' j else None)
        as [n|] eqn:Hn; [|by apply Hfrom].
      apply Hfrom. case_decide; [|done].
      apply first_valid_neighbor_Some in Hn as [_ Hn].
      apply texel_pos_in_range in Hn. lia.
    + intros H1. destruct (Hreach H1) as [H1' Hin]. split.
      * rewrite (Hval 1 H1r). unfold round_value.
        rewrite decide_False by lia.
        rewrite decide_False by apply border_texel_1. done.
      * intros i Hi. rewrite (Hval i Hi). unfold round_value.
        replace (Z.to_nat (g + 1)) with (S (Z.to_nat g)) by lia. simpl.
        case_decide as Hnn; [intros _; left; by apply Hin|].
        destruct (decide (interior side i)) as [Hint|Hint]; [|lia].
        destruct (first_valid_neighbor side c' i) as [n|] eqn:Hn; [|lia].
        intros _. right. split; [done|]. exists n.
        apply first_valid_neighbor_Some in Hn as [Hnb Hn].
        split; [done|]. apply Hin; [|lia].
        apply texel_pos_in_range in Hn. lia.
    + intros H1. right. split; [lia|]. intros j Hj.
      rewrite (Hval j Hj). unfold round_value.
      destruct (Hflood H1) as [[-> ->]|[Hg1 Hall]].
      * case_decide as Hnn.
        { split; [done|]. intros; lia. }
        destruct (decide (interior side j)) as [Hint|Hint].
        -- destruct (first_valid_neighbor side c j) as [n|] eqn:Hn.
           ++ apply first_valid_neighbor_Some in Hn as [_ Hn]. split; [lia|done].
           ++ split; [lia|done].
        -- split; [lia|done].
      * destruct (Hall j Hj) as [Hnn Hb].
        rewrite decide_True by done. done.
  - exists c'. split; [done|]. split; [done|]. split; [done|]. split; [done|].
    split.
    + intros H1. by apply Hreach.
    + intros H1 Hk0. destruct (Hflood H1) as [[-> _]|[_ Hall]]; [lia|done].
Qed.

End PaddingRounds.

(** The ids the edge padding leaves, on the ids of a rasterization. *)
Lemma edgePadding_sampled_ids tp c :
  2 <= textureSide tp → textureSide tp * textureSide tp <= 2 ^ 31 →
  rasterized (textureSide tp * textureSide tp) c →
  ∃ c', edgePadding tp (textureSide tp * textureSide tp) c = Some c' ∧
    length c' = length c ∧
    ∀ j, 0 <= j < textureSide tp * textureSide tp →
      (texel c j = j → texel c' j = j) ∧
      (texel c' j = -1 ∨
       (0 <= texel c' j < textureSide tp * textureSide tp ∧
        texel c (texel c' j) = texel c' j)).
Proof.
  intros Hside Hsize Hc.
  assert (Hsame : ∀ j, 0 <= j < textureSide tp * textureSide tp →
            (texel c j = j → texel c j = j) ∧
            (texel c j = -1 ∨
             (0 <= texel c j < textureSide tp * textureSide tp ∧
              texel c (texel c j) = texel c j))).
  { intros j Hj. split; [done|]. destruct Hc as [_ Hc].
    destruct (Hc j Hj) as [?|Hv]; [by left|right]. rewrite !Hv. split; [lia|done]. }
  unfold edgePadding.
  destruct (fillHoles tp); simpl; [by exists c|].
  case_bool_decide as Hp; [|by exists c].
  destruct (padRounds_exact (textureSide tp) Hside Hsize c (padding tp))
    as (c' & Hrun & [Hlen' _] & Hkeep & Hfrom & _); [lia|by apply rasterized_color_ids|].
  exists c'. split; [done|]. destruct Hc as [Hlen Hc]. split; [lia|].
  intros j Hj. split.
  - intros Hv. rewrite Hkeep; [done|lia].
  - destruct (Hfrom j Hj) as [?|(i & Hi & Hnn & ->)]; [by left|right].
    destruct (Hc i Hi) as [?|Hv]; [lia|]. rewrite !Hv. split; [lia|done].
Qed.

(** ** loadFromMeshing and the mesh guard of generateUVs *)

(** C9. Once the mesh file is loaded, [loadFromMeshing] throws the
    size-mismatch error exactly when the visibility array read does not have
    one entry per point of the mesh; when the counts agree it returns, and
    the mesh and the visibilities read are the state of the pipeline. *)
Theorem loadFromMeshing_size_mismatch
    (Mesh_loadFromBin : string → bool * Mesh)
    (loadArrayOfArraysFromFile : string → PointsVisibility)
    (t : Texturing) (meshFilepath visibilitiesFilepath : string) :
  let mesh := (Mesh_loadFromBin meshFilepath).2 in
  let vis := loadArrayOfArraysFromFile visibilitiesFilepath in
  let r := loadFromMeshing Mesh_loadFromBin loadArrayOfArraysFromFile t
             meshFilepath visibilitiesFilepath in
  (Mesh_loadFromBin meshFilepath).1 = true →
  ((∃ t', r = Throws
       "Error: Reference mesh and associated visibilities don't have the same size." t')
    ↔ length vis ≠ length (pts mesh)) ∧
  (length vis = length (pts mesh) →
   ∃ t', r = Returns t' ∧ me t' = Some mesh ∧ pointsVisibilities t' = Some vis).
Proof.
  unfold loadFromMeshing.
  destruct (Mesh_loadFromBin meshFilepath) as [loaded mesh]; simpl.
  intros ->; simpl. case_decide as Hlen.
  - split; [|done]. split; [done|]. intros _. eauto.
  - split.
    + split; [|done]. intros [t' Ht']. discriminate.
    + intros _. eexists. split; [done|]. done.
Qed.

Lemma loadFromMeshing_size_mismatch_witness :
  ∃ t', loadFromMeshing load_one_point_mesh load_one_visibility texturing_blank
          "mesh.bin" "visibilities.bin" = Returns t' ∧
        me t' = Some one_point_mesh ∧ pointsVisibilities t' = Some [None].
Proof.
  apply (loadFromMeshing_size_mismatch load_one_point_mesh load_one_visibility
           texturing_blank "mesh.bin" "visibilities.bin"); reflexivity.
Defined.

(** C8. [generateUVs] throws when no mesh is loaded, and when the loaded
    mesh has no point or no triangle; the error comes before anything is
    written: the state at the throw is the state at the call. *)
Theorem generateUVs_rejects_missing_mesh
    (getPixelFor3DPoint : Point3d → Z → Point2d) (isPixelInImage : Point2d → Z → bool)
    (packCharts : Mesh → option PointsVisibility → Z → Z → list (list Chart))
    (t : Texturing) :
  me t = None ∨ (∃ mesh, me t = Some mesh ∧ (pts mesh = [] ∨ tris mesh = [])) →
  ∃ what, generateUVs getPixelFor3DPoint isPixelInImage packCharts t = Throws what t.
Proof.
  unfold generateUVs, UVAtlas_new.
  intros [->|(mesh & -> & Hempty)]; [eauto|].
  rewrite decide_True by done. eauto.
Qed.

Lemma generateUVs_rejects_missing_mesh_witness :
  ∃ what, generateUVs flat_projection whole_plane_image pack_nothing texturing_blank
          = Throws what texturing_blank.
Proof.
  apply (generateUVs_rejects_missing_mesh flat_projection whole_plane_image pack_nothing
           texturing_blank).
  left. reflexivity.
Defined.


(** ** The rasterization as a sequence of samples *)

Lemma for_each_app {A S} (body : A → S → option S) l1 l2 s :
  for_each body (l1 ++ l2) s = for_each body l1 s ≫= for_each body l2.
Proof.
  revert s. induction l1 as [|a l1 IH]; intros s; simpl; [done|].
  destruct (body a s) as [s'|]; simpl; [apply IH|done].
Qed.

(** A loop whose steps either skip or apply a sample applies the samples of
    the steps that have one. *)
Lemma for_each_omap {A E S} (body : A → S → option S) (f : A → option E)
    (apply : E → S → option S) l s :
  (∀ a s, body a s = match f a with Some e => apply e s | None => Some s end) →
  for_each body l s = for_each apply (omap f l) s.
Proof.
  intros Hbody. revert s. induction l as [|a l IH]; intros s; simpl; [done|].
  rewrite Hbody. destruct (f a) as [e|]; simpl.
  - destruct (apply e s); simpl; [apply IH|done].
  - apply IH.
Qed.

(** A loop whose steps apply sequences of samples applies their
    concatenation. *)
Lemma for_each_samples {A E S} (body : A → S → option S) (samples : A → option (list E))
    (apply : E → S → option S) l s :
  (∀ a s, body a s = evs ← samples a; for_each apply evs s) →
  for_each body l s = evs ← mapM samples l; for_each apply (concat evs) s.
Proof.
  intros Hbody. revert s. induction l as [|a l IH]; intros s; simpl; [done|].
  rewrite Hbody. destruct (samples a) as [evs|]; simpl; [|done].
  destruct (mapM samples l) as [evss|] eqn:Hl; simpl.
  - rewrite for_each_app. destruct (for_each apply evs s) as [s'|]; simpl; [|done].
    rewrite IH. done.
  - destruct (for_each apply evs s) as [s'|]; simpl; [|done].
    rewrite IH. done.
Qed.

Lemma mapM_Some_fmap {A B} (g : A → B) (l : list A) :
  mapM (λ a, Some (g a)) l = Some (g <$> l).
Proof. induction l as [|a l IH]; simpl; [done|]. by rewrite IH. Qed.

Section Samples.

Variable getPixelFor3DPoint : Point3d → Z → Point2d.
Variable isPixelInImage : Point2d → Z → bool.
Variable getPixelValueInterpolated : Point2d → Z → Color.
Variable point_triangle_squared_distance :
  Point2d → Point2d → Point2d → Point2d → TriangleDistance.

Local Abbreviation raster_pixel :=
  (rasterPixel getPixelFor3DPoint isPixelInImage getPixelValueInterpolated
     point_triangle_squared_distance).
Local Abbreviation raster_triangle :=
  (rasterTriangle getPixelFor3DPoint isPixelInImage getPixelValueInterpolated
     point_triangle_squared_distance).
Local Abbreviation raster_cameras :=
  (rasterCameraList getPixelFor3DPoint isPixelInImage getPixelValueInterpolated
     point_triangle_squared_distance).
Local Abbreviation pixel_sample :=
  (pixelSample getPixelFor3DPoint isPixelInImage getPixelValueInterpolated
     point_triangle_squared_distance).
Local Abbreviation triangle_samples :=
  (triangleSamples getPixelFor3DPoint isPixelInImage getPixelValueInterpolated
     point_triangle_squared_distance).
Local Abbreviation texture_samples :=
  (textureSamples getPixelFor3DPoint isPixelInImage getPixelValueInterpolated
     point_triangle_squared_distance).

Lemma rasterPixel_sample tp camId triPixs triPts y x s :
  raster_pixel tp camId triPixs triPts y x s =
  match pixel_sample tp camId triPixs triPts y x with
  | Some e => applySample e s
  | None => Some s
  end.
Proof.
  unfold rasterPixel, pixelSample, applySample.
  destruct (isPixelInTriangle _ _ _) as [[] bary]; simpl; [|done].
  destruct (isPixelInImage _ _); simpl; done.
Qed.

Lemma rasterTriangle_samples t camId triangleId s :
  raster_triangle t camId triangleId s =
  evs ← triangle_samples t camId triangleId; for_each applySample evs s.
Proof.
  unfold rasterTriangle, triangleSamples.
  destruct (triangleCorners t triangleId) as [[triPixs triPts]|]; simpl; [|done].
  destruct (boundingBox (texParams t) triPixs) as [[[[LUx LUy] RDx] RDy]|]; simpl; [|done].
  unfold for_range.
  rewrite (for_each_samples _
             (λ y, Some (omap (pixel_sample (texParams t) camId triPixs triPts y)
                           (seqZ LUx (RDx - LUx)))) applySample).
  - by rewrite mapM_Some_fmap.
  - intros y s'. simpl. apply for_each_omap. intros x s''. apply rasterPixel_sample.
Qed.

Lemma for_each_camera_work {S} (body : Z → Z → S → option S) (cams : list (nat * list Z)) s :
  for_each (λ '(camId, triangles) s, for_each (body (Z.of_nat camId)) triangles s) cams s =
  for_each (λ w s, body w.1 w.2 s) (camera_work cams) s.
Proof.
  revert s. induction cams as [|[camId triangles] cams IH]; intros s; [done|].
  unfold camera_work. simpl. rewrite for_each_app.
  assert (for_each (λ w s0, body w.1 w.2 s0)
            ((λ triangleId, (Z.of_nat camId, triangleId)) <$> triangles) s =
          for_each (body (Z.of_nat camId)) triangles s) as ->.
  { clear. revert s. induction triangles as [|tr trs IH]; intros s; simpl; [done|].
    destruct (body _ tr s); simpl; [apply IH|done]. }
  destruct (for_each (body (Z.of_nat camId)) triangles s); simpl; [apply IH|done].
Qed.

Lemma rasterCameraList_samples t cams s :
  raster_cameras t cams s = evs ← texture_samples t cams; for_each applySample evs s.
Proof.
  unfold rasterCameraList, textureSamples.
  rewrite (for_each_camera_work (raster_triangle t)).
  rewrite (for_each_samples _ (λ w, triangle_samples t w.1 w.2) applySample).
  - destruct (mapM _ _); done.
  - intros w s'. apply rasterTriangle_samples.
Qed.

End Samples.

(** ** The accumulation does not depend on the order *)

Lemma Color_add_comm a b : Color_add a b = Color_add b a.
Proof. unfold Color_add. f_equal; apply Qcplus_comm. Qed.

Lemma Color_add_assoc a b c : Color_add a (Color_add b c) = Color_add (Color_add a b) c.
Proof. unfold Color_add; simpl. f_equal; apply Qcplus_assoc. Qed.

Lemma add_add_comm a c1 c2 : add (add a c1) c2 = add (add a c2) c1.
Proof.
  unfold add; simpl. f_equal.
  rewrite <-!Color_add_assoc. f_equal. apply Color_add_comm.
Qed.

Lemma foldl_add_Permutation a l l' : l ≡ₚ l' → foldl add a l = foldl add a l'.
Proof.
  intros Hp. revert a. induction Hp as [|c l l' _ IH|c1 c2 l|l l' l'' _ IH1 _ IH2];
    intros a; simpl.
  - done.
  - apply IH.
  - by rewrite add_add_comm.
  - by rewrite IH1.
Qed.

Lemma applySample_alt e s :
  applySample e s =
  if decide (0 <= e.1 < Z.of_nat (length s.1) ∧ e.1 < Z.of_nat (length s.2)) then
    Some (<[Z.to_nat e.1 := i32 e.1]> s.1, alter (λ a, add a e.2) (Z.to_nat e.1) s.2)
  else None.
Proof.
  destruct e as [i c], s as [ids accs]. unfold applySample, vec_set, vec_at; simpl.
  destruct (decide (0 <= i < Z.of_nat (length ids))) as [Hi|Hi]; simpl.
  - rewrite decide_True by lia.
    destruct (accs !! Z.to_nat i) as [a|] eqn:Ha; simpl.
    + pose proof (lookup_lt_Some _ _ _ Ha). rewrite !decide_True by lia. simpl.
      do 2 f_equal. apply list_eq. intros k.
      destruct (decide (k = Z.to_nat i)) as [->|Hk].
      * rewrite list_lookup_insert_eq, list_lookup_alter_eq by lia. by rewrite Ha.
      * rewrite list_lookup_insert_ne, list_lookup_alter_ne by done. done.
    + apply lookup_ge_None_1 in Ha. rewrite decide_False by lia. done.
  - rewrite decide_False by lia. done.
Qed.

Lemma applySample_comm e1 e2 s :
  applySample e1 s ≫= applySample e2 = applySample e2 s ≫= applySample e1.
Proof.
  rewrite (applySample_alt e1 s), (applySample_alt e2 s).
  destruct e1 as [i c1], e2 as [j c2], s as [ids accs]; simpl.
  destruct (decide (0 <= i < Z.of_nat (length ids) ∧ i < Z.of_nat (length accs))) as [Hi|Hi],
    (decide (0 <= j < Z.of_nat (length ids) ∧ j < Z.of_nat (length accs))) as [Hj|Hj];
    simpl; rewrite ?applySample_alt; simpl; rewrite ?length_insert, ?length_alter;
    rewrite ?(decide_True _ _ Hi), ?(decide_True _ _ Hj),
      ?(decide_False _ _ Hi), ?(decide_False _ _ Hj); try done.
  f_equal. destruct (decide (i = j)) as [->|Hij].
  - f_equal. rewrite !list_alter_alter_eq. apply list_alter_ext; [|done].
    intros a _. simpl. apply add_add_comm.
  - f_equal.
    + apply list_insert_insert_ne. lia.
    + apply list_alter_alter_ne. lia.
Qed.

Lemma for_each_Permutation {E S} (apply : E → S → option S) l l' s :
  (∀ e1 e2 s, apply e1 s ≫= apply e2 = apply e2 s ≫= apply e1) →
  l ≡ₚ l' → for_each apply l s = for_each apply l' s.
Proof.
  intros Hcomm Hp. revert s.
  induction Hp as [|e l l' _ IH|e1 e2 l|l l' l'' _ IH1 _ IH2]; intros s; simpl.
  - done.
  - destruct (apply e s); simpl; [apply IH|done].
  - pose proof (Hcomm e2 e1 s) as Hc.
    destruct (apply e2 s) as [s2|], (apply e1 s) as [s1|]; simpl in *.
    + by rewrite Hc.
    + destruct (apply e1 s2); [done|done].
    + destruct (apply e2 s1); [done|done].
    + done.
  - by rewrite IH1.
Qed.

Lemma mapM_Permutation {A B} (f : A → option B) l l' :
  l ≡ₚ l' →
  match mapM f l, mapM f l' with
  | Some k, Some k' => k ≡ₚ k'
  | None, None => True
  | _, _ => False
  end.
Proof.
  induction 1 as [|a l l' _ IH|a1 a2 l|l l' l'' _ IH1 _ IH2]; simpl.
  - done.
  - destruct (f a); simpl; [|done].
    destruct (mapM f l), (mapM f l'); simpl; try done. by constructor.
  - destruct (f a2), (f a1); simpl; try done;
      destruct (mapM f l); simpl; try done. apply perm_swap.
  - destruct (mapM f l), (mapM f l'), (mapM f l''); try done. by etrans.
Qed.

Lemma concat_Permutation {A} (k k' : list (list A)) : k ≡ₚ k' → concat k ≡ₚ concat k'.
Proof.
  induction 1 as [|l k k' _ IH|l1 l2 k|k k' k'' _ IH1 _ IH2]; simpl.
  - done.
  - by rewrite IH.
  - rewrite !(assoc_L (++)). by rewrite (comm (++) l1 l2).
  - by etrans.
Qed.

Section Order.

Variable getPixelFor3DPoint : Point3d → Z → Point2d.
Variable isPixelInImage : Point2d → Z → bool.
Variable getPixelValueInterpolated : Point2d → Z → Color.
Variable point_triangle_squared_distance :
  Point2d → Point2d → Point2d → Point2d → TriangleDistance.

(** C3. Adding samples to an accumulator in any order gives the same sum
    and count, hence the same average; and processing the cameras and their
    triangles in any order (any permutation of the pairs of a camera and one
    of its triangles) gives the same color ids and accumulators, hence the
    same color buffer. Arithmetic is exact. *)
Theorem rasterization_order_independent :
  (∀ (a : AccuColor) (samples samples' : list Color),
     samples ≡ₚ samples' →
     foldl add a samples = foldl add a samples' ∧
     average (foldl add a samples) = average (foldl add a samples')) ∧
  (∀ (t : Texturing) (cams cams' : list (nat * list Z)),
     camera_work cams ≡ₚ camera_work cams' →
     (∀ s : list Z * list AccuColor,
        rasterCameraList getPixelFor3DPoint isPixelInImage getPixelValueInterpolated
          point_triangle_squared_distance t cams s =
        rasterCameraList getPixelFor3DPoint isPixelInImage getPixelValueInterpolated
          point_triangle_squared_distance t cams' s) ∧
     bakeCameras getPixelFor3DPoint isPixelInImage getPixelValueInterpolated
       point_triangle_squared_distance t cams =
     bakeCameras getPixelFor3DPoint isPixelInImage getPixelValueInterpolated
       point_triangle_squared_distance t cams').
Proof.
  split.
  - intros a l l' Hp. rewrite (foldl_add_Permutation a l l' Hp). done.
  - intros t cams cams' Hp.
    assert (∀ s : list Z * list AccuColor,
      rasterCameraList getPixelFor3DPoint isPixelInImage getPixelValueInterpolated
        point_triangle_squared_distance t cams s =
      rasterCameraList getPixelFor3DPoint isPixelInImage getPixelValueInterpolated
        point_triangle_squared_distance t cams' s) as Heq.
    { intros s. rewrite !rasterCameraList_samples. unfold textureSamples.
      pose proof (mapM_Permutation
        (λ w, triangleSamples getPixelFor3DPoint isPixelInImage getPixelValueInterpolated
                point_triangle_squared_distance t w.1 w.2) _ _ Hp) as Hm.
      destruct (mapM _ (camera_work cams)) as [k|], (mapM _ (camera_work cams')) as [k'|];
        simpl; try done.
      apply for_each_Permutation; [apply applySample_comm|].
      by apply concat_Permutation. }
    split; [done|]. unfold bakeCameras. by rewrite Heq.
Qed.

End Order.


(** ** What the samples leave in the color ids and the accumulators *)

Lemma samples_at_cons i j c evs :
  samples_at i ((j, c) :: evs) =
  if decide (j = i) then c :: samples_at i evs else samples_at i evs.
Proof.
  unfold samples_at. rewrite filter_cons. simpl. by case_decide.
Qed.

Lemma applySamples_spec evs : ∀ (ids : list Z) (accs : list AccuColor),
  length accs = length ids →
  (∀ e, e ∈ evs → 0 <= e.1 < Z.of_nat (length ids)) →
  ∃ ids' accs', for_each applySample evs (ids, accs) = Some (ids', accs') ∧
    length ids' = length ids ∧ length accs' = length ids ∧
    ∀ i, 0 <= i < Z.of_nat (length ids) →
      texel ids' i = (if decide (samples_at i evs = []) then texel ids i else i32 i) ∧
      vec_at accs' i = (λ a, foldl add a (samples_at i evs)) <$> vec_at accs i.
Proof.
  induction evs as [|[j c] evs IH]; intros ids accs Hlen Hin.
  - exists ids, accs. split_and!; try done. intros i Hi. simpl.
    split; [done|]. by destruct (vec_at accs i).
  - simpl. rewrite applySample_alt. simpl.
    assert (0 <= j < Z.of_nat (length ids)) as Hj by (apply (Hin (j, c)); left).
    rewrite decide_True by lia. simpl.
    destruct (IH (<[Z.to_nat j := i32 j]> ids) (alter (λ a, add a c) (Z.to_nat j) accs))
      as (ids' & accs' & Hrun & Hl1 & Hl2 & Hspec).
    { by rewrite length_insert, length_alter. }
    { intros e He. rewrite length_insert. apply Hin. by right. }
    rewrite length_insert in Hl1, Hl2, Hspec.
    exists ids', accs'. split_and!; try done.
    intros i Hi. destruct (Hspec i Hi) as [Hid Hacc].
    rewrite Hid, Hacc, samples_at_cons. rewrite texel_insert by lia.
    unfold vec_at. destruct (decide (0 <= i)) as [_|?]; [|lia].
    destruct (decide (j = i)) as [->|Hji].
    + rewrite list_lookup_alter_eq. split.
      * repeat case_decide; congruence.
      * by destruct (accs !! Z.to_nat i).
    + rewrite list_lookup_alter_ne by lia. split; [|done].
      repeat case_decide; congruence.
Qed.

(** ** The average of an accumulator *)

Lemma foldl_add_spec samples : ∀ a,
  0 <= count a → count a + Z.of_nat (length samples) < 2 ^ 32 →
  colorSum (foldl add a samples) = foldl Color_add (colorSum a) samples ∧
  count (foldl add a samples) = count a + Z.of_nat (length samples).
Proof.
  induction samples as [|c samples IH]; intros a H0 Hlt; simpl in *.
  - split; [done|lia].
  - destruct (IH (add a c)) as [Hs Hc]; simpl.
    + unfold u32. apply Z.mod_pos_bound. lia.
    + rewrite u32_small by lia. lia.
    + rewrite Hs, Hc. simpl. rewrite u32_small by lia. split; [done|lia].
Qed.

Lemma average_samples samples :
  samples ≠ [] → Z.of_nat (length samples) < 2 ^ 32 →
  average (foldl add AccuColor_new samples) =
  Color_div (Color_sum samples) (Qc_of_Z (Z.of_nat (length samples))).
Proof.
  intros Hne Hlt. destruct (foldl_add_spec samples AccuColor_new) as [Hs Hc];
    [done|simpl; lia|].
  unfold average. rewrite Hs, Hc. simpl.
  rewrite decide_True; [done|]. destruct samples; [done|simpl; lia].
Qed.

(** ** The samples fall inside the texture *)

Section SamplesRange.

Variable getPixelFor3DPoint : Point3d → Z → Point2d.
Variable isPixelInImage : Point2d → Z → bool.
Variable getPixelValueInterpolated : Point2d → Z → Color.
Variable point_triangle_squared_distance :
  Point2d → Point2d → Point2d → Point2d → TriangleDistance.

Lemma boundingBox_range tp triPixs LUx LUy RDx RDy :
  0 <= textureSide tp < 2 ^ 31 →
  boundingBox tp triPixs = Some (LUx, LUy, RDx, RDy) →
  0 <= LUx ∧ 0 <= LUy ∧ RDx <= textureSide tp ∧ RDy <= textureSide tp.
Proof.
  intros Hside. unfold boundingBox. rewrite i32_small by lia.
  intros Hbb.
  apply bind_Some in Hbb as (a & _ & Hbb). apply bind_Some in Hbb as (b & _ & Hbb).
  apply bind_Some in Hbb as (c & _ & Hbb). apply bind_Some in Hbb as (d & _ & Hbb).
  injection Hbb as <- <- <- <-. unfold clamp. lia.
Qed.

Lemma pixelSample_range tp camId triPixs triPts y x e :
  textureSide tp * textureSide tp <= 2 ^ 31 →
  0 <= y < textureSide tp → 0 <= x < textureSide tp →
  pixelSample getPixelFor3DPoint isPixelInImage getPixelValueInterpolated
    point_triangle_squared_distance tp camId triPixs triPts y x = Some e →
  0 <= e.1 < textureSide tp * textureSide tp.
Proof.
  intros Hsize Hy Hx. unfold pixelSample.
  destruct (isPixelInTriangle _ _ _) as [[] bary]; simpl; [|done].
  destruct (isPixelInImage _ _); simpl; [|done].
  intros [= <-]. simpl.
  rewrite (u32_small (textureSide tp - 1)) by nia.
  rewrite (u32_small (textureSide tp - 1 - y)) by nia.
  rewrite u32_small by nia. nia.
Qed.

Lemma triangleSamples_range t camId triangleId evs e :
  textureSide (texParams t) * textureSide (texParams t) <= 2 ^ 31 →
  0 <= textureSide (texParams t) →
  triangleSamples getPixelFor3DPoint isPixelInImage getPixelValueInterpolated
    point_triangle_squared_distance t camId triangleId = Some evs →
  e ∈ evs →
  0 <= e.1 < textureSide (texParams t) * textureSide (texParams t).
Proof.
  intros Hsize Hside. unfold triangleSamples.
  destruct (triangleCorners t triangleId) as [[triPixs triPts]|]; simpl; [|done].
  destruct (boundingBox (texParams t) triPixs) as [[[[LUx LUy] RDx] RDy]|] eqn:Hbb;
    simpl; [|done].
  apply boundingBox_range in Hbb; [|nia].
  intros [= <-]. rewrite list_elem_of_In, in_concat.
  intros (l & Hl & He). apply list_elem_of_In in Hl, He.
  apply list_elem_of_fmap in Hl as (y & -> & Hy).
  apply list_elem_of_omap in He as (x & Hx & He).
  apply elem_of_seqZ in Hy, Hx.
  eapply pixelSample_range; [done| | |done]; lia.
Qed.

Lemma textureSamples_range t cams evs e :
  textureSide (texParams t) * textureSide (texParams t) <= 2 ^ 31 →
  0 <= textureSide (texParams t) →
  textureSamples getPixelFor3DPoint isPixelInImage getPixelValueInterpolated
    point_triangle_squared_distance t cams = Some evs →
  e ∈ evs →
  0 <= e.1 < textureSide (texParams t) * textureSide (texParams t).
Proof.
  intros Hsize Hside. unfold textureSamples.
  destruct (mapM _ _) as [k|] eqn:Hk; simpl; [|done].
  intros [= <-]. rewrite list_elem_of_In, in_concat.
  intros (l & Hl & He). apply list_elem_of_In in Hl, He.
  apply mapM_Some_1 in Hk.
  apply list_elem_of_lookup in Hl as [n Hn].
  destruct (Forall2_lookup_r _ _ _ _ _ Hk Hn) as (w & _ & Hw).
  by eapply triangleSamples_range.
Qed.

End SamplesRange.

(** ** The final loop *)

Lemma colorCell_spec tp ids accs yp xp buf alpha :
  textureSide tp * textureSide tp <= 2 ^ 31 →
  0 <= yp < textureSide tp → 0 <= xp < textureSide tp →
  Z.of_nat (length ids) = textureSide tp * textureSide tp →
  Z.of_nat (length accs) = textureSide tp * textureSide tp →
  bounded (textureSide tp * textureSide tp) ids →
  Z.of_nat (length buf) = textureSide tp * textureSide tp →
  (fillHoles tp = true → Z.of_nat (length alpha) = textureSide tp * textureSide tp) →
  ∃ alpha', colorCell tp ids accs yp xp (buf, alpha) =
      Some (<[Z.to_nat (yp * textureSide tp + xp) :=
               texel_color ids accs (yp * textureSide tp + xp)]> buf, alpha') ∧
    length alpha' = length alpha.
Proof.
  intros Hsize Hy Hx Hids Haccs Hb Hbuf Halpha.
  assert (0 <= yp * textureSide tp + xp < textureSide tp * textureSide tp) as Hxy by nia.
  unfold colorCell, texel_color.
  rewrite (u32_small (yp * textureSide tp)) by nia. rewrite u32_small by lia.
  rewrite texel_lookup by lia. simpl.
  pose proof (Hb (yp * textureSide tp + xp)) as Hid.
  case_decide as Hpos.
  - destruct (vec_at_lt accs (texel ids (yp * textureSide tp + xp))) as [acc Hacc]; [lia|].
    rewrite Hacc. simpl.
    unfold vec_set. destruct (fillHoles tp); simpl.
    + specialize (Halpha eq_refl). rewrite !decide_True by lia. simpl.
      eexists. split; [done|]. by rewrite length_insert.
    + rewrite decide_True by lia. simpl. eauto.
  - unfold vec_set. rewrite decide_True by lia. simpl. eauto.
Qed.

Lemma fillColorBuffer_spec tp ids accs :
  0 <= textureSide tp → textureSide tp * textureSide tp <= 2 ^ 31 →
  Z.of_nat (length ids) = textureSide tp * textureSide tp →
  Z.of_nat (length accs) = textureSide tp * textureSide tp →
  bounded (textureSide tp * textureSide tp) ids →
  ∃ buf alpha, fillColorBuffer tp ids accs = Some (buf, alpha) ∧
    Z.of_nat (length buf) = textureSide tp * textureSide tp ∧
    ∀ i, 0 <= i < textureSide tp * textureSide tp →
         vec_at buf i = Some (texel_color ids accs i).
Proof.
  intros Hside Hsize Hids Haccs Hb. unfold fillColorBuffer.
  set (side := textureSide tp) in *.
  pose (I := λ (bound : Z) (bufs : list Color * list Qc),
    Z.of_nat (length bufs.1) = side * side ∧
    (fillHoles tp = true → Z.of_nat (length bufs.2) = side * side) ∧
    ∀ i, 0 <= i < bound → vec_at bufs.1 i = Some (texel_color ids accs i)).
  destruct (for_range_ind
    (λ yp bufs, for_range 0 side (λ xp bufs, colorCell tp ids accs yp xp bufs) bufs)
    (λ yp bufs, I (yp * side) bufs) 0 side
    (replicate (Z.to_nat (u32 (side * side))) Color_default,
     if fillHoles tp
     then replicate (length (replicate (Z.to_nat (u32 (side * side))) Color_default)) 0%Qc
     else [])) as ([buf alpha] & Hrun & Hlen & _ & Hspec).
  - done.
  - rewrite u32_small by lia. split_and!; simpl.
    + rewrite length_replicate. lia.
    + intros ->. rewrite !length_replicate. lia.
    + intros i Hi. lia.
  - intros yp bufs Hyp HI.
    destruct (for_range_ind (λ xp bufs, colorCell tp ids accs yp xp bufs)
      (λ xp bufs, I (yp * side + xp) bufs) 0 side bufs) as (bufs' & Hrun & HI').
    + done.
    + by rewrite Z.add_0_r.
    + intros xp [buf alpha] Hxp (Hlen & Halpha & Hspec). cbn [fst snd] in *.
      destruct (colorCell_spec tp ids accs yp xp buf alpha) as (alpha' & Hcell & Hlena);
        try done.
      eexists. split; [exact Hcell|]. split_and!; simpl.
      * by rewrite length_insert.
      * intros Hf. rewrite Hlena. auto.
      * intros i Hi. unfold vec_at. rewrite decide_True by lia.
        destruct (decide (i = yp * side + xp)) as [->|Hne].
        -- rewrite list_lookup_insert_eq; [done|]. nia.
        -- rewrite list_lookup_insert_ne by lia.
           specialize (Hspec i). unfold vec_at in Hspec.
           rewrite decide_True in Hspec by lia. apply Hspec. lia.
    + exists bufs'. split; [done|].
      replace ((yp + 1) * side) with (yp * side + side) by lia. done.
  - exists buf, alpha. simpl in *. split_and!; done.
Qed.

Lemma texel_replicate n (v : Z) i : 0 <= i < Z.of_nat n → texel (replicate n v) i = v.
Proof.
  intros Hi. unfold texel, vec_at. rewrite decide_True by lia.
  rewrite lookup_replicate_2; [done|lia].
Qed.

Lemma vec_at_replicate {A} n (a : A) i : 0 <= i < Z.of_nat n → vec_at (replicate n a) i = Some a.
Proof.
  intros Hi. unfold vec_at. rewrite decide_True by lia.
  rewrite lookup_replicate_2; [done|lia].
Qed.

Lemma edgePadding_off tp size ids :
  fillHoles tp = true ∨ padding tp = 0 → edgePadding tp size ids = Some ids.
Proof.
  unfold edgePadding. intros [->| ->]; [done|].
  rewrite bool_decide_eq_false_2 by lia. by rewrite andb_false_r.
Qed.

Section Bake.

Variable ncams : Z.
Variable getPixelFor3DPoint : Point3d → Z → Point2d.
Variable isPixelInImage : Point2d → Z → bool.
Variable getPixelValueInterpolated : Point2d → Z → Color.
Variable point_triangle_squared_distance :
  Point2d → Point2d → Point2d → Point2d → TriangleDistance.

Local Abbreviation raster_cameras :=
  (rasterCameraList getPixelFor3DPoint isPixelInImage getPixelValueInterpolated
     point_triangle_squared_distance).
Local Abbreviation texture_samples :=
  (textureSamples getPixelFor3DPoint isPixelInImage getPixelValueInterpolated
     point_triangle_squared_distance).
Local Abbreviation bake_cameras :=
  (bakeCameras getPixelFor3DPoint isPixelInImage getPixelValueInterpolated
     point_triangle_squared_distance).
Local Abbreviation bake_color_buffer :=
  (bakeColorBuffer ncams getPixelFor3DPoint isPixelInImage getPixelValueInterpolated
     point_triangle_squared_distance).

(** C2 (amended). When the samples of an atlas are defined, the color
    buffer is computed, and for every texel: if samples reached it (fewer
    than 2^32), the color written is their sum divided by their number; if
    none did, the rasterization leaves it the sentinel id -1 and an
    accumulator that reads as the default color, and the default color is
    written whenever its id is still -1 after the gutter repair, which is
    always so when the edge padding does not run; when the edge padding
    gave it another id, that id is the index of a texel that samples
    reached, and the color written is the sum of the samples of that texel
    divided by their number. *)
Theorem bakeColorBuffer_writes_average t atlasID atlas camTriangles evs :
  let tp := texParams t in
  let size := textureSide tp * textureSide tp in
  let cams := imap (λ camId triangles, (camId, triangles)) camTriangles in
  2 <= textureSide tp → size <= 2 ^ 31 → 0 <= padding tp →
  vec_at (_atlases t) atlasID = Some atlas →
  registerCamTriangles ncams t atlas = Some camTriangles →
  texture_samples t cams = Some evs →
  ∃ ids accs ids' colorBuffer alphaBuffer,
    raster_cameras t cams
      (replicate (Z.to_nat size) (-1), replicate (Z.to_nat size) AccuColor_new)
      = Some (ids, accs) ∧
    edgePadding tp size ids = Some ids' ∧
    bake_color_buffer t atlasID = Some (colorBuffer, alphaBuffer) ∧
    ∀ i, 0 <= i < size →
      let samples := samples_at i evs in
      (samples ≠ [] → Z.of_nat (length samples) < 2 ^ 32 →
       vec_at colorBuffer i =
       Some (Color_div (Color_sum samples) (Qc_of_Z (Z.of_nat (length samples))))) ∧
      (samples = [] →
       texel ids i = -1 ∧ average <$> vec_at accs i = Some Color_default ∧
       (texel ids' i = -1 → vec_at colorBuffer i = Some Color_default) ∧
       (fillHoles tp = true ∨ padding tp = 0 → texel ids' i = -1) ∧
       (texel ids' i ≠ -1 →
        let source := samples_at (texel ids' i) evs in
        0 <= texel ids' i < size ∧ source ≠ [] ∧
        (Z.of_nat (length source) < 2 ^ 32 →
         vec_at colorBuffer i =
         Some (Color_div (Color_sum source) (Qc_of_Z (Z.of_nat (length source))))))).
Proof.
  cbv zeta. intros Hside Hsize Hpad Hatlas Hreg Hevs.
  set (tp := texParams t) in *.
  set (size := textureSide tp * textureSide tp) in *.
  set (cams := imap (λ camId triangles, (camId, triangles)) camTriangles) in *.
  assert (0 <= size) as Hsize0 by (subst size; nia).
  assert (Z.of_nat (Z.to_nat size) = size) as Hnat by lia.
  destruct (applySamples_spec evs (replicate (Z.to_nat size) (-1))
              (replicate (Z.to_nat size) AccuColor_new))
    as (ids & accs & Hrun & Hlen1 & Hlen2 & Hspec).
  { by rewrite !length_replicate. }
  { intros e He. rewrite length_replicate, Hnat.
    eapply textureSamples_range; [exact Hsize| |exact Hevs|exact He].
    fold tp. lia. }
  rewrite length_replicate in Hlen1, Hlen2, Hspec. rewrite Hnat in Hspec.
  assert (rasterized size ids) as Hrast.
  { split; [lia|]. intros j Hj. destruct (Hspec j Hj) as [-> _].
    rewrite texel_replicate by lia. rewrite i32_small by lia.
    case_decide; auto. }
  destruct (edgePadding_spec tp ids) as (ids' & Hpadrun & (Hlen' & Hb' & _) & Hkeep & _);
    [done|done|done|by apply rasterized_padding_state|].
  fold size in Hpadrun, Hlen', Hb'.
  destruct (edgePadding_sampled_ids tp ids Hside Hsize Hrast) as (ids2 & Hrun2 & _ & Hfrom).
  fold size in Hrun2, Hfrom. rewrite Hpadrun in Hrun2. injection Hrun2 as <-.
  destruct (fillColorBuffer_spec tp ids' accs) as (buf & alpha & Hfill & _ & Hbuf);
    [lia|done|done|fold size; lia|done|].
  fold size in Hbuf.
  assert (raster_cameras t cams
            (replicate (Z.to_nat size) (-1), replicate (Z.to_nat size) AccuColor_new)
          = Some (ids, accs)) as Hraster.
  { rewrite rasterCameraList_samples, Hevs. done. }
  exists ids, accs, ids', buf, alpha. split; [done|]. split; [done|]. split.
  { unfold bakeColorBuffer. rewrite Hatlas. simpl. rewrite Hreg. simpl.
    unfold bakeCameras. fold tp. fold size. rewrite u32_small by lia.
    fold cams. rewrite Hraster. simpl.
    rewrite Hpadrun. simpl. done. }
  intros i Hi. destruct (Hspec i Hi) as [Hid Hacc].
  rewrite texel_replicate in Hid by lia. rewrite vec_at_replicate in Hacc by lia.
  simpl in Hacc. split.
  - intros Hne Hlt. rewrite decide_False in Hid by done.
    rewrite i32_small in Hid by lia.
    rewrite Hbuf by done. unfold texel_color.
    rewrite Hkeep by lia. rewrite Hid, decide_True by lia. rewrite Hacc. simpl.
    by rewrite average_samples.
  - intros Hnil. rewrite decide_True in Hid by done. rewrite Hnil in Hacc.
    split; [done|]. split; [by rewrite Hacc|]. split; [|split].
    + intros Hid'. rewrite Hbuf by done. unfold texel_color.
      rewrite Hid', decide_False by lia. done.
    + intros Hoff. rewrite (edgePadding_off tp size ids Hoff) in Hpadrun.
      by injection Hpadrun as <-.
    + intros Hfilled. cbv zeta.
      destruct (Hfrom i Hi) as [_ [?|[Hn Hown]]]; [done|].
      destruct (Hspec _ Hn) as [Hidn Haccn].
      rewrite texel_replicate in Hidn by lia. rewrite vec_at_replicate in Haccn by lia.
      simpl in Haccn.
      assert (samples_at (texel ids' i) evs ≠ []) as Hne.
      { intros Hnone. rewrite decide_True in Hidn by done. lia. }
      split; [done|]. split; [done|]. intros Hlt.
      rewrite Hbuf by done. unfold texel_color.
      rewrite decide_True by lia. rewrite Haccn. simpl.
      by rewrite average_samples.
Qed.

End Bake.

Lemma bakeColorBuffer_writes_average_witness :
  ∃ colorBuffer alphaBuffer,
    bakeColorBuffer 2 flat_projection whole_plane_image two_camera_colors
      barycentric_distance texturing_one_triangle 0
    = Some (colorBuffer, alphaBuffer) ∧
    vec_at colorBuffer 3 = Some (Color_div (Color_sum [red; blue]) (Qc_of_Z 2)) ∧
    vec_at colorBuffer 4 = Some (Color_div (Color_sum [red; blue]) (Qc_of_Z 2)).
Proof.
  destruct (bakeColorBuffer_writes_average 2 flat_projection whole_plane_image
              two_camera_colors barycentric_distance texturing_one_triangle 0
              [0] [[0]; [0]] [(3, red); (3, blue)])
    as (ids & accs & ids' & buf & alpha & Hraster & Hpad & Hbake & Hspec).
  - simpl. lia.
  - simpl. lia.
  - simpl. lia.
  - reflexivity.
  - reflexivity.
  - reflexivity.
  - exists buf, alpha. split; [exact Hbake|].
    assert (ids = ids_left_sampled) as Hids.
    { apply (f_equal (fmap fst)) in Hraster. vm_compute in Hraster.
      by injection Hraster as <-. }
    rewrite Hids in Hpad.
    assert (ids' = [-1; -1; -1; 3; 3; -1; -1; -1; -1]) as Hids'.
    { vm_compute in Hpad. by injection Hpad as <-. }
    split.
    + destruct (Hspec 3) as [Hmean _]; [simpl; lia|].
      apply Hmean; [discriminate|simpl; lia].
    + destruct (Hspec 4) as [_ Hnone]; [simpl; lia|].
      destruct Hnone as (_ & _ & _ & _ & Hfilled); [reflexivity|].
      rewrite Hids' in Hfilled.
      destruct Hfilled as (_ & _ & Hmean); [discriminate|].
      apply Hmean. simpl. lia.
Defined.

(** C2, as stated, fails where the edge padding runs: no sample reaches the
    center texel 4, yet the color written there is not the default color but
    the average of the texel 3 on its left. *)
Lemma bakeColorBuffer_colors_unsampled_texel :
  samples_at 4 <$>
    textureSamples flat_projection whole_plane_image two_camera_colors
      barycentric_distance texturing_one_triangle [(0%nat, [0]); (1%nat, [0])]
  = Some [] ∧
  registerCamTriangles 2 texturing_one_triangle [0] = Some [[0]; [0]] ∧
  bakeColorBuffer 2 flat_projection whole_plane_image two_camera_colors
    barycentric_distance texturing_one_triangle 0 ≫= (λ bufs, vec_at bufs.1 4)
  = Some (mkColor half 0 half) ∧
  mkColor half 0 half ≠ Color_default.
Proof.
  split; [reflexivity|]. split; [reflexivity|]. split.
  - apply (bool_decide_unpack _). vm_compute. exact I.
  - discriminate.
Qed.

(** C10 at its failing input: the texel 1 alone holds a sample; the center
    texel refers to it by the negated index -1, which is also the sentinel of
    the empty texels, so the resolution pass gives the id 1 to every empty
    texel, the border ones included; and a texture whose only triangle covers
    the texel 1 has the color of that texel in all its texels, the corner
    texels 0 and 8 among them, which no sample reached. *)
Theorem edgePadding_sentinel_fills_border :
  edgePadding params_3 9 ids_top_sampled = Some [1; 1; 1; 1; 1; 1; 1; 1; 1] ∧
  textureSamples flat_projection whole_plane_image two_camera_colors
    barycentric_distance texturing_top_triangle [(0%nat, [0]); (1%nat, [0])]
  = Some [(1, red); (1, blue)] ∧
  bakeColorBuffer 2 flat_projection whole_plane_image two_camera_colors
    barycentric_distance texturing_top_triangle 0 ≫= (λ bufs, vec_at bufs.1 0)
  = Some (mkColor half 0 half) ∧
  bakeColorBuffer 2 flat_projection whole_plane_image two_camera_colors
    barycentric_distance texturing_top_triangle 0 ≫= (λ bufs, vec_at bufs.1 8)
  = Some (mkColor half 0 half).
Proof.
  split; [reflexivity|]. split; [reflexivity|]. split.
  - apply (bool_decide_unpack _). vm_compute. exact I.
  - apply (bool_decide_unpack _). vm_compute. exact I.
Qed.

Lemma rasterization_order_independent_witness :
  bakeCameras flat_projection whole_plane_image two_camera_colors
    barycentric_distance texturing_one_triangle [(0%nat, [0]); (1%nat, [0])] =
  bakeCameras flat_projection whole_plane_image two_camera_colors
    barycentric_distance texturing_one_triangle [(1%nat, [0]); (0%nat, [0])].
Proof.
  apply (rasterization_order_independent flat_projection whole_plane_image
           two_camera_colors barycentric_distance).
  apply perm_swap.
Defined.

(** ** generateUVs: the loops *)


Lemma vec_at_prefix {A} (l l' : list A) i x :
  l `prefix_of` l' → vec_at l i = Some x → vec_at l' i = Some x.
Proof.
  intros Hp. unfold vec_at. case_decide; [|done]. intros Hl. by eapply prefix_lookup_Some.
Qed.

Lemma vec_at_length {A} (l : list A) i x : vec_at l i = Some x → 0 <= i < Z.of_nat (length l).
Proof.
  unfold vec_at. case_decide; [|done]. intros Hl%lookup_lt_Some. lia.
Qed.

Lemma vec_at_snoc {A} (l : list A) x : vec_at (l ++ [x]) (Z.of_nat (length (l ++ [x])) - 1) = Some x.
Proof.
  rewrite length_app. simpl. unfold vec_at. rewrite decide_True by lia.
  replace (Z.to_nat (Z.of_nat (length l + 1) - 1)) with (length l) by lia.
  by rewrite list_lookup_middle.
Qed.

Section GenerateUVsProofs.

Variable getPixelFor3DPoint : Point3d → Z → Point2d.
Variable isPixelInImage : Point2d → Z → bool.
Variable mesh : Mesh.
Variable vis : PointsVisibility.
Variable side : Z.
Variable uv0 : list Point2d.
Variable tu0 : list Voxel.
Variable nAtl : nat.

Local Abbreviation chart_uv := (chartUV getPixelFor3DPoint isPixelInImage side).
Local Abbreviation cache_inv := (cache_ok mesh).
Local Abbreviation uvcache_inv := (uvcache_ok getPixelFor3DPoint isPixelInImage side).
Local Abbreviation corner_inv := (corner_ok getPixelFor3DPoint isPixelInImage mesh side).
Local Abbreviation records_inv := (records_ok getPixelFor3DPoint isPixelInImage mesh side).
Local Abbreviation loop_inv :=
  (uv_inv getPixelFor3DPoint isPixelInImage mesh side uv0 tu0 nAtl).
Local Abbreviation chart_loop_inv := (chart_inv getPixelFor3DPoint isPixelInImage side).
Local Abbreviation process_corner := (processCorner getPixelFor3DPoint isPixelInImage mesh vis side).
Local Abbreviation process_triangle :=
  (processTriangle getPixelFor3DPoint isPixelInImage mesh vis side).
Local Abbreviation process_chart := (processChart getPixelFor3DPoint isPixelInImage mesh vis side).
Local Abbreviation process_atlas := (processAtlas getPixelFor3DPoint isPixelInImage mesh vis side).

Lemma uv_extends_refl s : uv_extends s s.
Proof. unfold uv_extends. split_and!; done. Qed.

Lemma uv_extends_trans s1 s2 s3 : uv_extends s1 s2 → uv_extends s2 s3 → uv_extends s1 s3.
Proof.
  intros (?&?&?&?&?&?&?&?) (?&?&?&?&?&?&?&?). unfold uv_extends.
  split_and!; try congruence; by etrans.
Qed.

Lemma uvcache_ok_extends chart uvBase uvCache s s' :
  uv_extends s s' → uvcache_inv chart uvBase uvCache s → uvcache_inv chart uvBase uvCache s'.
Proof.
  intros (Hp & Hu & _) [Hb Hc]. split.
  - apply prefix_length in Hu. lia.
  - intros v u Hvu. destruct (Hc v u Hvu) as (? & p & ? & ?).
    split; [done|]. exists p. split; by eapply vec_at_prefix.
Qed.

Lemma corner_ok_extends s s' r c :
  uv_extends s s' → corner_inv s r c → corner_inv s' r c.
Proof.
  intros (_ & Hu & Hc & _) (Hv & p & Hp & Huv). split.
  - by eapply lookup_weaken.
  - exists p. split; [done|]. by eapply vec_at_prefix.
Qed.

(** The body of the loop over the points of a triangle. *)
Lemma processCorner_spec chart uvBase pointId uvCache s :
  cache_inv s → uvcache_inv chart uvBase uvCache s →
  0 <= pointId < Z.of_nat (length (pts mesh)) → pointId < Z.of_nat (length vis) →
  ∃ v u uvCache' s',
    process_corner chart (Pixel_sub (targetLU chart) (sourceLU chart)) pointId (uvCache, s)
      = Some (v, u, (uvCache', s')) ∧
    uv_extends s s' ∧ uvCache ⊆ uvCache' ∧ cache_inv s' ∧ uvcache_inv chart uvBase uvCache' s' ∧
    g_vertexCache s' !! pointId = Some v ∧ uvCache' !! v = Some u ∧
    ∃ p, vec_at (pts mesh) pointId = Some p ∧
         vec_at (g_uvCoords s') u = Some (chart_uv chart p).
Proof.
  intros Hcache Huv Hpid Hvis.
  destruct (vec_at_lt (pts mesh) pointId) as [p Hp]; [lia|].
  destruct (vec_at_lt vis pointId) as [pRef HpRef]; [lia|].
  (* the vertex *)
  assert (∃ v s1,
    match g_vertexCache s !! pointId with
    | None => pRef ← vec_at vis pointId; Some (pushVertex pointId p pRef s)
    | Some idx => Some (idx, s)
    end = Some (v, s1) ∧
    uv_extends s s1 ∧ cache_inv s1 ∧ g_vertexCache s1 !! pointId = Some v ∧
    vec_at (g_pts s1) v = Some p ∧ g_uvCoords s1 = g_uvCoords s) as (v & s1 & Hstep1 & Hext1 & Hcache1 & Hv & Hpv & Huveq).
  { destruct (g_vertexCache s !! pointId) as [idx|] eqn:Hlook.
    - exists idx, s. split; [done|]. split; [apply uv_extends_refl|]. split; [done|].
      split; [done|]. split; [|done].
      destruct Hcache as (H1 & _). destruct (H1 _ _ Hlook) as (p' & Hp' & ?). congruence.
    - rewrite HpRef. simpl. eexists _, _. split; [done|].
      destruct Hcache as (H1 & H2 & H3 & H4). simpl.
      assert (∀ pid v, g_vertexCache s !! pid = Some v → 0 <= v < Z.of_nat (length (g_pts s)))
        as Hrange.
      { intros pid v' Hv'. destruct (H1 _ _ Hv') as (? & _ & Hl). by eapply vec_at_length. }
      split_and!.
      + split_and!; simpl; try done.
        * by apply prefix_app_r.
        * by apply insert_subseteq.
      + split_and!; simpl.
        * intros pid v'. rewrite lookup_insert. case_decide as Heq.
          -- intros [= <-]. subst pid. exists p. split; [done|]. apply vec_at_snoc.
          -- intros Hv'. destruct (H1 _ _ Hv') as (p' & ? & ?). exists p'.
             split; [done|]. eapply vec_at_prefix; [|done]. by apply prefix_app_r.
        * intros pid pid' v'. rewrite !lookup_insert. rewrite length_app. simpl.
          repeat case_decide; intros Ha Hb; simplify_eq; try done.
          -- apply Hrange in Hb. lia.
          -- apply Hrange in Ha. lia.
          -- by eapply H2.
        * intros v'. rewrite !length_app. simpl. intros Hv'.
          destruct (decide (v' < Z.of_nat (length (g_pts s)))) as [Hlt|Hge].
          -- destruct (H3 v') as [pid Hpid']; [lia|]. exists pid.
             rewrite lookup_insert_ne; [done|]. intros <-. congruence.
          -- exists pointId. rewrite lookup_insert_eq. f_equal. lia.
        * rewrite !length_app. simpl. lia.
      + simpl. by rewrite lookup_insert_eq.
      + simpl. apply vec_at_snoc.
      + done. }
  pose proof (uvcache_ok_extends _ _ _ _ _ Hext1 Huv) as Huv1.
  unfold processCorner. rewrite Hp. simpl. rewrite Hstep1. simpl.
  fold (chart_uv chart p).
  destruct (uvCache !! v) as [u|] eqn:Hu.
  - exists v, u, uvCache, s1. split; [done|]. split_and!; try done.
    exists p. split; [done|]. destruct Huv1 as [_ Huv1].
    destruct (Huv1 _ _ Hu) as (_ & p' & Hp' & Huv'). congruence.
  - destruct Huv1 as [Hb1 Hc1]. simpl.
    eexists v, _, _, _. split; [done|].
    assert (uv_extends s1
      (mkUvState (g_pts s1) (g_tris s1) (g_uvCoords s1 ++ [chart_uv chart p])
         (g_trisUvIds s1) (g_atlases s1) (g_vertexCache s1) (g_updatedPointsCams s1)
         (g_atlasId s1) (g_triangleCount s1))) as Hext2.
    { unfold uv_extends. simpl. split_and!; try done. by apply prefix_app_r. }
    split_and!.
    + by eapply uv_extends_trans.
    + by apply insert_subseteq.
    + destruct Hcache1 as (H1 & H2 & H3 & H4). split_and!; simpl; done.
    + split; simpl.
      * rewrite length_app. simpl. lia.
      * intros v' u'. rewrite lookup_insert. case_decide as Heq.
        -- intros [= <-]. subst v'. split; [rewrite length_app; simpl; lia|].
           exists p. split; [done|]. apply vec_at_snoc.
        -- intros Hv'. destruct (Hc1 _ _ Hv') as (? & p' & ? & ?).
           split; [done|]. exists p'. split; [done|].
           eapply vec_at_prefix; [|done]. by apply prefix_app_r.
    + done.
    + by rewrite lookup_insert_eq.
    + exists p. split; [done|]. simpl. apply vec_at_snoc.
Qed.


Lemma atlas_members_snoc a work w :
  atlas_members a (work ++ [w]) =
  atlas_members a work ++ (if decide (w_atlas w = a) then [Z.of_nat (length work)] else []).
Proof.
  unfold atlas_members. rewrite imap_app, omap_app. simpl.
  rewrite Nat.add_0_r. by case_decide.
Qed.

Lemma uv_split_snoc cur (uvCache : gmap Z Z) uvBase recs r_new :
  uv_split recs →
  (∀ r c, r ∈ recs ++ [r_new] → c ∈ record_corners r →
     if decide (r_chart r = cur) then uvCache !! c_vertex c = Some (c_uv c)
     else c_uv c < uvBase) →
  (∀ v u, uvCache !! v = Some u → uvBase <= u) →
  r_chart r_new = cur →
  uv_split (recs ++ [r_new]).
Proof.
  intros Hold Hchart Hbase Hnew r c r' c' Hr Hc Hr' Hc'.
  pose proof (Hchart r c Hr Hc) as H1. pose proof (Hchart r' c' Hr' Hc') as H2.
  destruct (decide (r_chart r = cur)) as [Hcur|Hcur],
    (decide (r_chart r' = cur)) as [Hcur'|Hcur'].
  - rewrite decide_True by congruence. intros Hv. rewrite Hv in H1. congruence.
  - rewrite decide_False by congruence. apply Hbase in H1. lia.
  - rewrite decide_False by congruence. apply Hbase in H2. lia.
  - apply Hold; try done.
    + apply elem_of_app in Hr as [?|Hr]; [done|].
      apply list_elem_of_singleton in Hr. congruence.
    + apply elem_of_app in Hr' as [?|Hr']; [done|].
      apply list_elem_of_singleton in Hr'. congruence.
Qed.


Local Arguments processCorner : simpl never.

(** The body of the loop over the triangles of a chart. *)
Lemma processTriangle_spec a c chart uvBase triangleID uvCache recs s :
  (a < nAtl)%nat → wf_triangle mesh vis triangleID →
  loop_inv a recs s → chart_loop_inv (a, c) chart uvBase uvCache recs s →
  ∃ r uvCache' s',
    process_triangle chart (Pixel_sub (targetLU chart) (sourceLU chart)) triangleID
      (uvCache, s) = Some (uvCache', s') ∧
    r_item r = mkWorkItem a c chart triangleID ∧
    loop_inv a (recs ++ [r]) s' ∧
    chart_loop_inv (a, c) chart uvBase uvCache' (recs ++ [r]) s'.
Proof.
  intros Ha (tri & Htri & Hpids)
    (Htris & Htu & Hcount & Haid & Hpre & Hlen & Hatl & Hcache & Hrin & Hcorner & Hsplit)
    (Huv & Hchart).
  (* registering the triangle in its atlas *)
  pose proof (Hatl a Ha) as Hatla.
  set (s_r := mkUvState (g_pts s) (g_tris s) (g_uvCoords s) (g_trisUvIds s)
        (<[a := atlas_members a (r_item <$> recs) ++ [g_triangleCount s]]> (g_atlases s))
        (g_vertexCache s) (g_updatedPointsCams s) (g_atlasId s) (g_triangleCount s)).
  assert (registerInAtlas s = Some s_r) as Hreg.
  { unfold registerInAtlas. rewrite Haid, vec_at_nat, Hatla. simpl.
    rewrite vec_set_nat by lia. subst s_r. rewrite Haid. done. }
  (* the three points *)
  destruct (processCorner_spec chart uvBase (v0 tri) uvCache s_r)
    as (n0 & u0 & uvCache0 & s0 & Hrun0 & Hext0 & Hsub0 & Hcache0 & Huv0 & Hv0 & Hu0 & Hp0);
    [done|done|apply Hpids, list_elem_of_In; simpl; auto|apply Hpids, list_elem_of_In; simpl; auto|].
  destruct (processCorner_spec chart uvBase (v1 tri) uvCache0 s0)
    as (n1 & u1 & uvCache1 & s1 & Hrun1 & Hext1 & Hsub1 & Hcache1 & Huv1 & Hv1 & Hu1 & Hp1);
    [done|done|apply Hpids, list_elem_of_In; simpl; auto|apply Hpids, list_elem_of_In; simpl; auto|].
  destruct (processCorner_spec chart uvBase (v2 tri) uvCache1 s1)
    as (n2 & u2 & uvCache2 & s2 & Hrun2 & Hext2 & Hsub2 & Hcache2 & Huv2 & Hv2 & Hu2 & Hp2);
    [done|done|apply Hpids, list_elem_of_In; simpl; auto|apply Hpids, list_elem_of_In; simpl; auto|].
  pose proof (uv_extends_trans _ _ _ Hext0 Hext1) as Hext01.
  pose proof (uv_extends_trans _ _ _ Hext1 Hext2) as Hext12.
  pose proof (uv_extends_trans _ _ _ Hext01 Hext2) as Hext02.
  set (r := mkUvRecord (mkWorkItem a c chart triangleID) tri
              (mkTriangle n0 n1 n2) (mkVoxel u0 u1 u2)).
  exists r, uvCache2, (pushTriangle (mkTriangle n0 n1 n2) (mkVoxel u0 u1 u2) s2).
  split.
  { unfold processTriangle. simpl. rewrite Hreg. simpl. rewrite Htri. simpl.
    rewrite Hrun0. simpl. rewrite Hrun1. simpl. rewrite Hrun2. simpl. done. }
  split; [done|].
  pose proof Hext02 as Hext02'.
  destruct Hext02 as (Hpts02 & Huvs02 & Hcache02 & Htris02 & Htu02 & Hatl02 & Haid02 & Hcnt02).
  (* the corners of the new record *)
  assert (∀ c', c' ∈ record_corners r →
            corner_inv s2 r c' ∧ uvCache2 !! c_vertex c' = Some (c_uv c')) as Hnew.
  { intros c' Hc'. unfold record_corners in Hc'. simpl in Hc'.
    destruct Hext12 as (_ & Huvs12 & Hcache12 & _).
    destruct Hext2 as (_ & Huvs2 & Hcache2' & _).
    destruct Hp0 as (p0 & Hp0 & Hp0'). destruct Hp1 as (p1 & Hp1 & Hp1').
    destruct Hp2 as (p2 & Hp2 & Hp2').
    apply list_elem_of_In in Hc'. simpl in Hc'.
    destruct Hc' as [<-|[<-|[<-|[]]]]; simpl; (split; [split|]); simpl.
    - eapply lookup_weaken; [exact Hv0|exact Hcache12].
    - exists p0. split; [done|]. eapply vec_at_prefix; [exact Huvs12|exact Hp0'].
    - eapply lookup_weaken; [|exact Hsub2]. eapply lookup_weaken; [exact Hu0|exact Hsub1].
    - eapply lookup_weaken; [exact Hv1|exact Hcache2'].
    - exists p1. split; [done|]. eapply vec_at_prefix; [exact Huvs2|exact Hp1'].
    - eapply lookup_weaken; [exact Hu1|exact Hsub2].
    - done.
    - by exists p2.
    - done. }
  assert (∀ r' c', r' ∈ recs ++ [r] → c' ∈ record_corners r' →
     if decide (r_chart r' = (a, c)) then uvCache2 !! c_vertex c' = Some (c_uv c')
     else c_uv c' < uvBase) as Hchart2.
  { intros r' c' Hr' Hc'. apply elem_of_app in Hr' as [Hr'|Hr'].
    - specialize (Hchart r' c' Hr' Hc'). case_decide; [|done].
      eapply lookup_weaken; [|exact Hsub2]. eapply lookup_weaken; [|exact Hsub1].
      by eapply lookup_weaken.
    - apply list_elem_of_singleton in Hr'. subst r'.
      rewrite decide_True by done. by apply Hnew. }
  split.
  - (* the invariant of the loops *)
    unfold uv_inv. simpl. split_and!.
    + rewrite Htris02. simpl. rewrite Htris, fmap_app. done.
    + rewrite Htu02. simpl. rewrite Htu, fmap_app, (assoc_L (++)). done.
    + rewrite Hcnt02. simpl. rewrite Hcount, length_app. simpl. lia.
    + rewrite Haid02. done.
    + etrans; [exact Hpre|]. done.
    + rewrite Hatl02. simpl. by rewrite length_insert.
    + intros a' Ha'. rewrite Hatl02. rewrite fmap_app.
      change (r_item <$> [r]) with [r_item r]. rewrite atlas_members_snoc.
      subst s_r. cbn [g_atlases r_item r w_atlas].
      destruct (decide (a = a')) as [<-|Hne].
      * rewrite list_lookup_insert_eq by lia. rewrite Hcount, length_fmap. done.
      * rewrite list_lookup_insert_ne by done. rewrite app_nil_r. by apply Hatl.
    + done.
    + split_and!.
      * intros r' Hr'. apply elem_of_app in Hr' as [Hr'|Hr']; [by apply Hrin|].
        apply list_elem_of_singleton in Hr'. by subst r'.
      * intros r' c' Hr' Hc'. apply elem_of_app in Hr' as [Hr'|Hr'].
        -- assert (corner_inv s2 r' c') as Hc2; [|exact Hc2].
           eapply (corner_ok_extends s_r); [exact Hext02'|]. by apply Hcorner.
        -- apply list_elem_of_singleton in Hr'. subst r'.
           destruct (Hnew c' Hc') as [Hc2 _]. exact Hc2.
      * eapply (uv_split_snoc (a, c) uvCache2 uvBase); try done.
        intros v u Hvu. destruct Huv2 as [_ Huv2]. by destruct (Huv2 v u Hvu).
  - split; [done|]. exact Hchart2.
Qed.


Local Arguments processTriangle : simpl never.

Lemma processTriangles_spec a c chart uvBase triangles : ∀ uvCache recs s,
  (a < nAtl)%nat → (∀ triangleID, triangleID ∈ triangles → wf_triangle mesh vis triangleID) →
  loop_inv a recs s → chart_loop_inv (a, c) chart uvBase uvCache recs s →
  ∃ recs' st',
    for_each (process_triangle chart (Pixel_sub (targetLU chart) (sourceLU chart)))
      triangles (uvCache, s) = Some st' ∧
    r_item <$> recs' = mkWorkItem a c chart <$> triangles ∧
    loop_inv a (recs ++ recs') st'.2.
Proof.
  induction triangles as [|triangleID triangles IH]; intros uvCache recs s Ha Hwf Hinv Hchart.
  - exists [], (uvCache, s). rewrite app_nil_r. done.
  - destruct (processTriangle_spec a c chart uvBase triangleID uvCache recs s)
      as (r & uvCache' & s' & Hrun & Hitem & Hinv' & Hchart'); try done.
    { apply Hwf. left. }
    destruct (IH uvCache' (recs ++ [r]) s') as (recs' & st' & Hrun' & Hitems & Hinv'');
      try done.
    { intros tid Htid. apply Hwf. by right. }
    exists (r :: recs'), st'. split_and!.
    + simpl. rewrite Hrun. simpl. done.
    + rewrite !fmap_cons. by rewrite Hitem, Hitems.
    + by rewrite <-(assoc_L (++)) in Hinv''.
Qed.

(** The body of the loop over the charts of an atlas. *)
Lemma processChart_spec a c chart recs s :
  (a < nAtl)%nat → wf_chart mesh vis chart →
  loop_inv a recs s → (∀ r, r ∈ recs → r_chart r ≠ (a, c)) →
  ∃ recs' s',
    process_chart chart s = Some s' ∧
    r_item <$> recs' = chart_work a c chart ∧
    loop_inv a (recs ++ recs') s'.
Proof.
  intros Ha Hwf Hinv Hother.
  destruct (processTriangles_spec a c chart (Z.of_nat (length (g_uvCoords s)))
              (triangleIDs chart) ∅ recs s) as (recs' & st' & Hrun & Hitems & Hinv');
    try done.
  { split.
    - split; [done|]. intros v u Hvu. by rewrite lookup_empty in Hvu.
    - intros r c' Hr Hc'. rewrite decide_False by by apply Hother.
      destruct Hinv as (_ & _ & _ & _ & _ & _ & _ & _ & _ & Hcorner & _).
      destruct (Hcorner r c' Hr Hc') as (_ & p & _ & Huv).
      apply vec_at_length in Huv. lia. }
  exists recs', st'.2. split; [|done].
  unfold processChart. rewrite Hrun. done.
Qed.

Lemma atlas_work_cons a c0 chart charts :
  atlas_work a c0 (chart :: charts) = chart_work a c0 chart ++ atlas_work a (S c0) charts.
Proof.
  unfold atlas_work. rewrite imap_cons. simpl. rewrite Nat.add_0_r. do 2 f_equal.
  apply imap_ext. intros i x _. simpl. f_equal. lia.
Qed.

Lemma atlases_work_cons a0 charts atlasesIn :
  atlases_work a0 (charts :: atlasesIn) =
  atlas_work a0 0 charts ++ atlases_work (S a0) atlasesIn.
Proof.
  unfold atlases_work. rewrite imap_cons. simpl. rewrite Nat.add_0_r. do 2 f_equal.
  apply imap_ext. intros i x _. simpl. f_equal. lia.
Qed.

Lemma chart_work_item a c chart w :
  w ∈ chart_work a c chart → w_atlas w = a ∧ w_chart w = c ∧ w_data w = chart.
Proof.
  unfold chart_work. intros (tid & -> & _)%list_elem_of_fmap. done.
Qed.

Local Arguments processChart : simpl never.

Lemma processCharts_spec a charts : ∀ c0 recs s,
  (a < nAtl)%nat → (∀ chart, chart ∈ charts → wf_chart mesh vis chart) →
  loop_inv a recs s →
  (∀ r, r ∈ recs → w_atlas (r_item r) = a → (w_chart (r_item r) < c0)%nat) →
  ∃ recs' s',
    for_each process_chart charts s = Some s' ∧
    r_item <$> recs' = atlas_work a c0 charts ∧
    loop_inv a (recs ++ recs') s'.
Proof.
  induction charts as [|chart charts IH]; intros c0 recs s Ha Hwf Hinv Hord.
  - exists [], s. rewrite app_nil_r. done.
  - destruct (processChart_spec a c0 chart recs s) as (recs1 & s1 & Hrun1 & Hitems1 & Hinv1);
      try done.
    { apply Hwf. left. }
    { intros r Hr [= Hra Hrc]. specialize (Hord r Hr Hra). lia. }
    destruct (IH (S c0) (recs ++ recs1) s1) as (recs2 & s2 & Hrun2 & Hitems2 & Hinv2);
      try done.
    { intros ch Hch. apply Hwf. by right. }
    { intros r Hr Hra. apply elem_of_app in Hr as [Hr|Hr].
      - specialize (Hord r Hr Hra). lia.
      - assert (r_item r ∈ chart_work a c0 chart) as Hw.
        { rewrite <-Hitems1. by apply list_elem_of_fmap_2. }
        apply chart_work_item in Hw as (_ & -> & _). lia. }
    exists (recs1 ++ recs2), s2. split_and!.
    + simpl. rewrite Hrun1. simpl. done.
    + by rewrite fmap_app, Hitems1, Hitems2, atlas_work_cons.
    + by rewrite (assoc_L (++)).
Qed.

Lemma atlas_work_item a c0 charts w :
  w ∈ atlas_work a c0 charts → w_atlas w = a.
Proof.
  revert c0. induction charts as [|chart charts IH]; intros c0.
  - unfold atlas_work. simpl. by intros ?%elem_of_nil.
  - rewrite atlas_work_cons. intros [Hw|Hw]%elem_of_app.
    + by apply chart_work_item in Hw as (? & _).
    + by eapply IH.
Qed.

(** The body of the loop over the atlases. *)
Lemma processAtlas_spec a charts recs s :
  (a < nAtl)%nat → (∀ chart, chart ∈ charts → wf_chart mesh vis chart) →
  loop_inv a recs s → (∀ r, r ∈ recs → (w_atlas (r_item r) < a)%nat) →
  ∃ recs' s',
    process_atlas charts s = Some s' ∧
    r_item <$> recs' = atlas_work a 0 charts ∧
    loop_inv (S a) (recs ++ recs') s'.
Proof.
  intros Ha Hwf Hinv Hord.
  destruct (processCharts_spec a charts 0%nat recs s) as (recs' & s' & Hrun & Hitems & Hinv');
    try done.
  { intros r Hr Hra. specialize (Hord r Hr). lia. }
  exists recs', (nextAtlas s'). split_and!; try done.
  - unfold processAtlas. rewrite Hrun. done.
  - destruct Hinv' as (? & ? & ? & Haid & ? & ? & ? & ? & ?).
    unfold uv_inv. split_and!; try done. simpl. rewrite Haid. lia.
Qed.

Local Arguments processAtlas : simpl never.

Lemma processAtlases_spec atlasesIn : ∀ a0 recs s,
  (a0 + length atlasesIn <= nAtl)%nat → wf_atlases mesh vis atlasesIn →
  loop_inv a0 recs s → (∀ r, r ∈ recs → (w_atlas (r_item r) < a0)%nat) →
  ∃ recs' s',
    for_each process_atlas atlasesIn s = Some s' ∧
    r_item <$> recs' = atlases_work a0 atlasesIn ∧
    loop_inv (a0 + length atlasesIn) (recs ++ recs') s'.
Proof.
  induction atlasesIn as [|charts atlasesIn IH]; intros a0 recs s Hlen Hwf Hinv Hord.
  - exists [], s. rewrite app_nil_r, Nat.add_0_r. done.
  - simpl in Hlen.
    destruct (processAtlas_spec a0 charts recs s) as (recs1 & s1 & Hrun1 & Hitems1 & Hinv1);
      try done; [lia| |].
    { intros chart Hchart. apply (Hwf charts chart); [left|done]. }
    destruct (IH (S a0) (recs ++ recs1) s1) as (recs2 & s2 & Hrun2 & Hitems2 & Hinv2);
      try done; [lia| | |].
    { intros chs ch Hchs Hch. apply (Hwf chs ch); [by right|done]. }
    { intros r [Hr|Hr]%elem_of_app.
      - specialize (Hord r Hr). lia.
      - assert (r_item r ∈ atlas_work a0 0 charts) as Hw.
        { rewrite <-Hitems1. by apply list_elem_of_fmap_2. }
        apply atlas_work_item in Hw. lia. }
    exists (recs1 ++ recs2), s2. split_and!.
    + simpl. rewrite Hrun1. simpl. done.
    + by rewrite fmap_app, Hitems1, Hitems2, atlases_work_cons.
    + rewrite (assoc_L (++)). simpl.
      by replace (a0 + S (length atlasesIn))%nat with (S a0 + length atlasesIn)%nat by lia.
Qed.

End GenerateUVsProofs.

(** ** generateUVs as a whole *)

Lemma atlas_members_elem a work z :
  z ∈ atlas_members a work ↔
  ∃ (j : nat) w, z = Z.of_nat j ∧ work !! j = Some w ∧ w_atlas w = a.
Proof.
  unfold atlas_members. rewrite list_elem_of_omap. split.
  - intros ([j w] & Hjw & Hf). simpl in Hf. case_decide; [|done].
    injection Hf as <-. apply elem_of_lookup_imap in Hjw as (i & y & [= -> ->] & Hl).
    eauto.
  - intros (j & w & -> & Hl & Ha). exists (j, w). split.
    + apply elem_of_lookup_imap. eauto.
    + simpl. by rewrite decide_True.
Qed.

Lemma atlas_members_NoDup a work : NoDup (atlas_members a work).
Proof.
  induction work as [|w work IH] using rev_ind; [constructor|].
  rewrite atlas_members_snoc. case_decide; [|by rewrite app_nil_r].
  apply NoDup_app. split; [done|]. split; [|apply NoDup_singleton].
  intros z Hz Hz'. apply list_elem_of_singleton in Hz'. subst z.
  apply atlas_members_elem in Hz as (j & w' & Hj & Hl & _).
  apply lookup_lt_Some in Hl. lia.
Qed.

Section GenerateUVsSpec.

Variable getPixelFor3DPoint : Point3d → Z → Point2d.
Variable isPixelInImage : Point2d → Z → bool.
Variable packCharts : Mesh → option PointsVisibility → Z → Z → list (list Chart).

(** With a mesh that is not empty and charts that name triangles and points
    of the mesh, [generateUVs] returns, and the loops have kept their
    invariant. *)
Lemma generateUVs_spec t mesh vis :
  me t = Some mesh → pointsVisibilities t = Some vis →
  pts mesh ≠ [] → tris mesh ≠ [] →
  let side := textureSide (texParams t) in
  let atlasesIn := packCharts mesh (Some vis) side (padding (texParams t)) in
  wf_atlases mesh vis atlasesIn →
  ∃ recs s,
    generateUVs getPixelFor3DPoint isPixelInImage packCharts t
      = Returns (uv_state_commit t s) ∧
    r_item <$> recs = uv_work atlasesIn ∧
    uv_inv getPixelFor3DPoint isPixelInImage mesh side (uvCoords t) (trisUvIds t)
      (length atlasesIn) (length atlasesIn) recs s.
Proof.
  intros Hme Hvis Hpts Htris side atlasesIn Hwf.
  destruct (processAtlases_spec getPixelFor3DPoint isPixelInImage mesh vis side
              (uvCoords t) (trisUvIds t) (length atlasesIn) atlasesIn 0%nat []
              (uv_state_init t (mkUVAtlas atlasesIn side)))
    as (recs & s & Hrun & Hitems & Hinv).
  - simpl. lia.
  - done.
  - unfold uv_inv, uv_state_init. simpl.
    split; [done|]. split; [by rewrite app_nil_r|]. split; [done|]. split; [done|].
    split; [done|]. split; [by rewrite length_replicate|].
    split; [intros a Ha; by rewrite lookup_replicate_2|].
    split.
    + unfold cache_ok. simpl. split; [|split; [|split]].
      * intros pid v Hv. by rewrite lookup_empty in Hv.
      * intros pid pid' v Hv. by rewrite lookup_empty in Hv.
      * intros v Hv. lia.
      * done.
    + split; [|split].
      * intros r Hr. by apply elem_of_nil in Hr.
      * intros r c Hr. by apply elem_of_nil in Hr.
      * intros r c r' c' Hr. by apply elem_of_nil in Hr.
  - intros r Hr. by apply elem_of_nil in Hr.
  - exists recs, s. split; [|done].
    unfold generateUVs, UVAtlas_new. rewrite Hme, Hvis.
    rewrite decide_False by tauto. simpl.
    fold side. fold atlasesIn. rewrite Hrun. done.
Qed.

End GenerateUVsSpec.

(** ** generateUVs: what it guarantees *)


Lemma atlases_work_item a0 atlasesIn w :
  w ∈ atlases_work a0 atlasesIn → (a0 <= w_atlas w < a0 + length atlasesIn)%nat.
Proof.
  revert a0. induction atlasesIn as [|charts atlasesIn IH]; intros a0.
  - unfold atlases_work. simpl. by intros ?%elem_of_nil.
  - rewrite atlases_work_cons. intros [Hw|Hw]%elem_of_app.
    + apply atlas_work_item in Hw. simpl. lia.
    + apply IH in Hw. simpl. lia.
Qed.

Lemma Qcdiv_le_1 (x s : Qc) : (0 < s → x ≤ s → x / s ≤ 1)%Qc.
Proof.
  intros Hs Hx. unfold Qcdiv.
  rewrite <- (Qcmult_inv_r s) by (intros ->; by apply Qclt_not_eq in Hs).
  apply Qcmult_le_mono_nonneg_r; [|done].
  apply Qclt_le_weak. by apply Qcinv_pos.
Qed.

Lemma Qcdiv_nonneg (x s : Qc) : (0 < s → 0 ≤ x → 0 ≤ x / s)%Qc.
Proof.
  intros Hs Hx. unfold Qcdiv. apply Qcmult_nonneg_nonneg; [done|].
  apply Qclt_le_weak. by apply Qcinv_pos.
Qed.

Section GenerateUVsClaims.

Variable getPixelFor3DPoint : Point3d → Z → Point2d.
Variable isPixelInImage : Point2d → Z → bool.
Variable packCharts : Mesh → option PointsVisibility → Z → Z → list (list Chart).

Lemma chartUV_origin side chart p :
  refCameraID chart = -1 ∨
  isPixelInImage (getPixelFor3DPoint p (refCameraID chart)) (refCameraID chart) = false →
  chartUV getPixelFor3DPoint isPixelInImage side chart p = Point2d_default.
Proof.
  unfold chartUV, computeUV. intros [Hc|Him].
  - by rewrite decide_False by (intros ?; done).
  - case_decide; [|done]. by rewrite Him.
Qed.

(** In a texture of side 2 or more, a position inside the texture has both
    its UV coordinates between 0 and 1, below [textureSide]. *)
Lemma chartUV_in_texture side chart p :
  let pos := texturePosition getPixelFor3DPoint chart p in
  refCameraID chart ≠ -1 →
  isPixelInImage (getPixelFor3DPoint p (refCameraID chart)) (refCameraID chart) = true →
  2 <= side → in_texture side pos →
  chartUV getPixelFor3DPoint isPixelInImage side chart p =
    mkPoint2d (p2_x pos / Qc_of_Z side) (1 - p2_y pos / Qc_of_Z side).
Proof.
  intros pos Hc Him Hside [[Hx0 Hx1] [Hy0 Hy1]]. subst pos.
  unfold texturePosition in *. cbn [p2_x p2_y Point2d_add Pixel_sub pix_x pix_y] in *.
  assert (Hs : (0 < Qc_of_Z side)%Qc).
  { rewrite <- Z2Qc_inj_0. apply (proj1 (Z2Qc_inj_lt 0 side)). lia. }
  assert (H1s : (1 < Qc_of_Z side)%Qc).
  { rewrite <- Z2Qc_inj_1. apply (proj1 (Z2Qc_inj_lt 1 side)). lia. }
  pose proof (Qcdiv_le_1 _ _ Hs Hx1) as Hu1.
  pose proof (Qcdiv_nonneg _ _ Hs Hy0) as Hv0.
  set (u := (_ / _)%Qc) in Hu1. set (v := (_ / _)%Qc) in Hv0.
  assert (Hf1 : (1 - v ≤ 1)%Qc).
  { apply (Qcplus_le_mono_r _ _ v). replace (1 - v + v)%Qc with (1 + 0)%Qc by ring.
    by apply Qcplus_le_mono_l. }
  unfold chartUV, computeUV. simpl. fold u v.
  rewrite decide_True by done. rewrite Him.
  rewrite decide_False; [done|].
  intros [H|H]; apply Qcle_ngt in H; apply H.
  - by apply Qcle_lt_trans with 1%Qc.
  - by apply Qcle_lt_trans with 1%Qc.
Qed.

(** C1. On a mesh that is not empty, with charts naming triangles and
    points of the mesh, [generateUVs] returns; every triangle of every chart
    gives exactly one triangle of the new mesh, in the order of the loops,
    whose vertices copy the points of the chart triangle; the atlas lists
    have the positions of the triangles of their charts, so the triangle [j]
    is in the list of the atlas of its chart and in no other, and no list
    holds an index twice or an index that is not a triangle of the new
    mesh. *)
Theorem generateUVs_atlases_partition t mesh vis :
  me t = Some mesh → pointsVisibilities t = Some vis →
  pts mesh ≠ [] → tris mesh ≠ [] →
  let atlasesIn :=
    packCharts mesh (Some vis) (textureSide (texParams t)) (padding (texParams t)) in
  let work := uv_work atlasesIn in
  wf_atlases mesh vis atlasesIn →
  ∃ recs t' mesh',
    generateUVs getPixelFor3DPoint isPixelInImage packCharts t = Returns t' ∧
    me t' = Some mesh' ∧
    r_item <$> recs = work ∧ tris mesh' = r_out <$> recs ∧
    (∀ r c, r ∈ recs → c ∈ record_corners r →
       vec_at (tris mesh) (w_triangle (r_item r)) = Some (r_in r) ∧
       ∃ p, vec_at (pts mesh) (c_point c) = Some p ∧
            vec_at (pts mesh') (c_vertex c) = Some p) ∧
    length (tris mesh') = length work ∧
    length (_atlases t') = length atlasesIn ∧
    (∀ a, (a < length atlasesIn)%nat → _atlases t' !! a = Some (atlas_members a work)) ∧
    (∀ (j : nat) w, work !! j = Some w →
       ∀ a, (∃ l, _atlases t' !! a = Some l ∧ Z.of_nat j ∈ l) ↔ a = w_atlas w) ∧
    (∀ a l, _atlases t' !! a = Some l →
       NoDup l ∧ ∀ z, z ∈ l → 0 <= z < Z.of_nat (length (tris mesh'))).
Proof.
  intros Hme Hvis Hpts Htris atlasesIn work Hwf.
  destruct (generateUVs_spec getPixelFor3DPoint isPixelInImage packCharts t mesh vis)
    as (recs & s & Hrun & Hitems & Hinv); try done.
  fold atlasesIn in Hitems, Hinv. fold work in Hitems.
  destruct Hinv as (Htris' & _ & _ & _ & _ & Hlen & Hatl & (Hcp & _) & Hrin & Hcorner & _).
  rewrite Hitems in Hatl.
  assert (length (g_tris s) = length work) as Hcount.
  { by rewrite Htris', <-Hitems, !length_fmap. }
  exists recs, (uv_state_commit t s), (mkMesh (g_pts s) (g_tris s)).
  split; [done|]. split; [done|]. split; [done|]. split; [done|]. split.
  { intros r c Hr Hc. split; [by apply Hrin|].
    destruct (Hcorner r c Hr Hc) as (Hv & p & Hp & _).
    destruct (Hcp _ _ Hv) as (p' & Hp' & Hpv). exists p. split; [done|].
    simpl. congruence. }
  simpl. split; [done|]. split; [done|]. split; [done|]. split.
  - intros j w Hw a. split.
    + intros (l & Hl & Hj).
      assert (a < length atlasesIn)%nat as Ha.
      { apply lookup_lt_Some in Hl. lia. }
      rewrite (Hatl a Ha) in Hl. injection Hl as <-.
      apply atlas_members_elem in Hj as (j' & w' & Hjj & Hw' & <-).
      apply Nat2Z.inj in Hjj. subst j'. congruence.
    + intros ->.
      assert (w_atlas w < length atlasesIn)%nat as Ha.
      { apply list_elem_of_lookup_2 in Hw. apply atlases_work_item in Hw. lia. }
      exists (atlas_members (w_atlas w) work). split; [by apply Hatl|].
      apply atlas_members_elem. eauto.
  - intros a l Hl.
    assert (a < length atlasesIn)%nat as Ha.
    { apply lookup_lt_Some in Hl. lia. }
    rewrite (Hatl a Ha) in Hl. injection Hl as <-.
    split; [apply atlas_members_NoDup|].
    intros z (j & w & -> & Hw & _)%atlas_members_elem.
    apply lookup_lt_Some in Hw. lia.
Qed.

(** C5 (amended). For every corner of every triangle walked by
    [generateUVs]: if the chart has a reference camera and the point projects
    inside its image, then, in a texture of side 2 or more in which the
    projection shifted by the offset of the chart lies (both coordinates
    between 0 and [textureSide]), the UV stored is that position over
    [textureSide], the vertical coordinate replaced by 1 minus itself;
    without a reference camera or with a projection outside the image, the
    UV stored is the origin. *)
Theorem generateUVs_stored_uv t mesh vis :
  me t = Some mesh → pointsVisibilities t = Some vis →
  pts mesh ≠ [] → tris mesh ≠ [] →
  let side := textureSide (texParams t) in
  let atlasesIn := packCharts mesh (Some vis) side (padding (texParams t)) in
  wf_atlases mesh vis atlasesIn →
  ∃ recs t' mesh',
    generateUVs getPixelFor3DPoint isPixelInImage packCharts t = Returns t' ∧
    r_item <$> recs = uv_work atlasesIn ∧
    me t' = Some mesh' ∧ tris mesh' = r_out <$> recs ∧
    trisUvIds t' = trisUvIds t ++ (r_uv <$> recs) ∧
    ∀ r c, r ∈ recs → c ∈ record_corners r →
      vec_at (tris mesh) (w_triangle (r_item r)) = Some (r_in r) ∧
      ∃ p uv,
        vec_at (pts mesh) (c_point c) = Some p ∧
        vec_at (uvCoords t') (c_uv c) = Some uv ∧
        let chart := w_data (r_item r) in
        let cam := refCameraID chart in
        let pix := getPixelFor3DPoint p cam in
        let pos := texturePosition getPixelFor3DPoint chart p in
        (cam ≠ -1 → isPixelInImage pix cam = true →
         2 <= side → in_texture side pos →
         uv = mkPoint2d (p2_x pos / Qc_of_Z side) (1 - p2_y pos / Qc_of_Z side)) ∧
        (cam = -1 ∨ isPixelInImage pix cam = false → uv = Point2d_default).
Proof.
  intros Hme Hvis Hpts Htris side atlasesIn Hwf.
  destruct (generateUVs_spec getPixelFor3DPoint isPixelInImage packCharts t mesh vis)
    as (recs & s & Hrun & Hitems & Hinv); try done.
  fold side in Hitems, Hinv. fold atlasesIn in Hitems, Hinv.
  destruct Hinv as (Htris' & Htu & _ & _ & _ & _ & _ & _ & Hrin & Hcorner & _).
  exists recs, (uv_state_commit t s), (mkMesh (g_pts s) (g_tris s)).
  split; [done|]. split; [done|]. split; [done|]. split; [done|]. split; [done|].
  intros r c Hr Hc. split; [by apply Hrin|].
  destruct (Hcorner r c Hr Hc) as (_ & p & Hp & Huv).
  exists p, (chartUV getPixelFor3DPoint isPixelInImage side (w_data (r_item r)) p).
  split; [done|]. split; [done|]. cbv zeta. split.
  - intros Hcam Him Hside Hin. by apply chartUV_in_texture.
  - apply chartUV_origin.
Qed.


End GenerateUVsClaims.

Lemma wf_quad_charts : wf_atlases quad_mesh quad_visibility [[chart_front; chart_back]].
Proof.
  intros charts chart Hcharts Hchart triangleID Htri.
  apply list_elem_of_In in Hcharts. simpl in Hcharts. destruct Hcharts as [<-|[]].
  apply list_elem_of_In in Hchart. simpl in Hchart.
  destruct Hchart as [<-|[<-|[]]]; apply list_elem_of_In in Htri; simpl in Htri;
    destruct Htri as [<-|[]]; (eexists; split; [reflexivity|]);
    intros pointId Hpoint; apply list_elem_of_In in Hpoint; simpl in Hpoint;
    destruct Hpoint as [<-|[<-|[<-|[]]]]; simpl; lia.
Defined.

Lemma generateUVs_atlases_partition_witness :
  ∃ t' mesh',
    generateUVs flat_projection whole_plane_image pack_two_charts texturing_quad
      = Returns t' ∧
    me t' = Some mesh' ∧ length (tris mesh') = 2%nat.
Proof.
  destruct (generateUVs_atlases_partition flat_projection whole_plane_image pack_two_charts
              texturing_quad quad_mesh quad_visibility)
    as (recs & t' & mesh' & Hrun & Hme & _ & _ & _ & Hlen & _).
  - reflexivity.
  - reflexivity.
  - discriminate.
  - discriminate.
  - exact wf_quad_charts.
  - exists t', mesh'. split; [exact Hrun|]. split; [exact Hme|exact Hlen].
Defined.

Lemma generateUVs_stored_uv_witness :
  ∃ t' uvIds,
    generateUVs flat_projection whole_plane_image pack_two_charts texturing_quad
      = Returns t' ∧
    trisUvIds t' !! 0%nat = Some uvIds ∧
    vec_at (uvCoords t') (m0 uvIds) = Some (mkPoint2d (Q2Qc (1 # 8)) (Q2Qc (7 # 8))).
Proof.
  destruct (generateUVs_stored_uv flat_projection whole_plane_image pack_two_charts
              texturing_quad quad_mesh quad_visibility)
    as (recs & t' & mesh' & Hrun & Hitems & _ & _ & Hids & Hcorners).
  - reflexivity.
  - reflexivity.
  - discriminate.
  - discriminate.
  - exact wf_quad_charts.
  - destruct recs as [|r recs]; [discriminate Hitems|].
    injection Hitems as Hitem _.
    destruct (Hcorners r (mkCorner (v0 (r_in r)) (v0 (r_out r)) (m0 (r_uv r))))
      as (Hin & p & uv & Hp & Huv & Hcam & _).
    + apply list_elem_of_here.
    + apply list_elem_of_here.
    + rewrite Hitem in Hin, Hcam. injection Hin as Hin. rewrite <- Hin in Hp.
      injection Hp as Hp. rewrite <- Hp in Hcam.
      exists t', (r_uv r). split; [exact Hrun|]. split; [by rewrite Hids|].
      simpl in Huv. rewrite Huv. f_equal. rewrite Hcam.
      * apply (bool_decide_unpack _). vm_compute. exact I.
      * discriminate.
      * reflexivity.
      * simpl. lia.
      * apply (bool_decide_unpack _). vm_compute. exact I.
Defined.


(** C5, as stated, fails in a texture of side 1: the quad fills the
    texture, its chart has the camera 0 as reference, the first corner of the
    triangle 0 is the point 0, which projects inside the image, onto the
    position (0, 0) of the texture; that position over [textureSide], the
    vertical coordinate replaced by 1 minus itself, is (0, 1); yet the UV
    stored for that corner is the origin. *)
Lemma generateUVs_resets_uv_in_texture :
  textureSide (texParams texturing_unit) = 1 ∧
  (∀ p, p ∈ pts quad_mesh → in_texture 1 (texturePosition flat_projection chart_unit p)) ∧
  vec_at (tris quad_mesh) 0 = Some (mkTriangle 0 1 2) ∧
  vec_at (pts quad_mesh) 0 = Some (mkPoint3d 0 0 0) ∧
  refCameraID chart_unit ≠ -1 ∧
  whole_plane_image (flat_projection (mkPoint3d 0 0 0) 0) 0 = true ∧
  (let pos := texturePosition flat_projection chart_unit (mkPoint3d 0 0 0) in
   mkPoint2d (p2_x pos / Qc_of_Z 1) (1 - p2_y pos / Qc_of_Z 1) = mkPoint2d 0 1) ∧
  match generateUVs flat_projection whole_plane_image pack_unit_chart texturing_unit with
  | Returns t' => uvIds ← trisUvIds t' !! 0%nat; vec_at (uvCoords t') (m0 uvIds)
  | _ => None
  end = Some Point2d_default ∧
  mkPoint2d 0 1 ≠ Point2d_default.
Proof.
  split; [reflexivity|]. split.
  { intros p Hp. apply list_elem_of_In in Hp. simpl in Hp.
    destruct Hp as [<-|[<-|[<-|[<-|[]]]]]; apply (bool_decide_unpack _); vm_compute;
      exact I. }
  split; [reflexivity|]. split; [reflexivity|]. split; [discriminate|].
  split; [reflexivity|]. split; [|split].
  - apply (bool_decide_unpack _). vm_compute. exact I.
  - reflexivity.
  - discriminate.
Qed.

(** * Further properties *)

(** ** Unwrap methods *)

(** X1. The two conversions of unwrap methods are inverse of each other:
    every method's name reads back as that method, a string that reads as a
    method is that method's name, and any other string is refused with
    "Invalid unwrap method " followed by the string. *)
Theorem EUnwrapMethod_round_trip (method : string) :
  (∀ m, EUnwrapMethod_stringToEnum (EUnwrapMethod_enumToString m) = inr m) ∧
  match EUnwrapMethod_stringToEnum method with
  | inr m => EUnwrapMethod_enumToString m = method
  | inl what =>
      what = "Invalid unwrap method " +:+ method ∧
      ∀ m, EUnwrapMethod_enumToString m ≠ method
  end.
Proof.
  split; [by intros []|].
  unfold EUnwrapMethod_stringToEnum.
  repeat case_decide; subst; try done.
  split; [done|]. by intros [] <-.
Qed.

(** ** toGeoMesh and generateTextures *)

Lemma foldl_app_concat {A B} (f : A → list B) (l : list A) (acc : list B) :
  foldl (λ acc x, acc ++ f x) acc l = acc ++ concat (f <$> l).
Proof.
  revert acc. induction l as [|x l IH]; intros acc; simpl.
  - by rewrite app_nil_r.
  - by rewrite IH, app_assoc.
Qed.

Lemma concat_triples_lookup {A B} (f : A → list B) (l : list A) :
  (∀ x, length (f x) = 3%nat) →
  length (concat (f <$> l)) = (3 * length l)%nat ∧
  ∀ i x k c, l !! i = Some x → f x !! k = Some c →
    concat (f <$> l) !! (3 * i + k)%nat = Some c.
Proof.
  intros Hlen. induction l as [|y l [IHl IH]]; rewrite ?fmap_cons; cbn [concat].
  - split; [done|]. intros i x k c Hi. by rewrite lookup_nil in Hi.
  - split; [rewrite length_app, Hlen, IHl, length_cons; lia|].
    intros [|i] x k c Hi Hk; simpl in Hi.
    + injection Hi as ->. rewrite lookup_app_l; [done|].
      by apply lookup_lt_Some in Hk.
    + rewrite lookup_app_r by (rewrite Hlen; lia).
      rewrite Hlen. replace (3 * S i + k - 3)%nat with (3 * i + k)%nat by lia.
      by eapply IH.
Qed.

(** X4. [toGeoMesh] hands geogram three coordinates per point and three
    indices per triangle, in order: the coordinate [k] of the point [i] is
    at [3 i + k] of the vertices, the corner [k] of the triangle [i] at
    [3 i + k] of the facets, as an unsigned index. *)
Theorem toGeoMesh_layout (src : Mesh) :
  length (toGeoMesh src).1 = (3 * length (pts src))%nat ∧
  length (toGeoMesh src).2 = (3 * length (tris src))%nat ∧
  (∀ i point k c, pts src !! i = Some point → Point3d_m point !! k = Some c →
     (toGeoMesh src).1 !! (3 * i + k)%nat = Some c) ∧
  (∀ i tri k v, tris src !! i = Some tri → triangle_v tri !! k = Some v →
     (toGeoMesh src).2 !! (3 * i + k)%nat = Some (u32 v)).
Proof.
  unfold toGeoMesh; simpl. rewrite !foldl_app_concat. simpl.
  destruct (concat_triples_lookup Point3d_m (pts src)) as [H1 H2]; [done|].
  destruct (concat_triples_lookup (λ tri, u32 <$> triangle_v tri) (tris src)) as [H3 H4];
    [done|].
  repeat split; [done|done|done|].
  intros i tri k v Hi Hk. eapply H4; [done|].
  by rewrite list_lookup_fmap, Hk.
Qed.

Section GenerateTexturesProofs.

Variable ncams : Z.
Variable getPixelFor3DPoint : Point3d → Z → Point2d.
Variable isPixelInImage : Point2d → Z → bool.
Variable getPixelValueInterpolated : Point2d → Z → Color.
Variable point_triangle_squared_distance :
  Point2d → Point2d → Point2d → Point2d → TriangleDistance.
Variable imageIO_fillHoles : Z → Z → list Color → list Qc → list Color.
Variable imageIO_resizeImage : Z → Z → Z → list Color → list Color.
Variable EImageFileType : Type.
Variable EImageFileType_enumToString : EImageFileType → string.

Local Abbreviation generate_texture :=
  (generateTexture ncams getPixelFor3DPoint isPixelInImage getPixelValueInterpolated
     point_triangle_squared_distance imageIO_fillHoles imageIO_resizeImage EImageFileType
     EImageFileType_enumToString).
Local Abbreviation generate_textures :=
  (generateTextures ncams getPixelFor3DPoint isPixelInImage getPixelValueInterpolated
     point_triangle_squared_distance imageIO_fillHoles imageIO_resizeImage EImageFileType
     EImageFileType_enumToString).
Local Abbreviation generate_textures_loop :=
  (generateTextures_loop ncams getPixelFor3DPoint isPixelInImage getPixelValueInterpolated
     point_triangle_squared_distance imageIO_fillHoles imageIO_resizeImage EImageFileType
     EImageFileType_enumToString).

(** What [generateTexture] answers for an atlas that exists. *)
Lemma generateTexture_valid t atlasID textureFileType :
  atlasID < Z.of_nat (length (_atlases t)) →
  match generate_texture t atlasID textureFileType with
  | Written textureName outTextureSide _ =>
      textureName =
        "texture_" +:+ pretty atlasID +:+ "." +:+ EImageFileType_enumToString textureFileType ∧
      outTextureSide =
        if decide (1 < downscale (texParams t))
        then textureSide (texParams t) / downscale (texParams t)
        else textureSide (texParams t)
  | TextureThrows _ => False
  | TextureUndefined => True
  end.
Proof.
  intros Hlt. unfold generateTexture.
  case_decide; [lia|].
  destruct (bakeColorBuffer _ _ _ _ _ _ _) as [[colorBuffer alphaBuffer]|]; [|done].
  by case_decide.
Qed.

Lemma generateTextures_loop_spec t textureFileType atlasIDs images :
  (∀ atlasID, atlasID ∈ atlasIDs → atlasID < Z.of_nat (length (_atlases t))) →
  match generate_textures_loop t textureFileType atlasIDs images with
  | TexturesWritten images' =>
      ∃ new, images' = images ++ new ∧
        Forall2 (λ atlasID image,
          generate_texture t atlasID textureFileType = Written image.1.1 image.1.2 image.2)
          atlasIDs new
  | TexturesThrow _ _ => False
  | TexturesUndefined =>
      ∃ atlasID, atlasID ∈ atlasIDs ∧
        generate_texture t atlasID textureFileType = TextureUndefined
  end.
Proof.
  revert images. induction atlasIDs as [|atlasID atlasIDs IH]; intros images Hin; simpl.
  - exists []. by rewrite app_nil_r.
  - pose proof (generateTexture_valid t atlasID textureFileType) as Hv.
    destruct (generate_texture t atlasID textureFileType) as [name out buf|what|] eqn:Hg.
    + specialize (IH (images ++ [(name, out, buf)])).
      destruct (generate_textures_loop _ _ atlasIDs _) as [images'| |].
      * destruct IH as (new & -> & Hall); [intros; apply Hin; by right|].
        exists ((name, out, buf) :: new). split; [by rewrite <- app_assoc|].
        by constructor.
      * apply IH. intros; apply Hin; by right.
      * destruct IH as (a & Ha & Hu); [intros; apply Hin; by right|].
        exists a. split; [by right|done].
    + apply Hv, Hin. by left.
    + exists atlasID. split; [by left|done].
Qed.

(** X5. [generateTextures] never gets the "Invalid atlas ID" error: the
    atlas ids it passes to [generateTexture] all exist (writing the image
    is outside this model). When it ends it has written one image per
    atlas, in order, the image of the atlas [i] being the one
    [generateTexture] makes of it, named texture_i and the extension of the
    file type, its side being [textureSide], divided by [downscale] when
    that is above 1. Otherwise one of its atlases has no defined texture. *)
Theorem generateTextures_one_image_per_atlas t textureFileType :
  match generateTextures ncams getPixelFor3DPoint isPixelInImage getPixelValueInterpolated
          point_triangle_squared_distance imageIO_fillHoles imageIO_resizeImage
          EImageFileType EImageFileType_enumToString t textureFileType with
  | TexturesWritten images =>
      length images = length (_atlases t) ∧
      ∀ (atlasID : nat) textureName outTextureSide colorBuffer,
        images !! atlasID = Some (textureName, outTextureSide, colorBuffer) →
        generate_texture t (Z.of_nat atlasID) textureFileType =
          Written textureName outTextureSide colorBuffer ∧
        textureName =
          "texture_" +:+ pretty (Z.of_nat atlasID) +:+ "." +:+
          EImageFileType_enumToString textureFileType ∧
        outTextureSide =
          if decide (1 < downscale (texParams t))
          then textureSide (texParams t) / downscale (texParams t)
          else textureSide (texParams t)
  | TexturesThrow _ _ => False
  | TexturesUndefined =>
      ∃ atlasID, 0 <= atlasID < Z.of_nat (length (_atlases t)) ∧
        generate_texture t atlasID textureFileType = TextureUndefined
  end.
Proof.
  unfold generateTextures.
  pose proof (generateTextures_loop_spec t textureFileType
                (seqZ 0 (Z.of_nat (length (_atlases t)))) []) as H.
  destruct (generate_textures_loop _ _ _ _) as [images| |].
  - destruct H as (new & -> & Hall).
    { intros a Ha. apply elem_of_seqZ in Ha. lia. }
    simpl. split.
    { apply Forall2_length in Hall. rewrite length_seqZ in Hall. lia. }
    intros atlasID name out buf Hi.
    destruct (Forall2_lookup_r _ _ _ _ _ Hall Hi) as (a & Ha & Hg).
    apply lookup_seqZ in Ha as [-> _]. simpl in Hg.
    rewrite Z.add_0_l in Hg. split; [done|].
    pose proof (generateTexture_valid t (Z.of_nat atlasID) textureFileType) as Hv.
    rewrite Hg in Hv. apply Hv.
    apply lookup_lt_Some in Hi. apply Forall2_length in Hall.
    rewrite length_seqZ in Hall. lia.
  - apply H. intros a Ha. apply elem_of_seqZ in Ha. lia.
  - destruct H as (a & Ha & Hu).
    { intros a Ha. apply elem_of_seqZ in Ha. lia. }
    exists a. split; [|done]. apply elem_of_seqZ in Ha. lia.
Qed.

End GenerateTexturesProofs.

(** ** loadFromOBJ *)

Lemma positions_where_snoc {A} (P : A → Prop) `{∀ x, Decision (P x)} (l : list A) x :
  positions_where P (l ++ [x]) =
  positions_where P l ++ (if decide (P x) then [Z.of_nat (length l)] else []).
Proof.
  unfold positions_where. rewrite imap_app, omap_app. simpl.
  rewrite Nat.add_0_r. by case_decide.
Qed.

Lemma positions_where_elem {A} (P : A → Prop) `{∀ x, Decision (P x)} (l : list A) z :
  z ∈ positions_where P l ↔ ∃ (j : nat) x, z = Z.of_nat j ∧ l !! j = Some x ∧ P x.
Proof.
  unfold positions_where. rewrite list_elem_of_omap. split.
  - intros ([j x] & Hjx & Hf). simpl in Hf. case_decide; [|done].
    injection Hf as <-. apply elem_of_lookup_imap in Hjx as (i & y & [= -> ->] & Hl).
    eauto.
  - intros (j & x & -> & Hl & Ha). exists (j, x). split.
    + apply elem_of_lookup_imap. eauto.
    + simpl. by rewrite decide_True.
Qed.

Lemma positions_where_NoDup {A} (P : A → Prop) `{∀ x, Decision (P x)} (l : list A) :
  NoDup (positions_where P l).
Proof.
  induction l as [|x l IH] using rev_ind; [constructor|].
  rewrite positions_where_snoc. case_decide; [|by rewrite app_nil_r].
  apply NoDup_app. split; [done|]. split; [|apply NoDup_singleton].
  intros z Hz Hz'. apply list_elem_of_singleton in Hz'. subst z.
  apply positions_where_elem in Hz as (j & x' & Hj & Hl & _).
  apply lookup_lt_Some in Hl. lia.
Qed.

Lemma material_atlas_nonneg nmtls mtl : 0 <= material_atlas nmtls mtl.
Proof.
  unfold material_atlas, u32. case_decide; [done|]. apply Z.mod_pos_bound. lia.
Qed.

(** The atlases after the triangles below [k] have been registered. *)
Lemma fillMaterialAtlases_prefix nmtls trisMtlIds (n k : nat) :
  (k ≤ length trisMtlIds)%nat →
  for_range 0 (Z.of_nat k) (registerMaterialTriangle nmtls trisMtlIds) (replicate n []) =
  if decide (Forall (λ mtl, material_atlas nmtls mtl < Z.of_nat n) (take k trisMtlIds))
  then Some ((λ a : nat, positions_where (λ mtl, material_atlas nmtls mtl = Z.of_nat a)
                          (take k trisMtlIds)) <$> seq 0 n)
  else None.
Proof.
  unfold for_range. rewrite Z.sub_0_r.
  induction k as [|k IH]; intros Hk.
  - rewrite decide_True by constructor. simpl. f_equal.
    apply list_eq. intros i. rewrite list_lookup_fmap.
    destruct (decide (i < n)%nat) as [Hi|Hi].
    + by rewrite lookup_replicate_2, lookup_seq_lt.
    + rewrite (proj1 (lookup_replicate_None n [] i)) by lia.
      by rewrite lookup_seq_ge by lia.
  - rewrite seqZ_S, for_each_app, IH by lia. clear IH.
    destruct (lookup_lt_is_Some_2 trisMtlIds k) as [mtl Hmtl]; [lia|].
    rewrite (take_S_r _ _ _ Hmtl).
    destruct (decide (Forall _ (take k trisMtlIds))) as [Hall|Hall]; simpl.
    2:{ rewrite decide_False; [done|]. rewrite Forall_app. tauto. }
    unfold registerMaterialTriangle at 1. rewrite Z.add_0_l.
    rewrite vec_at_nat, Hmtl. simpl.
    fold (material_atlas nmtls mtl).
    pose proof (material_atlas_nonneg nmtls mtl) as Hnn.
    destruct (decide (material_atlas nmtls mtl < Z.of_nat n)) as [Hlt|Hge].
    + rewrite decide_True by (rewrite Forall_app, Forall_singleton; done).
      unfold vec_at at 1. rewrite decide_True by done.
      rewrite list_lookup_fmap, lookup_seq_lt by lia. simpl.
      unfold vec_set. rewrite decide_True by (rewrite length_fmap, length_seq; lia).
      simpl. f_equal. apply list_eq. intros i.
      destruct (decide (i = Z.to_nat (material_atlas nmtls mtl))) as [->|Hne].
      * rewrite list_lookup_insert_eq by (rewrite length_fmap, length_seq; lia).
        rewrite list_lookup_fmap, lookup_seq_lt by lia. simpl.
        rewrite positions_where_snoc, decide_True by lia.
        rewrite length_take_le by lia. done.
      * rewrite list_lookup_insert_ne by done.
        rewrite !list_lookup_fmap.
        destruct (seq 0 n !! i) as [a|] eqn:Ha; [|done]. simpl.
        apply lookup_seq in Ha as [-> _].
        rewrite positions_where_snoc, decide_False by lia.
        by rewrite app_nil_r.
    + rewrite decide_False.
      2:{ rewrite Forall_app, Forall_singleton. tauto. }
      unfold vec_at. rewrite decide_True by done.
      rewrite (lookup_ge_None_2 _ (Z.to_nat _)); [done|].
      rewrite length_fmap, length_seq. lia.
Qed.

Section LoadFromOBJProofs.

Variable Mesh_loadFromObjAscii : string → bool * ObjData.
Variable Mesh_invertTriangleOrientations : Mesh → Mesh.

(** X6. [loadFromOBJ] throws "Unable to load: " and the file name exactly
    when the file cannot be loaded. Otherwise it makes one atlas per
    material (a single one when there is no material) and puts each
    triangle, once, into the atlas of its material, the tables read in the
    file replacing the former ones and the visibilities being dropped;
    unless a material id lies outside the atlases, where the behaviour is
    undefined, the id being used as an index without a check. *)
Theorem loadFromOBJ_atlases_by_material t filename flipNormals :
  let loaded := (Mesh_loadFromObjAscii filename).1 in
  let d := (Mesh_loadFromObjAscii filename).2 in
  let n := Z.max 1 (obj_nmtls d) in
  match loadFromOBJ Mesh_loadFromObjAscii Mesh_invertTriangleOrientations t filename
          flipNormals with
  | Throws what _ => loaded = false ∧ what = "Unable to load: " +:+ filename
  | Undefined =>
      loaded = true ∧
      ∃ mtl, mtl ∈ obj_trisMtlIds d ∧ n <= material_atlas (obj_nmtls d) mtl
  | Returns t' =>
      loaded = true ∧
      Z.of_nat (length (_atlases t')) = n ∧
      (∀ (triangleID atlasID : nat) mtl atlas,
         obj_trisMtlIds d !! triangleID = Some mtl → _atlases t' !! atlasID = Some atlas →
         (Z.of_nat triangleID ∈ atlas ↔
          material_atlas (obj_nmtls d) mtl = Z.of_nat atlasID)) ∧
      (∀ atlas, atlas ∈ _atlases t' →
         NoDup atlas ∧
         ∀ triangleID, triangleID ∈ atlas →
           0 <= triangleID < Z.of_nat (length (obj_trisMtlIds d))) ∧
      trisMtlIds t' = obj_trisMtlIds d ∧ nmtls t' = obj_nmtls d ∧
      trisUvIds t' = obj_trisUvIds d ∧ uvCoords t' = obj_uvCoords d ∧
      pointsVisibilities t' = None
  end.
Proof.
  intros loaded d n. subst loaded d n. unfold loadFromOBJ.
  destruct (Mesh_loadFromObjAscii filename) as [[] d]; simpl; [|done].
  unfold fillMaterialAtlases.
  rewrite fillMaterialAtlases_prefix by done.
  rewrite firstn_all.
  case_decide as Hall.
  - simpl. split; [done|]. split; [rewrite length_fmap, length_seq; lia|].
    split; [|split; [|done]].
    + intros triangleID atlasID mtl atlas Hmtl Hatlas.
      rewrite list_lookup_fmap in Hatlas.
      destruct (seq _ _ !! atlasID) as [a|] eqn:Ha; [|done].
      apply lookup_seq in Ha as [-> _]. injection Hatlas as <-.
      rewrite positions_where_elem. split.
      * intros (j & x & Hj & Hx & HP). assert (j = triangleID) as -> by lia. congruence.
      * intros HP. eauto.
    + intros atlas Hatlas. apply list_elem_of_fmap in Hatlas as (a & -> & _).
      split; [apply positions_where_NoDup|].
      intros triangleID Hin. apply positions_where_elem in Hin as (j & x & -> & Hx & _).
      apply lookup_lt_Some in Hx. lia.
  - split; [done|].
    apply not_Forall_Exists in Hall; [|intros x; apply _].
    apply Exists_exists in Hall as (mtl & Hin & Hge).
    exists mtl. split; [done|]. simpl in Hge. lia.
Qed.

End LoadFromOBJProofs.

(** ** The rounds of the edge padding *)

(** X7. One round of the edge padding, on ids that are -1 or a positive
    texel index: a texel holding an id keeps it; an interior texel without
    one takes the id of its first neighbor holding a positive id (left,
    right, [+ textureSide], [- textureSide]); every other texel without an
    id, the border ones among them, takes what the texel 1 holds, its
    sentinel -1 being read back as the negated index 1. *)
Theorem padRound_is_round_value side c :
  2 <= side → side * side <= 2 ^ 31 → color_ids (side * side) c →
  ∃ cr, padRound side (side * side) c = Some cr ∧ color_ids (side * side) cr ∧
    ∀ j, 0 <= j < side * side → texel cr j = round_value side c j.
Proof. intros Hside Hsize Hc. by apply padRound_exact. Qed.

Lemma rasterized_ids_top_sampled : rasterized 9 ids_top_sampled.
Proof.
  split; [reflexivity|]. intros j Hj.
  assert (j = 0 ∨ j = 1 ∨ j = 2 ∨ j = 3 ∨ j = 4 ∨ j = 5 ∨ j = 6 ∨ j = 7 ∨ j = 8)
    as Hcases by lia.
  repeat (destruct Hcases as [->|Hcases]); try subst j; vm_compute; auto.
Defined.

Lemma padRound_is_round_value_witness :
  ∃ cr, padRound 3 (3 * 3) ids_top_sampled = Some cr ∧ color_ids (3 * 3) cr ∧
    ∀ j, 0 <= j < 3 * 3 → texel cr j = round_value 3 ids_top_sampled j.
Proof.
  apply (padRound_is_round_value 3 ids_top_sampled).
  - lia.
  - simpl. lia.
  - apply (rasterized_color_ids 3). exact rasterized_ids_top_sampled.
Defined.

(** X8. The edge padding never changes the id of a texel that got a
    sample, and every id it leaves is -1 or the index of a texel that got a
    sample: a padded texel is always colored from a texel of the
    rasterization. *)
Theorem edgePadding_writes_sampled_ids tp c :
  2 <= textureSide tp → textureSide tp * textureSide tp <= 2 ^ 31 →
  rasterized (textureSide tp * textureSide tp) c →
  ∃ c', edgePadding tp (textureSide tp * textureSide tp) c = Some c' ∧
    length c' = length c ∧
    ∀ j, 0 <= j < textureSide tp * textureSide tp →
      (texel c j = j → texel c' j = j) ∧
      (texel c' j = -1 ∨
       (0 <= texel c' j < textureSide tp * textureSide tp ∧
        texel c (texel c' j) = texel c' j)).
Proof. exact (edgePadding_sampled_ids tp c). Qed.

Lemma edgePadding_writes_sampled_ids_witness :
  ∃ c', edgePadding params_3 9 ids_left_sampled = Some c' ∧
    length c' = length ids_left_sampled ∧
    ∀ j, 0 <= j < 9 →
      (texel ids_left_sampled j = j → texel c' j = j) ∧
      (texel c' j = -1 ∨
       (0 <= texel c' j < 9 ∧ texel ids_left_sampled (texel c' j) = texel c' j)).
Proof.
  apply (edgePadding_writes_sampled_ids params_3 ids_left_sampled).
  - simpl. lia.
  - simpl. lia.
  - exact rasterized_ids_left_sampled.
Defined.

(** X9. When the texel 1 got no sample (and holes are not filled), the
    texels holding an id after the edge padding are exactly those linked to
    a sampled texel by at most [padding] steps between 4-neighbors, each
    step arriving at an interior texel: no other texel, and no border texel
    without a sample, is filled. *)
Theorem edgePadding_reaches_exactly tp c :
  2 <= textureSide tp → textureSide tp * textureSide tp <= 2 ^ 31 →
  fillHoles tp = false →
  rasterized (textureSide tp * textureSide tp) c → texel c 1 = -1 →
  ∃ c', edgePadding tp (textureSide tp * textureSide tp) c = Some c' ∧
    ∀ i, 0 <= i < textureSide tp * textureSide tp →
      (0 <= texel c' i ↔ within (textureSide tp) c (Z.to_nat (padding tp)) i).
Proof.
  intros Hside Hsize Hfill Hc H1. unfold edgePadding. rewrite Hfill. simpl.
  case_bool_decide as Hp.
  - destruct (padRounds_exact (textureSide tp) Hside Hsize c (padding tp))
      as (c' & Hrun & _ & _ & _ & Hreach & _); [lia|by apply rasterized_color_ids|].
    destruct (padRounds_spec (textureSide tp) Hside Hsize c (padding tp))
      as (c'' & Hrun' & _ & _ & Hin); [lia|by apply rasterized_padding_state|].
    assert (c'' = c') as -> by congruence.
    exists c'. split; [done|]. intros i Hi. split; [by apply Hreach|apply Hin].
  - exists c. split; [done|]. intros i Hi.
    replace (Z.to_nat (padding tp)) with 0%nat by lia. simpl.
    destruct Hc as [Hlen _]. split; [intros; split; [lia|done]|by intros [_ ?]].
Qed.

Lemma edgePadding_reaches_exactly_witness :
  ∃ c', edgePadding params_3 9 ids_left_sampled = Some c' ∧
    ∀ i, 0 <= i < 9 → (0 <= texel c' i ↔ within 3 ids_left_sampled 1 i).
Proof.
  apply (edgePadding_reaches_exactly params_3 ids_left_sampled).
  - simpl. lia.
  - simpl. lia.
  - reflexivity.
  - exact rasterized_ids_left_sampled.
  - reflexivity.
Defined.

(** X10. When the texel 1 got a sample (holes not filled, [padding > 0]),
    the edge padding leaves no texel without an id: the border texels
    without a sample all get the id 1, whatever their distance to the
    texel 1. *)
Theorem edgePadding_floods_from_texel_1 tp c :
  2 <= textureSide tp → textureSide tp * textureSide tp <= 2 ^ 31 →
  fillHoles tp = false → 0 < padding tp →
  rasterized (textureSide tp * textureSide tp) c → texel c 1 = 1 →
  ∃ c', edgePadding tp (textureSide tp * textureSide tp) c = Some c' ∧
    ∀ j, 0 <= j < textureSide tp * textureSide tp →
      0 <= texel c' j ∧
      (texel c j = -1 → ¬ interior (textureSide tp) j → texel c' j = 1).
Proof.
  intros Hside Hsize Hfill Hp Hc H1. unfold edgePadding. rewrite Hfill. simpl.
  rewrite bool_decide_eq_true_2 by done.
  destruct (padRounds_exact (textureSide tp) Hside Hsize c (padding tp))
    as (c' & Hrun & _ & _ & _ & _ & Hflood); [lia|by apply rasterized_color_ids|].
  exists c'. split; [done|]. intros j Hj.
  destruct (Hflood ltac:(lia) Hp j Hj) as [Hnn Hb]. split; [done|].
  intros Hv Hint. rewrite Hb by done. done.
Qed.

Lemma edgePadding_floods_from_texel_1_witness :
  ∃ c', edgePadding params_3 9 ids_top_sampled = Some c' ∧
    ∀ j, 0 <= j < 9 →
      0 <= texel c' j ∧
      (texel ids_top_sampled j = -1 → ¬ interior 3 j → texel c' j = 1).
Proof.
  apply (edgePadding_floods_from_texel_1 params_3 ids_top_sampled).
  - simpl. lia.
  - simpl. lia.
  - reflexivity.
  - simpl. lia.
  - exact rasterized_ids_top_sampled.
  - reflexivity.
Defined.

(** ** generateUVs: visibilities and texture lookups *)

Lemma for_each_preserves {A S} (body : A → S → option S) (Q : S → Prop) l :
  (∀ a s s', body a s = Some s' → Q s → Q s') →
  ∀ s s', for_each body l s = Some s' → Q s → Q s'.
Proof.
  intros Hstep. induction l as [|a l IH]; intros s s' Hrun HQ; simpl in Hrun.
  - by injection Hrun as <-.
  - destruct (body a s) as [s1|] eqn:Hb; [|done]. simpl in Hrun.
    eapply IH; [done|]. by eapply Hstep.
Qed.

Section GenerateUVsVisibilities.

Variable getPixelFor3DPoint : Point3d → Z → Point2d.
Variable isPixelInImage : Point2d → Z → bool.
Variable mesh : Mesh.
Variable vis : PointsVisibility.
Variable side : Z.

Local Abbreviation vis_inv := (visibilities_ok mesh vis).
Local Abbreviation process_corner' :=
  (processCorner getPixelFor3DPoint isPixelInImage mesh vis side).
Local Abbreviation process_triangle' :=
  (processTriangle getPixelFor3DPoint isPixelInImage mesh vis side).
Local Abbreviation process_chart' :=
  (processChart getPixelFor3DPoint isPixelInImage mesh vis side).
Local Abbreviation process_atlas' :=
  (processAtlas getPixelFor3DPoint isPixelInImage mesh vis side).

(** The invariant reads the new points, the cache and the visibilities. *)
Lemma visibilities_ok_frame s s' :
  g_pts s' = g_pts s → g_vertexCache s' = g_vertexCache s →
  g_updatedPointsCams s' = g_updatedPointsCams s → vis_inv s → vis_inv s'.
Proof. unfold visibilities_ok. intros -> -> ->. done. Qed.

Lemma pushVertex_visibilities pointId p pRef s :
  vec_at (pts mesh) pointId = Some p → vec_at vis pointId = Some pRef →
  g_vertexCache s !! pointId = None →
  vis_inv s → vis_inv (pushVertex pointId p pRef s).2.
Proof.
  intros Hp HpRef Hnew (Hlen & Hcache & Hvert). unfold visibilities_ok, pushVertex. simpl.
  assert (Hlast : vec_at (g_updatedPointsCams s ++ [Some (default [] pRef)])
                    (Z.of_nat (length (g_pts s ++ [p])) - 1) = Some (Some (default [] pRef))).
  { pose proof (vec_at_snoc (g_updatedPointsCams s) (Some (default [] pRef))) as H.
    rewrite length_app in H. rewrite length_app. simpl length in *.
    by rewrite <- Hlen. }
  split_and!.
  - by rewrite !length_app, Hlen.
  - intros pid v. rewrite lookup_insert. case_decide as Heq.
    + intros [= <-]. subst pid. exists pRef. split; [done|]. destruct pRef; exact Hlast.
    + intros Hv. destruct (Hcache _ _ Hv) as (pRef' & ? & Hu). exists pRef'.
      split; [done|]. eapply vec_at_prefix; [|exact Hu]. by apply prefix_app_r.
  - intros v Hv. rewrite length_app in Hv. simpl in Hv.
    destruct (decide (v < Z.of_nat (length (g_pts s)))) as [Hold|Hlastv].
    + destruct (Hvert v) as (pid & p' & pRef' & ? & Hpv & ? & Hu); [lia|].
      exists pid, p', pRef'. split; [done|].
      split; [eapply vec_at_prefix; [|exact Hpv]; by apply prefix_app_r|].
      split; [done|]. eapply vec_at_prefix; [|exact Hu]. by apply prefix_app_r.
    + assert (v = Z.of_nat (length (g_pts s ++ [p])) - 1) as ->.
      { rewrite length_app. simpl. lia. }
      exists pointId, p, pRef. split; [done|]. split; [apply vec_at_snoc|].
      split; [done|]. destruct pRef; exact Hlast.
Qed.

Lemma processCorner_visibilities chart offset pointId st r :
  process_corner' chart offset pointId st = Some r → vis_inv st.2 → vis_inv r.2.2.
Proof.
  destruct st as [uvCache s]. unfold processCorner. simpl.
  destruct (vec_at (pts mesh) pointId) as [p|] eqn:Hp; [|done]. simpl.
  intros Hrun Hinv.
  assert (∃ v s1,
    match g_vertexCache s !! pointId with
    | None => pRef ← vec_at vis pointId; Some (pushVertex pointId p pRef s)
    | Some idx => Some (idx, s)
    end = Some (v, s1) ∧ vis_inv s1) as (v & s1 & Hstep & Hinv1).
  { destruct (g_vertexCache s !! pointId) as [idx|] eqn:Hlook.
    - by exists idx, s.
    - destruct (vec_at vis pointId) as [pRef|] eqn:HpRef; [|done]. simpl in *.
      eexists _, _. split; [done|].
      by apply (pushVertex_visibilities pointId p pRef s). }
  rewrite Hstep in Hrun. simpl in Hrun.
  destruct (uvCache !! v); injection Hrun as <-; simpl; [done|].
  revert Hinv1. by apply visibilities_ok_frame.
Qed.

Local Arguments processCorner : simpl never.

Lemma processTriangle_visibilities chart offset triangleID st st' :
  process_triangle' chart offset triangleID st = Some st' → vis_inv st.2 → vis_inv st'.2.
Proof.
  unfold processTriangle. intros Hrun Hinv.
  destruct (registerInAtlas st.2) as [s0|] eqn:Hreg; [|done]. simpl in Hrun.
  assert (vis_inv s0) as Hinv0.
  { unfold registerInAtlas in Hreg.
    apply bind_Some in Hreg as (atlas & _ & Hreg).
    apply bind_Some in Hreg as (atlases' & _ & Hreg). injection Hreg as <-.
    revert Hinv. by apply visibilities_ok_frame. }
  destruct (vec_at (tris mesh) triangleID) as [tri|]; [|done]. simpl in Hrun.
  destruct (process_corner' chart offset (v0 tri) (st.1, s0)) as [[[n0 u0] st0]|] eqn:H0;
    simpl in Hrun; [|done].
  apply processCorner_visibilities in H0; [|done]. simpl in H0.
  destruct (process_corner' chart offset (v1 tri) st0) as [[[n1 u1] st1]|] eqn:H1;
    simpl in Hrun; [|done].
  apply processCorner_visibilities in H1; [|done]. simpl in H1.
  destruct (process_corner' chart offset (v2 tri) st1) as [[[n2 u2] st2]|] eqn:H2;
    simpl in Hrun; [|done].
  apply processCorner_visibilities in H2; [|done]. simpl in H2.
  injection Hrun as <-. simpl. revert H2. by apply visibilities_ok_frame.
Qed.

Local Arguments processTriangle : simpl never.

Lemma processChart_visibilities chart s s' :
  process_chart' chart s = Some s' → vis_inv s → vis_inv s'.
Proof.
  unfold processChart. intros Hrun Hinv.
  destruct (for_each _ _ _) as [st|] eqn:Hloop; [|done]. injection Hrun as <-.
  eapply (for_each_preserves _ (λ st, vis_inv st.2)); [|exact Hloop|done].
  intros a st0 st1. apply processTriangle_visibilities.
Qed.

Local Arguments processChart : simpl never.

Lemma processAtlas_visibilities charts s s' :
  process_atlas' charts s = Some s' → vis_inv s → vis_inv s'.
Proof.
  unfold processAtlas. intros Hrun Hinv.
  destruct (for_each _ _ _) as [s1|] eqn:Hloop; [|done]. injection Hrun as <-.
  apply (visibilities_ok_frame s1); [done|done|done|].
  eapply (for_each_preserves _ vis_inv); [|exact Hloop|done].
  intros a s0 s2. apply processChart_visibilities.
Qed.

End GenerateUVsVisibilities.

Section GenerateUVsComposition.

Variable getPixelFor3DPoint : Point3d → Z → Point2d.
Variable isPixelInImage : Point2d → Z → bool.
Variable packCharts : Mesh → option PointsVisibility → Z → Z → list (list Chart).

(** The run of the loops of [generateUVs], with both invariants. *)
Lemma generateUVs_run t mesh vis :
  me t = Some mesh → pointsVisibilities t = Some vis →
  pts mesh ≠ [] → tris mesh ≠ [] →
  let side := textureSide (texParams t) in
  let atlasesIn := packCharts mesh (Some vis) side (padding (texParams t)) in
  wf_atlases mesh vis atlasesIn →
  ∃ recs s,
    generateUVs getPixelFor3DPoint isPixelInImage packCharts t
      = Returns (uv_state_commit t s) ∧
    r_item <$> recs = uv_work atlasesIn ∧
    uv_inv getPixelFor3DPoint isPixelInImage mesh side (uvCoords t) (trisUvIds t)
      (length atlasesIn) (length atlasesIn) recs s ∧
    visibilities_ok mesh vis s.
Proof.
  intros Hme Hvis Hpts Htris side atlasesIn Hwf.
  destruct (processAtlases_spec getPixelFor3DPoint isPixelInImage mesh vis side
              (uvCoords t) (trisUvIds t) (length atlasesIn) atlasesIn 0%nat []
              (uv_state_init t (mkUVAtlas atlasesIn side)))
    as (recs & s & Hrun & Hitems & Hinv).
  - simpl. lia.
  - done.
  - unfold uv_inv, uv_state_init. simpl.
    split; [done|]. split; [by rewrite app_nil_r|]. split; [done|]. split; [done|].
    split; [done|]. split; [by rewrite length_replicate|].
    split; [intros a Ha; by rewrite lookup_replicate_2|].
    split.
    + unfold cache_ok. simpl. split; [|split; [|split]].
      * intros pid v Hv. by rewrite lookup_empty in Hv.
      * intros pid pid' v Hv. by rewrite lookup_empty in Hv.
      * intros v Hv. lia.
      * done.
    + split; [|split].
      * intros r Hr. by apply elem_of_nil in Hr.
      * intros r c Hr. by apply elem_of_nil in Hr.
      * intros r c r' c' Hr. by apply elem_of_nil in Hr.
  - intros r Hr. by apply elem_of_nil in Hr.
  - exists recs, s. split; [|split; [done|split; [done|]]].
    + unfold generateUVs, UVAtlas_new. rewrite Hme, Hvis.
      rewrite decide_False by tauto. simpl.
      fold side. fold atlasesIn. rewrite Hrun. done.
    + eapply (for_each_preserves _ (visibilities_ok mesh vis)); [|exact Hrun|].
      * intros charts s0 s1. apply processAtlas_visibilities.
      * unfold visibilities_ok, uv_state_init. simpl. split; [done|]. split.
        -- intros pid v Hv. by rewrite lookup_empty in Hv.
        -- intros v Hv. lia.
Qed.

(** X11. [generateUVs] rebuilds the visibilities along with the mesh: they
    have one entry per point of the new mesh (the size that
    [loadFromMeshing] checks), no entry is null, and each new point is the
    copy of a former point and sees exactly the cameras of that point, none
    when the former entry was null. *)
Theorem generateUVs_rebuilds_visibilities t mesh vis :
  me t = Some mesh → pointsVisibilities t = Some vis →
  pts mesh ≠ [] → tris mesh ≠ [] →
  wf_atlases mesh vis
    (packCharts mesh (Some vis) (textureSide (texParams t)) (padding (texParams t))) →
  ∃ t' mesh' vis',
    generateUVs getPixelFor3DPoint isPixelInImage packCharts t = Returns t' ∧
    me t' = Some mesh' ∧ pointsVisibilities t' = Some vis' ∧
    length vis' = length (pts mesh') ∧
    ∀ v, 0 <= v < Z.of_nat (length (pts mesh')) →
      ∃ pointId p pRef,
        vec_at (pts mesh) pointId = Some p ∧ vec_at (pts mesh') v = Some p ∧
        vec_at vis pointId = Some pRef ∧
        vec_at vis' v = Some (Some (default [] pRef)).
Proof.
  intros Hme Hvis Hpts Htris Hwf.
  destruct (generateUVs_run t mesh vis Hme Hvis Hpts Htris Hwf)
    as (recs & s & Hrun & _ & _ & Hlen & _ & Hvert).
  exists (uv_state_commit t s), (mkMesh (g_pts s) (g_tris s)), (g_updatedPointsCams s).
  split; [done|]. split; [done|]. split; [done|]. split; [done|]. exact Hvert.
Qed.

(** What [generateUVs] leaves for the lookups of [generateTexture]. *)
Lemma generateUVs_texture_lookups t mesh vis :
  me t = Some mesh → pointsVisibilities t = Some vis →
  pts mesh ≠ [] → tris mesh ≠ [] →
  let side := textureSide (texParams t) in
  let atlasesIn := packCharts mesh (Some vis) side (padding (texParams t)) in
  wf_atlases mesh vis atlasesIn →
  trisUvIds t = [] →
  ∃ recs t',
    generateUVs getPixelFor3DPoint isPixelInImage packCharts t = Returns t' ∧
    texParams t' = texParams t ∧
    r_item <$> recs = uv_work atlasesIn ∧
    ∀ (a : nat) atlas triangleId,
      _atlases t' !! a = Some atlas → triangleId ∈ atlas →
      ∃ (j : nat) r p0 p1 p2 c0 c1 c2,
        triangleId = Z.of_nat j ∧ recs !! j = Some r ∧ w_atlas (r_item r) = a ∧
        vec_at (tris mesh) (w_triangle (r_item r)) = Some (r_in r) ∧
        vec_at (pts mesh) (v0 (r_in r)) = Some p0 ∧
        vec_at (pts mesh) (v1 (r_in r)) = Some p1 ∧
        vec_at (pts mesh) (v2 (r_in r)) = Some p2 ∧
        vec_at vis (v0 (r_in r)) = Some c0 ∧
        vec_at vis (v1 (r_in r)) = Some c1 ∧
        vec_at vis (v2 (r_in r)) = Some c2 ∧
        triangleCorners t' triangleId =
          Some (mkTriangle2d
                  (Point2d_scale
                     (chartUV getPixelFor3DPoint isPixelInImage side (w_data (r_item r)) p0)
                     (Qc_of_Z side))
                  (Point2d_scale
                     (chartUV getPixelFor3DPoint isPixelInImage side (w_data (r_item r)) p1)
                     (Qc_of_Z side))
                  (Point2d_scale
                     (chartUV getPixelFor3DPoint isPixelInImage side (w_data (r_item r)) p2)
                     (Qc_of_Z side)),
                mkTriangle3d p0 p1 p2) ∧
        triangleCams t' triangleId =
          Some (visibilityCams c0 ∪ visibilityCams c1 ∪ visibilityCams c2).
Proof.
  intros Hme Hvis Hpts Htris side atlasesIn Hwf Htu.
  destruct (generateUVs_run t mesh vis Hme Hvis Hpts Htris Hwf)
    as (recs & s & Hrun & Hitems & Hinv & Hvinv).
  fold side atlasesIn in Hitems, Hinv.
  destruct Hinv as (Htris' & Htu' & _ & _ & _ & Hnatl & Hatl & (Hcp & _) & Hrin & Hcorner & _).
  destruct Hvinv as (_ & Hvcache & _).
  exists recs, (uv_state_commit t s). split; [done|]. split; [done|]. split; [done|].
  intros a atlas triangleId Hatlas Hin. simpl in Hatlas.
  assert (a < length atlasesIn)%nat as Ha.
  { apply lookup_lt_Some in Hatlas. lia. }
  rewrite (Hatl a Ha) in Hatlas. injection Hatlas as <-.
  apply atlas_members_elem in Hin as (j & w & -> & Hw & Hwa).
  rewrite list_lookup_fmap in Hw.
  destruct (recs !! j) as [r|] eqn:Hr; [|done]. injection Hw as <-.
  assert (r ∈ recs) as Hrin' by (by eapply list_elem_of_lookup_2).
  pose proof (Hrin r Hrin') as Hin_r.
  assert (∀ c, c ∈ record_corners r →
            ∃ p cams,
              vec_at (pts mesh) (c_point c) = Some p ∧
              vec_at vis (c_point c) = Some cams ∧
              vec_at (g_pts s) (c_vertex c) = Some p ∧
              vec_at (g_updatedPointsCams s) (c_vertex c) = Some (Some (default [] cams)) ∧
              vec_at (g_uvCoords s) (c_uv c) =
                Some (chartUV getPixelFor3DPoint isPixelInImage side (w_data (r_item r)) p))
    as Hc.
  { intros c Hc. destruct (Hcorner r c Hrin' Hc) as (Hv & p & Hp & Huv).
    destruct (Hcp _ _ Hv) as (p' & Hp' & Hpv).
    destruct (Hvcache _ _ Hv) as (cams & Hcams & Hu).
    exists p, cams. split_and!; try done. congruence. }
  destruct (Hc (mkCorner (v0 (r_in r)) (v0 (r_out r)) (m0 (r_uv r))))
    as (p0 & c0 & Hp0 & Hc0 & Hq0 & Hu0 & Huv0); [apply list_elem_of_In; simpl; auto|].
  destruct (Hc (mkCorner (v1 (r_in r)) (v1 (r_out r)) (m1 (r_uv r))))
    as (p1 & c1 & Hp1 & Hc1 & Hq1 & Hu1 & Huv1); [apply list_elem_of_In; simpl; auto|].
  destruct (Hc (mkCorner (v2 (r_in r)) (v2 (r_out r)) (m2 (r_uv r))))
    as (p2 & c2 & Hp2 & Hc2 & Hq2 & Hu2 & Huv2); [apply list_elem_of_In; simpl; auto|].
  simpl in *.
  exists j, r, p0, p1, p2, c0, c1, c2.
  split; [done|]. split; [done|]. split; [done|]. split; [done|].
  split; [done|]. split; [done|]. split; [done|].
  split; [done|]. split; [done|]. split; [done|].
  assert (vec_at (g_tris s) (Z.of_nat j) = Some (r_out r)) as Htri.
  { rewrite vec_at_nat, Htris', list_lookup_fmap, Hr. done. }
  assert (vec_at (g_trisUvIds s) (Z.of_nat j) = Some (r_uv r)) as Htuv.
  { rewrite vec_at_nat, Htu', Htu. simpl. by rewrite list_lookup_fmap, Hr. }
  split.
  - unfold triangleCorners. simpl. rewrite Htri, Htuv. simpl.
    rewrite Hq0, Huv0, Hq1, Huv1, Hq2, Huv2. done.
  - unfold triangleCams. simpl. rewrite Htri. simpl.
    rewrite Hu0, Hu1, Hu2. by destruct c0, c1, c2.
Qed.

(** X12. Started with an empty [trisUvIds] (as after [loadFromMeshing]),
    [generateUVs] leaves every triangle of every atlas ready for
    [generateTexture]: its corner lookups are inside the vectors and give
    the three points of the chart triangle it copies with their UV
    coordinates in its chart, scaled to texels, and its cameras are those
    seeing one of these three points. *)
Theorem generateUVs_prepares_texture_lookups t mesh vis :
  me t = Some mesh → pointsVisibilities t = Some vis →
  pts mesh ≠ [] → tris mesh ≠ [] →
  let side := textureSide (texParams t) in
  let atlasesIn := packCharts mesh (Some vis) side (padding (texParams t)) in
  wf_atlases mesh vis atlasesIn →
  trisUvIds t = [] →
  ∃ recs t',
    generateUVs getPixelFor3DPoint isPixelInImage packCharts t = Returns t' ∧
    texParams t' = texParams t ∧
    r_item <$> recs = uv_work atlasesIn ∧
    ∀ (a : nat) atlas triangleId,
      _atlases t' !! a = Some atlas → triangleId ∈ atlas →
      ∃ (j : nat) r p0 p1 p2 c0 c1 c2,
        triangleId = Z.of_nat j ∧ recs !! j = Some r ∧ w_atlas (r_item r) = a ∧
        vec_at (tris mesh) (w_triangle (r_item r)) = Some (r_in r) ∧
        vec_at (pts mesh) (v0 (r_in r)) = Some p0 ∧
        vec_at (pts mesh) (v1 (r_in r)) = Some p1 ∧
        vec_at (pts mesh) (v2 (r_in r)) = Some p2 ∧
        vec_at vis (v0 (r_in r)) = Some c0 ∧
        vec_at vis (v1 (r_in r)) = Some c1 ∧
        vec_at vis (v2 (r_in r)) = Some c2 ∧
        triangleCorners t' triangleId =
          Some (mkTriangle2d
                  (Point2d_scale
                     (chartUV getPixelFor3DPoint isPixelInImage side (w_data (r_item r)) p0)
                     (Qc_of_Z side))
                  (Point2d_scale
                     (chartUV getPixelFor3DPoint isPixelInImage side (w_data (r_item r)) p1)
                     (Qc_of_Z side))
                  (Point2d_scale
                     (chartUV getPixelFor3DPoint isPixelInImage side (w_data (r_item r)) p2)
                     (Qc_of_Z side)),
                mkTriangle3d p0 p1 p2) ∧
        triangleCams t' triangleId =
          Some (visibilityCams c0 ∪ visibilityCams c1 ∪ visibilityCams c2).
Proof. exact (generateUVs_texture_lookups t mesh vis). Qed.

End GenerateUVsComposition.

Lemma generateUVs_rebuilds_visibilities_witness :
  ∃ t' mesh' vis',
    generateUVs flat_projection whole_plane_image pack_two_charts texturing_quad
      = Returns t' ∧
    me t' = Some mesh' ∧ pointsVisibilities t' = Some vis' ∧
    length vis' = length (pts mesh').
Proof.
  destruct (generateUVs_rebuilds_visibilities flat_projection whole_plane_image
              pack_two_charts texturing_quad quad_mesh quad_visibility)
    as (t' & mesh' & vis' & Hrun & Hme & Hvis & Hlen & _).
  - reflexivity.
  - reflexivity.
  - discriminate.
  - discriminate.
  - exact wf_quad_charts.
  - exists t', mesh', vis'. split; [exact Hrun|]. split; [exact Hme|].
    split; [exact Hvis|exact Hlen].
Defined.

Lemma generateUVs_prepares_texture_lookups_witness :
  ∃ recs t',
    generateUVs flat_projection whole_plane_image pack_two_charts texturing_quad
      = Returns t' ∧
    r_item <$> recs = uv_work [[chart_front; chart_back]] ∧
    ∀ (a : nat) atlas triangleId,
      _atlases t' !! a = Some atlas → triangleId ∈ atlas →
      is_Some (triangleCorners t' triangleId) ∧ is_Some (triangleCams t' triangleId).
Proof.
  destruct (generateUVs_prepares_texture_lookups flat_projection whole_plane_image
              pack_two_charts texturing_quad quad_mesh quad_visibility)
    as (recs & t' & Hrun & _ & Hitems & Hall).
  - reflexivity.
  - reflexivity.
  - discriminate.
  - discriminate.
  - exact wf_quad_charts.
  - reflexivity.
  - exists recs, t'. split; [exact Hrun|]. split; [exact Hitems|].
    intros a atlas triangleId Hatlas Hin.
    destruct (Hall a atlas triangleId Hatlas Hin)
      as (j & r & p0 & p1 & p2 & c0 & c1 & c2 & _ & _ & _ & _ & _ & _ & _ & _ & _ & _ & Hc & Hv).
    split; [rewrite Hc|rewrite Hv]; eexists; reflexivity.
Defined.

(** ** saveAsOBJ *)

Lemma elem_of_concat {A} (x : A) (ls : list (list A)) :
  x ∈ concat ls ↔ ∃ l, l ∈ ls ∧ x ∈ l.
Proof.
  induction ls as [|l0 ls IH]; simpl.
  - split; [by intros ?%elem_of_nil|]. by intros (l & ?%elem_of_nil & _).
  - rewrite elem_of_app, IH. split.
    + intros [Hx|(l & Hl & Hx)].
      * exists l0. split; [apply list_elem_of_here|done].
      * exists l. split; [by apply list_elem_of_further|done].
    + intros (l & Hl & Hx). apply elem_of_cons in Hl as [->|Hl]; [by left|].
      right. by exists l.
Qed.

Lemma Forall2_impl_elem {A B} (P Q : A → B → Prop) l k :
  Forall2 P l k → (∀ x y, x ∈ l → P x y → Q x y) → Forall2 Q l k.
Proof.
  induction 1 as [|x y l k HP _ IH]; intros HQ; constructor.
  - apply HQ; [apply list_elem_of_here|done].
  - apply IH. intros x' y' Hx'. apply HQ. by apply list_elem_of_further.
Qed.

Lemma omap_fmap_Some {A B} (f : B → option A) (g : A → B) (l : list A) :
  (∀ x, f (g x) = Some x) → omap f (g <$> l) = l.
Proof. intros H. induction l as [|x l IH]; csimpl; [done|]. by rewrite H, IH. Qed.

Lemma omap_all_None {A B} (f : B → option A) (l : list B) :
  Forall (λ x, f x = None) l → omap f l = [].
Proof. induction 1 as [|x l Hx _ IH]; csimpl; [done|]. by rewrite Hx. Qed.

Lemma omap_all_Some {A} (f : A → option A) (l : list A) :
  Forall (λ x, f x = Some x) l → omap f l = l.
Proof. induction 1 as [|x l Hx _ IH]; csimpl; [done|]. by rewrite Hx, IH. Qed.

Section SaveAsOBJFaces.

Variable EImageFileType : Type.
Variable EImageFileType_enumToString : EImageFileType → string.

Local Abbreviation mtl_prints := (mtlPrints EImageFileType EImageFileType_enumToString).
Local Abbreviation mtl_atlas := (mtlAtlas EImageFileType EImageFileType_enumToString).

(** The groups of faces written for the atlases. *)
Lemma objAtlas_groups t mesh groups :
  mapM (λ ia : nat * list Z, objAtlas t mesh ia.1 ia.2)
    (imap (λ i atlas, (i, atlas)) (_atlases t)) = Some groups →
  Forall2 (λ (ia : nat * list Z) group,
             ∃ faces, group = ObjUsemtl (Z.of_nat ia.1) :: faces ∧
               Forall2 (λ triangleID face, objFace t mesh triangleID = Some face) ia.2 faces)
    (imap (λ i atlas, (i, atlas)) (_atlases t)) groups.
Proof.
  rewrite mapM_Some. intros H. eapply Forall2_impl; [exact H|]. clear H.
  intros [i atlas] group Hg.
  unfold objAtlas in Hg. simpl in *.
  destruct (mapM (objFace t mesh) atlas) as [faces|] eqn:Hfaces; [|done].
  injection Hg as <-. exists faces. split; [done|]. by apply mapM_Some.
Qed.

Lemma mtlPrints_elem t textureFileType line :
  line ∈ mtl_prints t textureFileType ↔
  line ∈ [MtlText "# \n"; MtlText "# Wavefront material file\n";
          MtlText "# Created with AliceVision\n"; MtlText "# \n\n"] ∨
  ∃ atlasID : nat, (atlasID < length (_atlases t))%nat ∧
    line ∈ mtl_atlas textureFileType atlasID.
Proof.
  unfold mtlPrints. rewrite elem_of_app, elem_of_concat. split.
  - intros [?|(l & Hl & Hx)]; [by left|right].
    apply list_elem_of_fmap in Hl as (a & -> & Ha). apply elem_of_seq in Ha.
    exists a. split; [lia|done].
  - intros [?|(a & Ha & Hx)]; [by left|right].
    eexists. split; [|exact Hx]. apply list_elem_of_fmap. exists a. split; [done|].
    apply elem_of_seq. lia.
Qed.

(** The face of a triangle whose corners [generateTexture] can read. *)
Lemma objFace_of_corners t mesh triangleID :
  me t = Some mesh →
  Z.of_nat (length (pts mesh)) < 2 ^ 31 → Z.of_nat (length (uvCoords t)) < 2 ^ 31 →
  is_Some (triangleCorners t triangleID) →
  ∃ tri uvIds,
    vec_at (tris mesh) triangleID = Some tri ∧
    vec_at (trisUvIds t) triangleID = Some uvIds ∧
    objFace t mesh triangleID =
      Some (ObjFace (v0 tri + 1) (m0 uvIds + 1) (v1 tri + 1) (m1 uvIds + 1)
              (v2 tri + 1) (m2 uvIds + 1)) ∧
    (∀ v, v ∈ [v0 tri; v1 tri; v2 tri] → 0 <= v < Z.of_nat (length (pts mesh))) ∧
    (∀ u, u ∈ [m0 uvIds; m1 uvIds; m2 uvIds] → 0 <= u < Z.of_nat (length (uvCoords t))).
Proof.
  intros Hme Hpts Huvs [corners Hc]. unfold triangleCorners in Hc. rewrite Hme in Hc.
  simpl in Hc.
  apply bind_Some in Hc as (tri & Htri & Hc).
  apply bind_Some in Hc as (uvIds & Huv & Hc).
  apply bind_Some in Hc as (p0 & Hp0%vec_at_length & Hc).
  apply bind_Some in Hc as (u0 & Hu0%vec_at_length & Hc).
  apply bind_Some in Hc as (p1 & Hp1%vec_at_length & Hc).
  apply bind_Some in Hc as (u1 & Hu1%vec_at_length & Hc).
  apply bind_Some in Hc as (p2 & Hp2%vec_at_length & Hc).
  apply bind_Some in Hc as (u2 & Hu2%vec_at_length & _).
  exists tri, uvIds. split; [done|]. split; [done|]. split; [|split].
  - unfold objFace, succ_int. rewrite Htri, Huv. simpl.
    rewrite !decide_True by lia. done.
  - intros v Hv. apply list_elem_of_In in Hv. simpl in Hv.
    destruct Hv as [<-|[<-|[<-|[]]]]; done.
  - intros u Hu. apply list_elem_of_In in Hu. simpl in Hu.
    destruct Hu as [<-|[<-|[<-|[]]]]; done.
Qed.

(** The lines written for the atlases, from the faces of their triangles. *)
Lemma objAtlas_faces t mesh groups :
  mapM (mapM (objFace t mesh)) (_atlases t) = Some groups →
  mapM (λ ia : nat * list Z, objAtlas t mesh ia.1 ia.2)
    (imap (λ i atlas, (i, atlas)) (_atlases t))
  = Some (imap (λ (atlasID : nat) faces, ObjUsemtl (Z.of_nat atlasID) :: faces) groups).
Proof.
  rewrite !mapM_Some. intros H. apply Forall2_lookup. intros i.
  rewrite !list_lookup_imap.
  pose proof (proj1 (Forall2_lookup _ _ _) H i) as Hi.
  destruct Hi as [atlas faces Hfaces|]; simpl; constructor.
  unfold objAtlas. simpl. by rewrite Hfaces.
Qed.

Lemma triangle_points_uvs_of_corners t mesh triangleID :
  me t = Some mesh → is_Some (triangleCorners t triangleID) →
  is_Some (triangle_points_uvs t mesh triangleID).
Proof.
  intros Hme [corners Hc]. unfold triangleCorners in Hc. rewrite Hme in Hc. simpl in Hc.
  unfold triangle_points_uvs.
  apply bind_Some in Hc as (tri & -> & Hc). cbn [mbind option_bind].
  apply bind_Some in Hc as (uvIds & -> & Hc). cbn [mbind option_bind].
  apply bind_Some in Hc as (p0 & -> & Hc). cbn [mbind option_bind].
  apply bind_Some in Hc as (u0 & -> & Hc). cbn [mbind option_bind].
  apply bind_Some in Hc as (p1 & -> & Hc). cbn [mbind option_bind].
  apply bind_Some in Hc as (u1 & -> & Hc). cbn [mbind option_bind].
  apply bind_Some in Hc as (p2 & -> & Hc). cbn [mbind option_bind].
  apply bind_Some in Hc as (u2 & -> & _). cbn [mbind option_bind].
  by eexists.
Qed.

Lemma obj_face_corners_of_triangle t mesh obj tri uvIds triangleID :
  obj_v_lines obj = pts mesh → obj_vt_lines obj = uvCoords t →
  vec_at (tris mesh) triangleID = Some tri →
  vec_at (trisUvIds t) triangleID = Some uvIds →
  obj_face_corners obj
    (ObjFace (v0 tri + 1) (m0 uvIds + 1) (v1 tri + 1) (m1 uvIds + 1)
       (v2 tri + 1) (m2 uvIds + 1))
  = triangle_points_uvs t mesh triangleID.
Proof.
  intros Hv Hvt Htri Huv. unfold obj_face_corners, triangle_points_uvs, obj_line.
  rewrite Hv, Hvt, Htri, Huv. simpl. by rewrite !Z.add_simpl_r.
Qed.

(** X13. Whenever the corners of every triangle of every atlas can be read
    (as [generateTexture] reads them) and there are fewer than 2^31 points
    and UV coordinates, [saveAsOBJ] reads inside its vectors; the [v] lines
    of the .obj file are the points, in their order and number, its [vt]
    lines the UV coordinates; its [usemtl] and [f] lines are, atlas after
    atlas, the [usemtl] of the atlas followed by one face per triangle of the
    atlas, in the order of the atlas; and every face holds the vertex and UV
    indices of its triangle plus 1, which lie between 1 and the number of
    [v] (or [vt]) lines and, counted from 1 among those lines, name the
    points and the UV coordinates of the corners of the triangle. *)
Theorem saveAsOBJ_faces_reference_lines t mesh basename textureFileType :
  me t = Some mesh →
  Z.of_nat (length (pts mesh)) < 2 ^ 31 → Z.of_nat (length (uvCoords t)) < 2 ^ 31 →
  (∀ atlas triangleID, atlas ∈ _atlases t → triangleID ∈ atlas →
     is_Some (triangleCorners t triangleID)) →
  ∃ obj mtl groups,
    saveAsOBJ EImageFileType EImageFileType_enumToString t basename textureFileType
      = Some (obj, mtl) ∧
    obj_v_lines obj = pts mesh ∧
    obj_vt_lines obj = uvCoords t ∧
    obj_face_lines obj =
      concat (imap (λ (atlasID : nat) faces, ObjUsemtl (Z.of_nat atlasID) :: faces) groups) ∧
    Forall2 (Forall2 (λ triangleID face,
      ∃ tri uvIds corners,
        vec_at (tris mesh) triangleID = Some tri ∧
        vec_at (trisUvIds t) triangleID = Some uvIds ∧
        face = ObjFace (v0 tri + 1) (m0 uvIds + 1) (v1 tri + 1) (m1 uvIds + 1)
                 (v2 tri + 1) (m2 uvIds + 1) ∧
        triangle_points_uvs t mesh triangleID = Some corners ∧
        obj_face_corners obj face = Some corners ∧
        (∀ v, v ∈ [v0 tri + 1; v1 tri + 1; v2 tri + 1] →
           1 <= v <= Z.of_nat (length (obj_v_lines obj))) ∧
        (∀ u, u ∈ [m0 uvIds + 1; m1 uvIds + 1; m2 uvIds + 1] →
           1 <= u <= Z.of_nat (length (obj_vt_lines obj)))))
      (_atlases t) groups.
Proof.
  intros Hme Hpts Huvs Hcorners.
  assert (is_Some (mapM (mapM (objFace t mesh)) (_atlases t))) as [groups Hgroups].
  { apply mapM_is_Some, Forall_forall. intros atlas Hatlas.
    apply mapM_is_Some, Forall_forall. intros tid Htid. simpl.
    destruct (objFace_of_corners t mesh tid Hme Hpts Huvs (Hcorners atlas tid Hatlas Htid))
      as (tri & uvIds & _ & _ & -> & _). by eexists. }
  pose proof (objAtlas_faces t mesh groups Hgroups) as Hprints.
  set (lines := imap (λ (atlasID : nat) faces, ObjUsemtl (Z.of_nat atlasID) :: faces)
                  groups) in *.
  assert (Hlines : Forall (λ line, ∃ a b, line = ObjUsemtl a ∨
                      ∃ c d e f, line = ObjFace a b c d e f) (concat lines)).
  { apply Forall_forall. intros line (group & Hgr & Hx)%elem_of_concat.
    apply elem_of_lookup_imap in Hgr as (i & faces & -> & Hfaces).
    apply elem_of_cons in Hx as [->|Hx]; [exists (Z.of_nat i), 0; by left|].
    apply mapM_Some in Hgroups.
    destruct (Forall2_lookup_r _ _ _ _ _ Hgroups Hfaces) as (atlas & Hatlas & Hf).
    apply mapM_Some in Hf. apply list_elem_of_lookup in Hx as [n Hn].
    destruct (Forall2_lookup_r _ _ _ _ _ Hf Hn) as (tid & Htid & Hface).
    destruct (objFace_of_corners t mesh tid Hme Hpts Huvs) as (tri & uvIds & _ & _ & Heq & _).
    { apply (Hcorners atlas); by eapply list_elem_of_lookup_2. }
    rewrite Heq in Hface. injection Hface as <-. eexists _, _. right. by eexists _, _, _, _. }
  set (header := [ObjText "# \n"; ObjText "# Wavefront OBJ file\n";
                  ObjText "# Created with AliceVision\n"; ObjText "# \n";
                  ObjMtllib (basename +:+ ".mtl"); ObjText "g TexturedMesh\n"]).
  set (obj := header ++ (ObjV <$> pts mesh) ++ (ObjVt <$> uvCoords t) ++ concat lines).
  assert (Hv : obj_v_lines obj = pts mesh).
  { unfold obj, obj_v_lines. rewrite !omap_app.
    rewrite (omap_fmap_Some _ ObjV) by done.
    rewrite (omap_all_None _ (ObjVt <$> _)) by (apply Forall_fmap, Forall_forall; done).
    rewrite (omap_all_None _ (concat lines)).
    - simpl. by rewrite app_nil_r.
    - eapply Forall_impl; [exact Hlines|].
      intros line (a & b & [->|(c & d & e & f & ->)]); done. }
  assert (Hvt : obj_vt_lines obj = uvCoords t).
  { unfold obj, obj_vt_lines. rewrite !omap_app.
    rewrite (omap_fmap_Some _ ObjVt) by done.
    rewrite (omap_all_None _ (ObjV <$> _)) by (apply Forall_fmap, Forall_forall; done).
    rewrite (omap_all_None _ (concat lines)).
    - simpl. by rewrite app_nil_r.
    - eapply Forall_impl; [exact Hlines|].
      intros line (a & b & [->|(c & d & e & f & ->)]); done. }
  exists obj, (mtlPrints EImageFileType EImageFileType_enumToString t textureFileType),
    groups.
  split.
  { unfold saveAsOBJ, objPrints. rewrite Hme. simpl. rewrite Hprints. done. }
  split; [done|]. split; [done|]. split.
  { unfold obj, obj_face_lines. rewrite !omap_app.
    rewrite (omap_all_None _ (ObjV <$> _)) by (apply Forall_fmap, Forall_forall; done).
    rewrite (omap_all_None _ (ObjVt <$> _)) by (apply Forall_fmap, Forall_forall; done).
    rewrite (omap_all_Some _ (concat lines)); [done|].
    eapply Forall_impl; [exact Hlines|].
    intros line (a & b & [->|(c & d & e & f & ->)]); done. }
  apply mapM_Some in Hgroups.
  eapply Forall2_impl_elem; [exact Hgroups|].
  intros atlas faces Hatlas Hfaces. simpl in Hfaces. apply mapM_Some in Hfaces.
  eapply Forall2_impl_elem; [exact Hfaces|].
  intros tid face Htid Hface. simpl in Hface.
  pose proof (Hcorners atlas tid Hatlas Htid) as Hc.
  destruct (objFace_of_corners t mesh tid Hme Hpts Huvs Hc)
    as (tri & uvIds & Htri & Huv & Heq & Hvr & Hur).
  destruct (triangle_points_uvs_of_corners t mesh tid Hme Hc) as [corners Hcs].
  rewrite Heq in Hface. injection Hface as <-.
  exists tri, uvIds, corners. split; [done|]. split; [done|]. split; [done|].
  split; [done|]. split.
  { by rewrite (obj_face_corners_of_triangle t mesh obj tri uvIds tid). }
  rewrite Hv, Hvt. split.
  - intros v Hin. apply list_elem_of_In in Hin. simpl in Hin.
    destruct Hin as [<-|[<-|[<-|[]]]].
    + pose proof (Hvr (v0 tri) ltac:(apply list_elem_of_In; simpl; auto)). lia.
    + pose proof (Hvr (v1 tri) ltac:(apply list_elem_of_In; simpl; auto)). lia.
    + pose proof (Hvr (v2 tri) ltac:(apply list_elem_of_In; simpl; auto)). lia.
  - intros u Hin. apply list_elem_of_In in Hin. simpl in Hin.
    destruct Hin as [<-|[<-|[<-|[]]]].
    + pose proof (Hur (m0 uvIds) ltac:(apply list_elem_of_In; simpl; auto)). lia.
    + pose proof (Hur (m1 uvIds) ltac:(apply list_elem_of_In; simpl; auto)). lia.
    + pose proof (Hur (m2 uvIds) ltac:(apply list_elem_of_In; simpl; auto)). lia.
Qed.

End SaveAsOBJFaces.

Section SaveAsOBJMaterials.

Variable ncams : Z.
Variable getPixelFor3DPoint : Point3d → Z → Point2d.
Variable isPixelInImage : Point2d → Z → bool.
Variable getPixelValueInterpolated : Point2d → Z → Color.
Variable point_triangle_squared_distance :
  Point2d → Point2d → Point2d → Point2d → TriangleDistance.
Variable imageIO_fillHoles : Z → Z → list Color → list Qc → list Color.
Variable imageIO_resizeImage : Z → Z → Z → list Color → list Color.
Variable EImageFileType : Type.
Variable EImageFileType_enumToString : EImageFileType → string.

Local Abbreviation mtl_prints' := (mtlPrints EImageFileType EImageFileType_enumToString).

(** X14. What [saveAsOBJ] writes is consistent with the textures: the .obj
    file names the [basename].mtl library and uses one material per atlas
    (a material being known by the atlas id handed to [fprintf]), the .mtl
    file defines exactly these materials, and its [map_Kd] lines
    name exactly the files texture_i with the extension of the file type,
    for the atlases i; so every texture that [generateTexture] writes for
    an atlas is named by the .mtl file, whose material is used in the .obj
    file. *)
Theorem saveAsOBJ_materials_name_textures t basename textureFileType obj mtl :
  saveAsOBJ EImageFileType EImageFileType_enumToString t basename textureFileType
    = Some (obj, mtl) →
  ObjMtllib (basename +:+ ".mtl") ∈ obj ∧
  (∀ atlasID, ObjUsemtl atlasID ∈ obj ↔ 0 <= atlasID < Z.of_nat (length (_atlases t))) ∧
  (∀ atlasID, MtlNewmtl atlasID ∈ mtl ↔ 0 <= atlasID < Z.of_nat (length (_atlases t))) ∧
  (∀ textureName,
     MtlMapKd textureName ∈ mtl ↔
     ∃ atlasID, 0 <= atlasID < Z.of_nat (length (_atlases t)) ∧
       textureName =
         "texture_" +:+ pretty atlasID +:+ "." +:+
         EImageFileType_enumToString textureFileType) ∧
  (∀ atlasID textureName outTextureSide colorBuffer,
     generateTexture ncams getPixelFor3DPoint isPixelInImage getPixelValueInterpolated
       point_triangle_squared_distance imageIO_fillHoles imageIO_resizeImage
       EImageFileType EImageFileType_enumToString t atlasID textureFileType
       = Written textureName outTextureSide colorBuffer →
     ObjUsemtl atlasID ∈ obj ∧ MtlNewmtl atlasID ∈ mtl ∧ MtlMapKd textureName ∈ mtl).
Proof.
  unfold saveAsOBJ, objPrints. intros Hsave.
  destruct (me t) as [mesh|]; [|done]. simpl in Hsave.
  destruct (mapM _ _) as [groups|] eqn:Hgroups; [|done]. simpl in Hsave.
  injection Hsave as <- <-.
  apply objAtlas_groups in Hgroups.
  assert (Huse : ∀ atlasID,
            ObjUsemtl atlasID ∈ concat groups ↔
            0 <= atlasID < Z.of_nat (length (_atlases t))).
  { intros atlasID. rewrite elem_of_concat. split.
    - intros (group & Hg & Hx).
      apply list_elem_of_lookup in Hg as [i Hg].
      destruct (Forall2_lookup_r _ _ _ _ _ Hgroups Hg) as ([i' atlas] & Hia & faces & -> & Hf).
      apply list_elem_of_lookup_2 in Hia.
      apply elem_of_lookup_imap in Hia as (k & y & [= -> ->] & Hk).
      simpl in Hx. apply elem_of_cons in Hx as [[= ->]|Hx].
      + apply lookup_lt_Some in Hk. lia.
      + exfalso. apply list_elem_of_lookup in Hx as [n Hn].
        destruct (Forall2_lookup_r _ _ _ _ _ Hf Hn) as (tid & _ & Hface).
        unfold objFace in Hface. simpl in Hface.
        repeat (apply bind_Some in Hface as (? & _ & Hface)). done.
    - intros Ha.
      destruct (lookup_lt_is_Some_2 (_atlases t) (Z.to_nat atlasID)) as [atlas Hatlas]; [lia|].
      assert (imap (λ i atlas, (i, atlas)) (_atlases t) !! Z.to_nat atlasID
              = Some (Z.to_nat atlasID, atlas)) as Hia.
      { by rewrite list_lookup_imap, Hatlas. }
      destruct (Forall2_lookup_l _ _ _ _ _ Hgroups Hia) as (group & Hg & faces & -> & _).
      exists (ObjUsemtl (Z.of_nat (Z.to_nat atlasID)) :: faces).
      split; [by eapply list_elem_of_lookup_2|].
      simpl. rewrite Z2Nat.id by lia. apply list_elem_of_here. }
  assert (Hobj : ∀ atlasID,
            ObjUsemtl atlasID ∈
              [ObjText "# \n"; ObjText "# Wavefront OBJ file\n";
               ObjText "# Created with AliceVision\n"; ObjText "# \n";
               ObjMtllib (basename +:+ ".mtl"); ObjText "g TexturedMesh\n"]
              ++ (ObjV <$> pts mesh) ++ (ObjVt <$> uvCoords t) ++ concat groups ↔
            0 <= atlasID < Z.of_nat (length (_atlases t))).
  { intros atlasID. rewrite <- Huse. rewrite !elem_of_app. split; [|auto].
    intros [H|[H|[H|H]]]; [| | |done]; exfalso.
    - apply list_elem_of_In in H. simpl in H. intuition congruence.
    - apply list_elem_of_fmap in H as (? & ? & _). done.
    - apply list_elem_of_fmap in H as (? & ? & _). done. }
  assert (Hnew : ∀ atlasID,
            MtlNewmtl atlasID ∈ mtl_prints' t textureFileType ↔
            0 <= atlasID < Z.of_nat (length (_atlases t))).
  { intros atlasID. rewrite (mtlPrints_elem EImageFileType EImageFileType_enumToString). split.
    - intros [H|(a & Ha & H)]; apply list_elem_of_In in H; simpl in H.
      + exfalso. intuition congruence.
      + assert (atlasID = Z.of_nat a) as -> by (intuition congruence). lia.
    - intros Ha. right. exists (Z.to_nat atlasID). split; [lia|].
      apply list_elem_of_In. simpl. right. left. f_equal. lia. }
  assert (Hmap : ∀ textureName,
            MtlMapKd textureName ∈ mtl_prints' t textureFileType ↔
            ∃ atlasID, 0 <= atlasID < Z.of_nat (length (_atlases t)) ∧
              textureName =
                "texture_" +:+ pretty atlasID +:+ "." +:+
                EImageFileType_enumToString textureFileType).
  { intros textureName. rewrite (mtlPrints_elem EImageFileType EImageFileType_enumToString). split.
    - intros [H|(a & Ha & H)]; apply list_elem_of_In in H; simpl in H.
      + exfalso. intuition congruence.
      + exists (Z.of_nat a). split; [lia|]. intuition congruence.
    - intros (atlasID & Ha & ->). right. exists (Z.to_nat atlasID). split; [lia|].
      apply list_elem_of_In. simpl. do 8 right. left.
      rewrite Z2Nat.id by lia. done. }
  split.
  { apply list_elem_of_In. simpl. auto 10. }
  split; [done|]. split; [done|]. split; [done|].
  intros atlasID textureName outTextureSide colorBuffer Hgen.
  unfold generateTexture in Hgen. case_decide as Hlt; [done|].
  destruct (bakeColorBuffer _ _ _ _ _ _ _) as [[cb ab]|] eqn:Hbake; [|done].
  assert (0 <= atlasID) as Hnn.
  { unfold bakeColorBuffer in Hbake.
    apply bind_Some in Hbake as (atlas & Hatlas & _).
    apply vec_at_length in Hatlas. lia. }
  assert (textureName =
            "texture_" +:+ pretty atlasID +:+ "." +:+
            EImageFileType_enumToString textureFileType) as ->.
  { case_decide; by injection Hgen as <- _ _. }
  split; [apply Hobj; lia|]. split; [apply Hnew; lia|].
  apply Hmap. exists atlasID. split; [lia|done].
Qed.


End SaveAsOBJMaterials.
Lemma saveAsOBJ_materials_name_textures_witness :
  ∃ obj mtl,
    saveAsOBJ unit (λ _, "png") texturing_one_triangle "mesh" tt = Some (obj, mtl) ∧
    ObjMtllib "mesh.mtl" ∈ obj ∧
    ∀ atlasID, ObjUsemtl atlasID ∈ obj ↔ 0 <= atlasID < 1.
Proof.
  eexists _, _. split; [reflexivity|].
  destruct (saveAsOBJ_materials_name_textures 2 flat_projection whole_plane_image
              two_camera_colors barycentric_distance (λ _ _ colorBuffer _, colorBuffer)
              (λ _ _ _ colorBuffer, colorBuffer) unit (λ _, "png")
              texturing_one_triangle "mesh" tt _ _ eq_refl) as (Hlib & Huse & _).
  split; [exact Hlib|exact Huse].
Defined.

Lemma saveAsOBJ_faces_reference_lines_witness :
  ∃ obj mtl,
    saveAsOBJ unit (λ _, "png") texturing_one_triangle "mesh" tt = Some (obj, mtl) ∧
    obj_v_lines obj = [mkPoint3d 0 0 0; mkPoint3d 1 0 0; mkPoint3d 0 1 0] ∧
    obj_face_lines obj = [ObjUsemtl 0; ObjFace 1 1 2 2 3 3] ∧
    obj_face_corners obj (ObjFace 1 1 2 2 3 3) =
      triangle_points_uvs texturing_one_triangle
        (mkMesh [mkPoint3d 0 0 0; mkPoint3d 1 0 0; mkPoint3d 0 1 0] [mkTriangle 0 1 2]) 0.
Proof.
  destruct (saveAsOBJ_faces_reference_lines unit (λ _, "png") texturing_one_triangle
              (mkMesh [mkPoint3d 0 0 0; mkPoint3d 1 0 0; mkPoint3d 0 1 0] [mkTriangle 0 1 2])
              "mesh" tt) as (obj & mtl & groups & Hsave & Hv & _ & Hfaces & Hrel).
  - reflexivity.
  - simpl. lia.
  - simpl. lia.
  - intros atlas triangleID Hatlas Htid.
    apply list_elem_of_In in Hatlas. simpl in Hatlas. destruct Hatlas as [<-|[]].
    apply list_elem_of_In in Htid. simpl in Htid. destruct Htid as [<-|[]].
    eexists. reflexivity.
  - exists obj, mtl. split; [exact Hsave|]. split; [exact Hv|].
    apply Forall2_cons_inv_l in Hrel as (faces & groups' & Hf & Hrest & ->).
    apply Forall2_nil_inv_l in Hrest as ->.
    apply Forall2_cons_inv_l in Hf as (face & faces' & Hface & Hrest & ->).
    apply Forall2_nil_inv_l in Hrest as ->.
    destruct Hface as (tri & uvIds & corners & Htri & Huv & -> & Hcs & Hfc & _).
    injection Htri as <-. injection Huv as <-.
    split; [exact Hfaces|]. rewrite Hcs. exact Hfc.
Defined.

(** ** generateTexture: the alpha buffer *)

Lemma colorCell_alpha tp ids accs yp xp buf alpha :
  textureSide tp * textureSide tp <= 2 ^ 31 →
  0 <= yp < textureSide tp → 0 <= xp < textureSide tp →
  Z.of_nat (length ids) = textureSide tp * textureSide tp →
  Z.of_nat (length accs) = textureSide tp * textureSide tp →
  (∀ j, 0 <= j < textureSide tp * textureSide tp →
        texel ids j < textureSide tp * textureSide tp) →
  Z.of_nat (length buf) = textureSide tp * textureSide tp →
  Z.of_nat (length alpha) = textureSide tp * textureSide tp →
  fillHoles tp = true →
  ∃ buf', colorCell tp ids accs yp xp (buf, alpha) =
      Some (buf',
            if decide (0 <= texel ids (yp * textureSide tp + xp))
            then <[Z.to_nat (yp * textureSide tp + xp) := 1%Qc]> alpha else alpha) ∧
    length buf' = length buf.
Proof.
  intros Hsize Hy Hx Hids Haccs Hb Hbuf Halpha Hfill.
  assert (0 <= yp * textureSide tp + xp < textureSide tp * textureSide tp) as Hxy by nia.
  unfold colorCell.
  rewrite (u32_small (yp * textureSide tp)) by nia. rewrite u32_small by lia.
  rewrite texel_lookup by lia. simpl.
  pose proof (Hb (yp * textureSide tp + xp) Hxy) as Hid.
  case_decide as Hpos.
  - destruct (vec_at_lt accs (texel ids (yp * textureSide tp + xp))) as [acc Hacc]; [lia|].
    rewrite Hacc. simpl. rewrite Hfill.
    unfold vec_set. rewrite !decide_True by lia. simpl.
    eexists. split; [done|]. by rewrite length_insert.
  - unfold vec_set. rewrite decide_True by lia. simpl.
    eexists. split; [done|]. by rewrite length_insert.
Qed.

Lemma fillColorBuffer_alpha tp ids accs :
  0 <= textureSide tp → textureSide tp * textureSide tp <= 2 ^ 31 →
  Z.of_nat (length ids) = textureSide tp * textureSide tp →
  Z.of_nat (length accs) = textureSide tp * textureSide tp →
  (∀ j, 0 <= j < textureSide tp * textureSide tp →
        texel ids j < textureSide tp * textureSide tp) →
  fillHoles tp = true →
  ∃ buf alpha, fillColorBuffer tp ids accs = Some (buf, alpha) ∧
    Z.of_nat (length alpha) = textureSide tp * textureSide tp ∧
    ∀ i, 0 <= i < textureSide tp * textureSide tp →
         vec_at alpha i = Some (if decide (0 <= texel ids i) then 1%Qc else 0%Qc).
Proof.
  intros Hside Hsize Hids Haccs Hb Hfill. unfold fillColorBuffer. rewrite Hfill.
  set (side := textureSide tp) in *.
  pose (I := λ (bound : Z) (bufs : list Color * list Qc),
    Z.of_nat (length bufs.1) = side * side ∧
    Z.of_nat (length bufs.2) = side * side ∧
    ∀ i, 0 <= i < side * side →
      vec_at bufs.2 i =
      Some (if decide (i < bound ∧ 0 <= texel ids i) then 1%Qc else 0%Qc)).
  destruct (for_range_ind
    (λ yp bufs, for_range 0 side (λ xp bufs, colorCell tp ids accs yp xp bufs) bufs)
    (λ yp bufs, I (yp * side) bufs) 0 side
    (replicate (Z.to_nat (u32 (side * side))) Color_default,
     replicate (length (replicate (Z.to_nat (u32 (side * side))) Color_default)) 0%Qc))
    as ([buf alpha] & Hrun & _ & Hlen & Hspec).
  - done.
  - rewrite u32_small by lia. split_and!; simpl.
    + rewrite length_replicate. lia.
    + rewrite !length_replicate. lia.
    + intros i Hi. rewrite length_replicate.
      rewrite vec_at_replicate by lia. rewrite decide_False; [done|lia].
  - intros yp bufs Hyp HI.
    destruct (for_range_ind (λ xp bufs, colorCell tp ids accs yp xp bufs)
      (λ xp bufs, I (yp * side + xp) bufs) 0 side bufs) as (bufs' & Hrun & HI').
    + done.
    + by rewrite Z.add_0_r.
    + intros xp [buf alpha] Hxp (Hlen & Halpha & Hspec). cbn [fst snd] in *.
      destruct (colorCell_alpha tp ids accs yp xp buf alpha) as (buf' & Hcell & Hlenb);
        try done.
      eexists. split; [exact Hcell|]. fold side. split_and!; cbn [fst snd].
      * lia.
      * destruct (decide (0 <= texel ids (yp * side + xp)));
          [by rewrite length_insert|done].
      * intros i Hi.
        assert (0 <= yp * side + xp < side * side) as Hxy by nia.
        destruct (decide (i = yp * side + xp)) as [->|Hne].
        -- destruct (decide (0 <= texel ids (yp * side + xp))) as [Hpos|Hneg].
           ++ unfold vec_at. rewrite decide_True by lia.
              rewrite list_lookup_insert_eq by lia.
              rewrite decide_True; [done|lia].
           ++ rewrite Hspec by done. repeat case_decide; try done; exfalso; lia.
        -- assert (vec_at (if decide (0 <= texel ids (yp * side + xp))
                           then <[Z.to_nat (yp * side + xp) := 1%Qc]> alpha else alpha) i
                   = vec_at alpha i) as ->.
           { destruct (decide (0 <= texel ids (yp * side + xp))); [|done]. unfold vec_at.
             destruct (decide (0 <= i)); [|done].
             by rewrite list_lookup_insert_ne by lia. }
           rewrite Hspec by done. repeat case_decide; try done; exfalso; lia.
    + exists bufs'. split; [done|].
      replace ((yp + 1) * side) with (yp * side + side) by lia. done.
  - exists buf, alpha. simpl in *. split; [done|]. split; [done|].
    intros i Hi. rewrite Hspec by done.
    repeat case_decide; try done; exfalso; lia.
Qed.

Section AlphaMask.

Variable ncams : Z.
Variable getPixelFor3DPoint : Point3d → Z → Point2d.
Variable isPixelInImage : Point2d → Z → bool.
Variable getPixelValueInterpolated : Point2d → Z → Color.
Variable point_triangle_squared_distance :
  Point2d → Point2d → Point2d → Point2d → TriangleDistance.

(** X15. With hole filling on, the alpha buffer that [generateTexture]
    hands to [imageIO::fillHoles] has one value per texel: 1 where at least
    one sample reached the texel, 0 elsewhere; the edge padding does not run
    and changes nothing of it. *)
Theorem bakeColorBuffer_alpha_marks_samples t atlasID atlas camTriangles evs :
  let tp := texParams t in
  let size := textureSide tp * textureSide tp in
  let cams := imap (λ camId triangles, (camId, triangles)) camTriangles in
  0 <= textureSide tp → size <= 2 ^ 31 → fillHoles tp = true →
  vec_at (_atlases t) atlasID = Some atlas →
  registerCamTriangles ncams t atlas = Some camTriangles →
  textureSamples getPixelFor3DPoint isPixelInImage getPixelValueInterpolated
    point_triangle_squared_distance t cams = Some evs →
  ∃ colorBuffer alphaBuffer,
    bakeColorBuffer ncams getPixelFor3DPoint isPixelInImage getPixelValueInterpolated
      point_triangle_squared_distance t atlasID = Some (colorBuffer, alphaBuffer) ∧
    Z.of_nat (length alphaBuffer) = size ∧
    ∀ i, 0 <= i < size →
      vec_at alphaBuffer i =
      Some (if decide (samples_at i evs = []) then 0%Qc else 1%Qc).
Proof.
  cbv zeta. intros Hside Hsize Hfill Hatlas Hreg Hevs.
  set (tp := texParams t) in *.
  set (size := textureSide tp * textureSide tp) in *.
  set (cams := imap (λ camId triangles, (camId, triangles)) camTriangles) in *.
  assert (0 <= size) as Hsize0 by (subst size; nia).
  assert (Z.of_nat (Z.to_nat size) = size) as Hnat by lia.
  destruct (applySamples_spec evs (replicate (Z.to_nat size) (-1))
              (replicate (Z.to_nat size) AccuColor_new))
    as (ids & accs & Hrun & Hlen1 & Hlen2 & Hspec).
  { by rewrite !length_replicate. }
  { intros e He. rewrite length_replicate, Hnat.
    eapply textureSamples_range; [exact Hsize| |exact Hevs|exact He].
    fold tp. lia. }
  rewrite length_replicate in Hlen1, Hlen2, Hspec. rewrite Hnat in Hspec.
  assert (Hids : ∀ j, 0 <= j < size →
            texel ids j = if decide (samples_at j evs = []) then -1 else j).
  { intros j Hj. destruct (Hspec j Hj) as [-> _].
    rewrite texel_replicate by lia. rewrite i32_small by lia. done. }
  assert (∀ j, 0 <= j < size → texel ids j < size) as Hb.
  { intros j Hj. rewrite (Hids j Hj). case_decide; lia. }
  destruct (fillColorBuffer_alpha tp ids accs) as (buf & alpha & Hfillrun & Hlena & Halpha);
    [lia|done|fold size; lia|fold size; lia|done|done|].
  fold size in Hlena, Halpha.
  exists buf, alpha. split; [|split; [done|]].
  - unfold bakeColorBuffer. rewrite Hatlas. simpl. rewrite Hreg. simpl.
    unfold bakeCameras. fold tp. fold size. rewrite u32_small by lia.
    fold cams. rewrite rasterCameraList_samples, Hevs. simpl. rewrite Hrun. simpl.
    rewrite (edgePadding_off tp size ids) by auto. simpl. done.
  - intros i Hi. rewrite (Halpha i Hi), (Hids i Hi).
    repeat case_decide; try done; exfalso; lia.
Qed.

End AlphaMask.

Lemma bakeColorBuffer_alpha_marks_samples_witness :
  ∃ colorBuffer alphaBuffer,
    bakeColorBuffer 2 flat_projection whole_plane_image two_camera_colors
      barycentric_distance texturing_fill_holes 0 = Some (colorBuffer, alphaBuffer) ∧
    vec_at alphaBuffer 3 = Some 1%Qc ∧ vec_at alphaBuffer 4 = Some 0%Qc.
Proof.
  destruct (bakeColorBuffer_alpha_marks_samples 2 flat_projection whole_plane_image
              two_camera_colors barycentric_distance texturing_fill_holes 0
              [0] [[0]; [0]] [(3, red); (3, blue)])
    as (buf & alpha & Hbake & _ & Hspec).
  - simpl. lia.
  - simpl. lia.
  - reflexivity.
  - reflexivity.
  - reflexivity.
  - reflexivity.
  - exists buf, alpha. split; [exact Hbake|].
    split; [apply (Hspec 3)|apply (Hspec 4)]; simpl; lia.
Defined.

(** ** generateTexture: the triangles of each camera *)

(** The inner loop: the triangle is pushed once in the list of each of its
    cameras. *)
Lemma registerTriangles_spec triangleId (l : list Z) : ∀ camTriangles,
  NoDup l → (∀ camId, camId ∈ l → 0 <= camId < Z.of_nat (length camTriangles)) →
  ∃ camTriangles',
    for_each (registerTriangle triangleId) l camTriangles = Some camTriangles' ∧
    length camTriangles' = length camTriangles ∧
    ∀ camId : nat,
      camTriangles' !! camId =
      (λ triangles, triangles ++ (if decide (Z.of_nat camId ∈ l) then [u32 triangleId] else []))
        <$> camTriangles !! camId.
Proof.
  induction l as [|a l IH]; intros camTriangles Hnd Hin; cbn [for_each].
  - exists camTriangles. split; [done|]. split; [done|].
    intros camId. destruct (camTriangles !! camId); [|done].
    cbn [fmap option_fmap option_map].
    rewrite decide_False by apply not_elem_of_nil. by rewrite app_nil_r.
  - apply NoDup_cons in Hnd as [Ha Hnd].
    assert (0 <= a < Z.of_nat (length camTriangles)) as Har by (apply Hin; left).
    destruct (vec_at_lt camTriangles a Har) as [triangles Htri].
    assert (registerTriangle triangleId a camTriangles =
            Some (<[Z.to_nat a := triangles ++ [u32 triangleId]]> camTriangles)) as ->.
    { unfold registerTriangle. rewrite Htri. cbn [mbind option_bind].
      unfold vec_set. by rewrite decide_True by done. }
    cbn [mbind option_bind].
    destruct (IH (<[Z.to_nat a := triangles ++ [u32 triangleId]]> camTriangles))
      as (camTriangles' & Hrun & Hlen & Hspec); [done| |].
    { intros camId Hc. rewrite length_insert. apply Hin. by right. }
    exists camTriangles'. split; [done|]. split; [by rewrite Hlen, length_insert|].
    intros camId. rewrite Hspec.
    unfold vec_at in Htri. rewrite decide_True in Htri by lia.
    destruct (decide (camId = Z.to_nat a)) as [->|Hne].
    + rewrite list_lookup_insert_eq by lia. rewrite Htri.
      cbn [fmap option_fmap option_map].
      rewrite Z2Nat.id by lia.
      rewrite decide_False by done. rewrite decide_True by left.
      by rewrite app_nil_r.
    + rewrite list_lookup_insert_ne by done.
      destruct (camTriangles !! camId) as [lst|]; [|done].
      cbn [fmap option_fmap option_map]. f_equal. f_equal.
      destruct (decide (Z.of_nat camId ∈ l)) as [Hl|Hl].
      * rewrite decide_True; [done|by right].
      * rewrite decide_False; [done|].
        intros [Heq|?]%elem_of_cons; [lia|done].
Qed.

Lemma registerCamTriangles_loop t (atlas : list Z) : ∀ camTriangles,
  (∀ triangleId, triangleId ∈ atlas →
     ∃ triCams, triangleCams t triangleId = Some triCams ∧
       ∀ camId, camId ∈ triCams → 0 <= camId < Z.of_nat (length camTriangles)) →
  ∃ camTriangles',
    for_each (λ triangleId camTriangles,
      triCams ← triangleCams t triangleId;
      for_each (registerTriangle triangleId) (merge_sort Z.le (elements triCams))
        camTriangles) atlas camTriangles = Some camTriangles' ∧
    length camTriangles' = length camTriangles ∧
    ∀ camId : nat,
      camTriangles' !! camId =
      (λ triangles,
         triangles ++ (u32 <$> filter (triangle_seen t (Z.of_nat camId)) atlas))
        <$> camTriangles !! camId.
Proof.
  induction atlas as [|triangleId atlas IH]; intros camTriangles Hin; cbn [for_each].
  - exists camTriangles. split; [done|]. split; [done|].
    intros camId. destruct (camTriangles !! camId); simpl; [by rewrite app_nil_r|done].
  - destruct (Hin triangleId) as (triCams & Hcams & Hrange); [left|].
    rewrite Hcams. cbn [mbind option_bind].
    assert (∀ camId, camId ∈ merge_sort Z.le (elements triCams) ↔ camId ∈ triCams) as Hel.
    { intros camId. rewrite merge_sort_Permutation. apply elem_of_elements. }
    destruct (registerTriangles_spec triangleId (merge_sort Z.le (elements triCams))
                camTriangles) as (camTriangles1 & Hrun1 & Hlen1 & Hspec1).
    { rewrite merge_sort_Permutation. apply NoDup_elements. }
    { intros camId Hc. apply Hrange. by apply Hel. }
    rewrite Hrun1. cbn [mbind option_bind].
    destruct (IH camTriangles1) as (camTriangles' & Hrun & Hlen & Hspec).
    { intros tid Htid. destruct (Hin tid) as (cs & ? & ?); [by right|].
      exists cs. split; [done|]. by rewrite Hlen1. }
    exists camTriangles'. split; [done|]. split; [lia|].
    intros camId. rewrite Hspec, Hspec1.
    destruct (camTriangles !! camId) as [lst|]; [|done].
    cbn [fmap option_fmap option_map]. f_equal.
    rewrite <- app_assoc. f_equal.
    assert (triangle_seen t (Z.of_nat camId) triangleId ↔ Z.of_nat camId ∈ triCams)
      as Hseen.
    { unfold triangle_seen. by rewrite Hcams. }
    rewrite filter_cons.
    destruct (decide (Z.of_nat camId ∈ triCams)) as [Hc|Hc].
    + rewrite decide_True by (by apply Hel).
      rewrite (decide_True (P := triangle_seen t (Z.of_nat camId) triangleId))
        by (by apply Hseen).
      done.
    + rewrite decide_False by (by rewrite Hel).
      rewrite (decide_False (P := triangle_seen t (Z.of_nat camId) triangleId))
        by (by rewrite Hseen).
      done.
Qed.

(** X16. When every triangle of the atlas has its points and their
    visibilities inside the vectors and is seen only by cameras below
    [ncams], the registration of [generateTexture] reads inside its
    vectors and gives each camera the triangles of the atlas that it sees
    (it sees one of their three points), in the order of the atlas, a
    triangle being listed once for each time the atlas holds it. *)
Theorem registerCamTriangles_by_camera ncams t atlas :
  (∀ triangleId, triangleId ∈ atlas →
     ∃ triCams, triangleCams t triangleId = Some triCams ∧
       ∀ camId, camId ∈ triCams → 0 <= camId < ncams) →
  ∃ camTriangles,
    registerCamTriangles ncams t atlas = Some camTriangles ∧
    length camTriangles = Z.to_nat ncams ∧
    ∀ camId, 0 <= camId < ncams →
      vec_at camTriangles camId =
      Some (u32 <$> filter (triangle_seen t camId) atlas).
Proof.
  intros Hin. unfold registerCamTriangles.
  destruct (registerCamTriangles_loop t atlas (replicate (Z.to_nat ncams) []))
    as (camTriangles & Hrun & Hlen & Hspec).
  { intros tid Htid. destruct (Hin tid Htid) as (cs & ? & Hr).
    exists cs. split; [done|]. intros camId Hc. rewrite length_replicate.
    specialize (Hr camId Hc). lia. }
  exists camTriangles. split; [done|]. rewrite length_replicate in Hlen.
  split; [done|]. intros camId Hc.
  unfold vec_at. rewrite decide_True by lia.
  rewrite Hspec, lookup_replicate_2 by lia. simpl.
  by rewrite Z2Nat.id by lia.
Qed.

Lemma registerCamTriangles_by_camera_witness :
  ∃ camTriangles,
    registerCamTriangles 2 texturing_one_triangle [0] = Some camTriangles ∧
    length camTriangles = 2%nat ∧
    ∀ camId, 0 <= camId < 2 →
      vec_at camTriangles camId =
      Some (u32 <$> filter (triangle_seen texturing_one_triangle camId) [0]).
Proof.
  apply (registerCamTriangles_by_camera 2 texturing_one_triangle [0]).
  intros triangleId Hin. apply list_elem_of_In in Hin. simpl in Hin.
  destruct Hin as [<-|[]].
  eexists. split; [reflexivity|]. intros camId Hc.
  apply elem_of_union in Hc as [Hc|Hc]; [apply elem_of_union in Hc as [Hc|Hc]|].
  - apply elem_of_list_to_set, list_elem_of_In in Hc. simpl in Hc. lia.
  - by apply elem_of_empty in Hc.
  - apply elem_of_list_to_set, list_elem_of_In in Hc. simpl in Hc. lia.
Defined.

(** ** generateTexture: when it is defined *)

Section GenerateTextureDefined.

Variable ncams : Z.
Variable getPixelFor3DPoint : Point3d → Z → Point2d.
Variable isPixelInImage : Point2d → Z → bool.
Variable getPixelValueInterpolated : Point2d → Z → Color.
Variable point_triangle_squared_distance :
  Point2d → Point2d → Point2d → Point2d → TriangleDistance.
Variable imageIO_fillHoles : Z → Z → list Color → list Qc → list Color.
Variable imageIO_resizeImage : Z → Z → Z → list Color → list Color.
Variable EImageFileType : Type.
Variable EImageFileType_enumToString : EImageFileType → string.

Local Abbreviation texture_samples' :=
  (textureSamples getPixelFor3DPoint isPixelInImage getPixelValueInterpolated
     point_triangle_squared_distance).
Local Abbreviation triangle_samples' :=
  (triangleSamples getPixelFor3DPoint isPixelInImage getPixelValueInterpolated
     point_triangle_squared_distance).
Local Abbreviation bake_color_buffer' :=
  (bakeColorBuffer ncams getPixelFor3DPoint isPixelInImage getPixelValueInterpolated
     point_triangle_squared_distance).

(** A triangle that [generateTexture] can register and rasterize. *)
Local Abbreviation readable t triangleId :=
  (triangleId < 2 ^ 32 ∧
   (∃ triCams, triangleCams t triangleId = Some triCams ∧
      ∀ camId, camId ∈ triCams → 0 <= camId < ncams) ∧
   ∃ triPixs triPts, triangleCorners t triangleId = Some (triPixs, triPts) ∧
     is_Some (boundingBox (texParams t) triPixs)).

Lemma textureSamples_defined t atlas :
  (∀ triangleId, triangleId ∈ atlas → readable t triangleId) →
  ∃ camTriangles evs,
    registerCamTriangles ncams t atlas = Some camTriangles ∧
    texture_samples' t (imap (λ camId triangles, (camId, triangles)) camTriangles)
      = Some evs.
Proof.
  intros Hread. unfold registerCamTriangles.
  destruct (registerCamTriangles_loop t atlas (replicate (Z.to_nat ncams) []))
    as (camTriangles & Hrun & Hlen & Hspec).
  { intros tid Htid. destruct (Hread tid Htid) as (_ & (cs & ? & Hr) & _).
    exists cs. split; [done|]. intros camId Hc. rewrite length_replicate.
    specialize (Hr camId Hc). lia. }
  exists camTriangles.
  assert (is_Some (texture_samples' t
            (imap (λ camId triangles, (camId, triangles)) camTriangles))) as [evs Hevs];
    [|by exists evs].
  unfold textureSamples.
  assert (is_Some (mapM (λ w, triangle_samples' t w.1 w.2)
            (camera_work (imap (λ camId triangles, (camId, triangles)) camTriangles))))
    as [k ->]; [|by eexists].
  apply mapM_is_Some, Forall_forall. intros [camId tid] Hw. simpl.
  unfold camera_work in Hw. apply list_elem_of_bind in Hw as ([cam triangles] & Hw & Hcam).
  apply list_elem_of_fmap in Hw as (tid' & [= -> ->] & Htid'). simpl in Htid'.
  apply elem_of_lookup_imap in Hcam as (i & l & [= <- <-] & Hl).
  rewrite Hspec in Hl.
  destruct (replicate (Z.to_nat ncams) [] !! cam) as [l0|] eqn:Hl0; [|done].
  apply lookup_replicate in Hl0 as [-> _]. injection Hl as <-. simpl in Htid'.
  apply list_elem_of_fmap in Htid' as (tid & -> & Htid).
  apply list_elem_of_filter in Htid as [_ Htid].
  destruct (Hread tid Htid) as (Hlt & _ & triPixs & triPts & Hc & [bb Hbb]).
  assert (0 <= tid) as Hnn.
  { unfold triangleCorners in Hc. apply bind_Some in Hc as (mesh & _ & Hc).
    apply bind_Some in Hc as (tri & Htri%vec_at_length & _). lia. }
  rewrite u32_small by lia.
  unfold triangleSamples. rewrite Hc. simpl. rewrite Hbb. simpl.
  destruct bb as [[[? ?] ?] ?]. by eexists.
Qed.

(** [generateTexture] on an atlas whose triangles can be read. *)
Lemma generateTexture_defined t atlasID atlas textureFileType :
  let tp := texParams t in
  let size := textureSide tp * textureSide tp in
  2 <= textureSide tp → size <= 2 ^ 31 → 0 <= padding tp →
  vec_at (_atlases t) atlasID = Some atlas →
  (∀ triangleId, triangleId ∈ atlas →
     triangleId < 2 ^ 32 ∧
     (∃ triCams, triangleCams t triangleId = Some triCams ∧
        ∀ camId, camId ∈ triCams → 0 <= camId < ncams) ∧
     ∃ triPixs triPts, triangleCorners t triangleId = Some (triPixs, triPts) ∧
       is_Some (boundingBox tp triPixs)) →
  ∃ colorBuffer alphaBuffer,
    bakeColorBuffer ncams getPixelFor3DPoint isPixelInImage getPixelValueInterpolated
      point_triangle_squared_distance t atlasID = Some (colorBuffer, alphaBuffer) ∧
    Z.of_nat (length colorBuffer) = size ∧
    generateTexture ncams getPixelFor3DPoint isPixelInImage getPixelValueInterpolated
      point_triangle_squared_distance imageIO_fillHoles imageIO_resizeImage
      EImageFileType EImageFileType_enumToString t atlasID textureFileType =
    let filled :=
      if fillHoles tp
      then imageIO_fillHoles (textureSide tp) (textureSide tp) colorBuffer alphaBuffer
      else colorBuffer in
    let textureName :=
      "texture_" +:+ pretty atlasID +:+ "." +:+
      EImageFileType_enumToString textureFileType in
    if decide (1 < downscale tp)
    then Written textureName (textureSide tp / downscale tp)
           (imageIO_resizeImage (textureSide tp) (textureSide tp) (downscale tp) filled)
    else Written textureName (textureSide tp) filled.
Proof.
  cbv zeta. intros Hside Hsize Hpad Hatlas Hread.
  destruct (textureSamples_defined t atlas Hread) as (camTriangles & evs & Hreg & Hevs).
  set (tp := texParams t) in *.
  set (size := textureSide tp * textureSide tp) in *.
  set (cams := imap (λ camId triangles, (camId, triangles)) camTriangles) in *.
  assert (0 <= size) as Hsize0 by (subst size; nia).
  assert (Z.of_nat (Z.to_nat size) = size) as Hnat by lia.
  destruct (applySamples_spec evs (replicate (Z.to_nat size) (-1))
              (replicate (Z.to_nat size) AccuColor_new))
    as (ids & accs & Hrun & Hlen1 & Hlen2 & Hspec).
  { by rewrite !length_replicate. }
  { intros e He. rewrite length_replicate, Hnat.
    eapply textureSamples_range; [exact Hsize| |exact Hevs|exact He].
    fold tp. lia. }
  rewrite length_replicate in Hlen1, Hlen2, Hspec. rewrite Hnat in Hspec.
  assert (rasterized size ids) as Hrast.
  { split; [lia|]. intros j Hj. destruct (Hspec j Hj) as [-> _].
    rewrite texel_replicate by lia. rewrite i32_small by lia.
    case_decide; auto. }
  destruct (edgePadding_spec tp ids) as (ids' & Hpadrun & (Hlen' & Hb' & _) & _);
    [done|done|done|by apply rasterized_padding_state|].
  fold size in Hpadrun, Hlen', Hb'.
  destruct (fillColorBuffer_spec tp ids' accs) as (buf & alpha & Hfill & Hlenb & _);
    [lia|done|done|fold size; lia|done|].
  fold size in Hlenb.
  assert (bake_color_buffer' t atlasID = Some (buf, alpha)) as Hbake.
  { unfold bakeColorBuffer. rewrite Hatlas. simpl. rewrite Hreg. simpl.
    unfold bakeCameras. fold tp. fold size. rewrite u32_small by lia.
    fold cams. rewrite rasterCameraList_samples, Hevs. simpl. rewrite Hrun. simpl.
    rewrite Hpadrun. simpl. done. }
  exists buf, alpha. split; [done|]. split; [done|].
  unfold generateTexture. fold tp.
  apply vec_at_length in Hatlas.
  rewrite decide_False by lia. rewrite Hbake. done.
Qed.

(** X17. On a texture of side at least 2 with at most 2^31 texels,
    [generateTexture] writes the texture of an atlas, all its reads and
    writes staying inside the vectors, as soon as every triangle of the
    atlas has readable corners and visibilities, a bounding box that fits
    an [int], and only cameras below [ncams]: the color buffer has one
    color per texel and is handed over as it is, or after holes are
    filled and the image is downscaled, under the name texture_[atlasID]
    with the extension of the file type. *)
Theorem generateTexture_writes_texture t atlasID atlas textureFileType :
  let tp := texParams t in
  let size := textureSide tp * textureSide tp in
  2 <= textureSide tp → size <= 2 ^ 31 → 0 <= padding tp →
  vec_at (_atlases t) atlasID = Some atlas →
  (∀ triangleId, triangleId ∈ atlas →
     triangleId < 2 ^ 32 ∧
     (∃ triCams, triangleCams t triangleId = Some triCams ∧
        ∀ camId, camId ∈ triCams → 0 <= camId < ncams) ∧
     ∃ triPixs triPts, triangleCorners t triangleId = Some (triPixs, triPts) ∧
       is_Some (boundingBox tp triPixs)) →
  ∃ colorBuffer alphaBuffer,
    bakeColorBuffer ncams getPixelFor3DPoint isPixelInImage getPixelValueInterpolated
      point_triangle_squared_distance t atlasID = Some (colorBuffer, alphaBuffer) ∧
    Z.of_nat (length colorBuffer) = size ∧
    generateTexture ncams getPixelFor3DPoint isPixelInImage getPixelValueInterpolated
      point_triangle_squared_distance imageIO_fillHoles imageIO_resizeImage
      EImageFileType EImageFileType_enumToString t atlasID textureFileType =
    let filled :=
      if fillHoles tp
      then imageIO_fillHoles (textureSide tp) (textureSide tp) colorBuffer alphaBuffer
      else colorBuffer in
    let textureName :=
      "texture_" +:+ pretty atlasID +:+ "." +:+
      EImageFileType_enumToString textureFileType in
    if decide (1 < downscale tp)
    then Written textureName (textureSide tp / downscale tp)
           (imageIO_resizeImage (textureSide tp) (textureSide tp) (downscale tp) filled)
    else Written textureName (textureSide tp) filled.
Proof. exact (generateTexture_defined t atlasID atlas textureFileType). Qed.

End GenerateTextureDefined.

Lemma generateTexture_writes_texture_witness :
  ∃ colorBuffer,
    generateTexture 2 flat_projection whole_plane_image two_camera_colors
      barycentric_distance (λ _ _ colorBuffer _, colorBuffer)
      (λ _ _ _ colorBuffer, colorBuffer) unit (λ _, "png") texturing_one_triangle 0 tt
    = Written "texture_0.png" 3 colorBuffer ∧
    Z.of_nat (length colorBuffer) = 9.
Proof.
  destruct (generateTexture_writes_texture 2 flat_projection whole_plane_image
              two_camera_colors barycentric_distance (λ _ _ colorBuffer _, colorBuffer)
              (λ _ _ _ colorBuffer, colorBuffer) unit (λ _, "png")
              texturing_one_triangle 0 [0] tt)
    as (buf & alpha & _ & Hlen & Hgen).
  - simpl. lia.
  - simpl. lia.
  - simpl. lia.
  - reflexivity.
  - intros triangleId Hin. apply list_elem_of_In in Hin. simpl in Hin.
    destruct Hin as [<-|[]].
    split; [lia|]. split.
    + eexists. split; [reflexivity|]. intros camId Hc.
      apply elem_of_union in Hc as [Hc|Hc]; [apply elem_of_union in Hc as [Hc|Hc]|].
      * apply elem_of_list_to_set, list_elem_of_In in Hc. simpl in Hc. lia.
      * by apply elem_of_empty in Hc.
      * apply elem_of_list_to_set, list_elem_of_In in Hc. simpl in Hc. lia.
    + eexists _, _. split; [reflexivity|]. eexists. reflexivity.
  - exists buf. split; [exact Hgen|exact Hlen].
Defined.

(** ** unwrap, loadFromMeshing and clear *)

Section UnwrapProofs.

Variable getPixelFor3DPoint : Point3d → Z → Point2d.
Variable isPixelInImage : Point2d → Z → bool.
Variable packCharts : Mesh → option PointsVisibility → Z → Z → list (list Chart).
Variable Mesh_invertTriangleOrientations : Mesh → Mesh.
Variable remapMeshVisibilities : Mesh → PointsVisibility → Mesh → PointsVisibility.
Variable geogram_saved_atlas : list Qc * list Z → EUnwrapMethod → string → bool * ObjData.
Variable tmpObjPath : string.
Variable flipNormals_default : bool.

Local Abbreviation unwrap' :=
  (unwrap getPixelFor3DPoint isPixelInImage packCharts Mesh_invertTriangleOrientations
     remapMeshVisibilities geogram_saved_atlas tmpObjPath flipNormals_default).

(** X18. [unwrap] with ABF or LSCM goes through [replaceMesh] on the file
    geogram saved, and has no guard of its own. Without a mesh its
    behaviour is undefined, where the Basic method throws. With a mesh:
    when the saved file cannot be loaded it throws "Unable to load: " and
    the path, and the former mesh and visibilities are gone, not
    restored; when it is loaded but there were no visibilities, or a
    material id of the file lies outside the atlases, the behaviour is
    undefined; otherwise the mesh read (its triangles turned if normals
    are flipped by default) and the tables read replace the former ones,
    there is one atlas per material, and the visibilities are those
    remapped from the former mesh. *)
Theorem unwrap_needs_mesh_and_visibilities t method :
  method ≠ Basic →
  match me t with
  | None =>
      unwrap getPixelFor3DPoint isPixelInImage packCharts Mesh_invertTriangleOrientations
        remapMeshVisibilities geogram_saved_atlas tmpObjPath flipNormals_default t method
        = Undefined ∧
      unwrap' t Basic = Throws "Can't generate UVs without a mesh" t
  | Some mesh =>
      let loaded := (geogram_saved_atlas (toGeoMesh mesh) method tmpObjPath).1 in
      let d := (geogram_saved_atlas (toGeoMesh mesh) method tmpObjPath).2 in
      let loadedMesh :=
        if flipNormals_default then Mesh_invertTriangleOrientations (obj_mesh d)
        else obj_mesh d in
      match unwrap' t method with
      | Throws what t' =>
          loaded = false ∧ what = "Unable to load: " +:+ tmpObjPath ∧
          me t' = Some (obj_mesh d) ∧ pointsVisibilities t' = None
      | Undefined =>
          loaded = true ∧
          (pointsVisibilities t = None ∨
           ∃ mtl, mtl ∈ obj_trisMtlIds d ∧
             Z.max 1 (obj_nmtls d) <= material_atlas (obj_nmtls d) mtl)
      | Returns t' =>
          loaded = true ∧
          ∃ vis, pointsVisibilities t = Some vis ∧
            me t' = Some loadedMesh ∧
            pointsVisibilities t' = Some (remapMeshVisibilities mesh vis loadedMesh) ∧
            uvCoords t' = obj_uvCoords d ∧ trisUvIds t' = obj_trisUvIds d ∧
            Z.of_nat (length (_atlases t')) = Z.max 1 (obj_nmtls d)
      end
  end.
Proof.
  intros Hmethod. destruct (me t) as [mesh|] eqn:Hme.
  - cbv zeta.
    assert (unwrap' t method =
            replaceMesh Mesh_invertTriangleOrientations remapMeshVisibilities
              (geogram_saved_atlas (toGeoMesh mesh) method) t tmpObjPath
              flipNormals_default) as ->.
    { unfold unwrap. rewrite Hme. by destruct method. }
    unfold replaceMesh, loadFromOBJ. rewrite Hme.
    destruct (geogram_saved_atlas (toGeoMesh mesh) method tmpObjPath) as [[] d]; simpl;
      [|done].
    unfold fillMaterialAtlases.
    rewrite fillMaterialAtlases_prefix by done. rewrite firstn_all.
    case_decide as Hall.
    + simpl. destruct (pointsVisibilities t) as [vis|]; simpl.
      * split; [done|]. exists vis. split_and!; try done.
        rewrite length_fmap, length_seq. lia.
      * split; [done|]. by left.
    + split; [done|]. right.
      apply not_Forall_Exists in Hall; [|intros x; apply _].
      apply Exists_exists in Hall as (mtl & Hin & Hge).
      exists mtl. split; [done|]. simpl in Hge. lia.
  - split.
    + unfold unwrap. rewrite Hme. by destruct method.
    + unfold unwrap, generateUVs. by rewrite Hme.
Qed.

End UnwrapProofs.

Lemma unwrap_needs_mesh_and_visibilities_witness :
  unwrap flat_projection whole_plane_image pack_nothing (λ mesh, mesh) (λ _ vis _, vis)
    (λ _ _ _, (false, mkObjData one_point_mesh 0 [] [] [] [] [])) "tmp.obj" false
    texturing_blank ABF = Undefined ∧
  unwrap flat_projection whole_plane_image pack_nothing (λ mesh, mesh) (λ _ vis _, vis)
    (λ _ _ _, (false, mkObjData one_point_mesh 0 [] [] [] [] [])) "tmp.obj" false
    texturing_blank Basic = Throws "Can't generate UVs without a mesh" texturing_blank.
Proof.
  apply (unwrap_needs_mesh_and_visibilities flat_projection whole_plane_image pack_nothing
           (λ mesh, mesh) (λ _ vis _, vis)
           (λ _ _ _, (false, mkObjData one_point_mesh 0 [] [] [] [] [])) "tmp.obj" false
           texturing_blank ABF).
  discriminate.
Defined.

Section FreshPipeline.

Variable ncams : Z.
Variable getPixelFor3DPoint : Point3d → Z → Point2d.
Variable isPixelInImage : Point2d → Z → bool.
Variable getPixelValueInterpolated : Point2d → Z → Color.
Variable point_triangle_squared_distance :
  Point2d → Point2d → Point2d → Point2d → TriangleDistance.
Variable imageIO_fillHoles : Z → Z → list Color → list Qc → list Color.
Variable imageIO_resizeImage : Z → Z → Z → list Color → list Color.
Variable EImageFileType : Type.
Variable EImageFileType_enumToString : EImageFileType → string.
Variable packCharts : Mesh → option PointsVisibility → Z → Z → list (list Chart).
Variable Mesh_loadFromBin : string → bool * Mesh.
Variable loadArrayOfArraysFromFile : string → PointsVisibility.

Local Abbreviation generate_texture'' :=
  (generateTexture ncams getPixelFor3DPoint isPixelInImage getPixelValueInterpolated
     point_triangle_squared_distance imageIO_fillHoles imageIO_resizeImage EImageFileType
     EImageFileType_enumToString).
Local Abbreviation generate_textures'' :=
  (generateTextures ncams getPixelFor3DPoint isPixelInImage getPixelValueInterpolated
     point_triangle_squared_distance imageIO_fillHoles imageIO_resizeImage EImageFileType
     EImageFileType_enumToString).

(** Without atlases there is no texture to generate. *)
Lemma no_atlas_no_texture t :
  _atlases t = [] →
  (∀ atlasID textureFileType, 0 <= atlasID →
     generate_texture'' t atlasID textureFileType =
     TextureThrows ("Invalid atlas ID " +:+ pretty atlasID)) ∧
  (∀ textureFileType, generate_textures'' t textureFileType = TexturesWritten []).
Proof.
  intros Hatl. split.
  - intros atlasID textureFileType Hnn. unfold generateTexture. rewrite Hatl. simpl.
    by rewrite decide_True by lia.
  - intros textureFileType. unfold generateTextures. by rewrite Hatl.
Qed.

(** X19. [loadFromMeshing] starts from cleared tables whatever the
    pipeline held, and never reads outside a vector. When it returns there
    is no UV coordinate and no atlas yet: until UVs are generated,
    [generateTexture] throws "Invalid atlas ID" for every id and
    [generateTextures] writes nothing. When it throws, the tables are
    empty as well; a mesh that cannot be loaded gives "Unable to load: "
    and the path, with no visibilities read. *)
Theorem loadFromMeshing_starts_afresh t meshFilepath visibilitiesFilepath :
  let loaded := (Mesh_loadFromBin meshFilepath).1 in
  loadFromMeshing Mesh_loadFromBin loadArrayOfArraysFromFile t meshFilepath
    visibilitiesFilepath =
  loadFromMeshing Mesh_loadFromBin loadArrayOfArraysFromFile (clear t) meshFilepath
    visibilitiesFilepath ∧
  match loadFromMeshing Mesh_loadFromBin loadArrayOfArraysFromFile t meshFilepath
          visibilitiesFilepath with
  | Returns t' =>
      loaded = true ∧ texParams t' = texParams t ∧
      uvCoords t' = [] ∧ trisUvIds t' = [] ∧ _atlases t' = [] ∧
      (∀ atlasID textureFileType, 0 <= atlasID →
         generateTexture ncams getPixelFor3DPoint isPixelInImage getPixelValueInterpolated
           point_triangle_squared_distance imageIO_fillHoles imageIO_resizeImage
           EImageFileType EImageFileType_enumToString t' atlasID textureFileType =
         TextureThrows ("Invalid atlas ID " +:+ pretty atlasID)) ∧
      (∀ textureFileType,
         generateTextures ncams getPixelFor3DPoint isPixelInImage getPixelValueInterpolated
           point_triangle_squared_distance imageIO_fillHoles imageIO_resizeImage
           EImageFileType EImageFileType_enumToString t' textureFileType =
         TexturesWritten [])
  | Throws what t' =>
      uvCoords t' = [] ∧ trisUvIds t' = [] ∧ _atlases t' = [] ∧
      (loaded = false →
       what = "Unable to load: " +:+ meshFilepath ∧ pointsVisibilities t' = None) ∧
      (loaded = true →
       what = "Error: Reference mesh and associated visibilities don't have the same size.")
  | Undefined => False
  end.
Proof.
  cbv zeta. split; [done|]. unfold loadFromMeshing.
  destruct (Mesh_loadFromBin meshFilepath) as [[] mesh]; simpl.
  - case_decide.
    + split_and!; done.
    + split; [done|]. split; [done|]. split; [done|]. split; [done|]. split; [done|].
      by apply no_atlas_no_texture.
  - split_and!; done.
Qed.

(** X20. After [clear], clearing again changes nothing, [generateUVs]
    throws for want of a mesh, [generateTexture] throws "Invalid atlas ID"
    for every id and [generateTextures] writes nothing; [saveAsOBJ] has no
    guard and reads the null mesh. *)
Theorem clear_leaves_nothing_to_process t :
  clear (clear t) = clear t ∧
  generateUVs getPixelFor3DPoint isPixelInImage packCharts (clear t)
    = Throws "Can't generate UVs without a mesh" (clear t) ∧
  (∀ atlasID textureFileType, 0 <= atlasID →
     generateTexture ncams getPixelFor3DPoint isPixelInImage getPixelValueInterpolated
       point_triangle_squared_distance imageIO_fillHoles imageIO_resizeImage
       EImageFileType EImageFileType_enumToString (clear t) atlasID textureFileType =
     TextureThrows ("Invalid atlas ID " +:+ pretty atlasID)) ∧
  (∀ textureFileType,
     generateTextures ncams getPixelFor3DPoint isPixelInImage getPixelValueInterpolated
       point_triangle_squared_distance imageIO_fillHoles imageIO_resizeImage
       EImageFileType EImageFileType_enumToString (clear t) textureFileType =
     TexturesWritten []) ∧
  ∀ basename textureFileType,
    saveAsOBJ EImageFileType EImageFileType_enumToString (clear t) basename textureFileType
    = None.
Proof.
  split; [done|]. split; [done|].
  destruct (no_atlas_no_texture (clear t) eq_refl) as [Hone Hall].
  split; [done|]. split; [done|]. done.
Qed.

End FreshPipeline.

(** ** loadFromOBJ and the visibilities *)

Section WithoutVisibilities.

Variable ncams : Z.
Variable getPixelFor3DPoint : Point3d → Z → Point2d.
Variable isPixelInImage : Point2d → Z → bool.
Variable getPixelValueInterpolated : Point2d → Z → Color.
Variable point_triangle_squared_distance :
  Point2d → Point2d → Point2d → Point2d → TriangleDistance.
Variable imageIO_fillHoles : Z → Z → list Color → list Qc → list Color.
Variable imageIO_resizeImage : Z → Z → Z → list Color → list Color.
Variable EImageFileType : Type.
Variable EImageFileType_enumToString : EImageFileType → string.
Variable packCharts : Mesh → option PointsVisibility → Z → Z → list (list Chart).
Variable Mesh_loadFromObjAscii : string → bool * ObjData.
Variable Mesh_invertTriangleOrientations : Mesh → Mesh.

(** X21. [loadFromOBJ] leaves the pipeline without visibilities, and
    neither [generateUVs] nor [generateTexture] checks for them: after it,
    [generateUVs] never returns, and [generateTexture] reads the null
    visibilities for every atlas that holds a triangle. The visibilities
    have to come from [replaceMesh]. *)
Theorem loadFromOBJ_leaves_no_visibilities t filename flipNormals t' :
  loadFromOBJ Mesh_loadFromObjAscii Mesh_invertTriangleOrientations t filename flipNormals
    = Returns t' →
  pointsVisibilities t' = None ∧
  (∀ t'', generateUVs getPixelFor3DPoint isPixelInImage packCharts t' ≠ Returns t'') ∧
  ∀ atlasID atlas textureFileType,
    vec_at (_atlases t') atlasID = Some atlas → atlas ≠ [] →
    generateTexture ncams getPixelFor3DPoint isPixelInImage getPixelValueInterpolated
      point_triangle_squared_distance imageIO_fillHoles imageIO_resizeImage
      EImageFileType EImageFileType_enumToString t' atlasID textureFileType
    = TextureUndefined.
Proof.
  intros Hload.
  assert (pointsVisibilities t' = None) as Hvis.
  { unfold loadFromOBJ in Hload.
    destruct (Mesh_loadFromObjAscii filename) as [[] d]; simpl in Hload; [|done].
    destruct (fillMaterialAtlases _ _); [|done]. by injection Hload as <-. }
  split; [done|]. split.
  - intros t''. unfold generateUVs. destruct (me t') as [mesh|]; [|done].
    destruct (UVAtlas_new _ _ _ _ _); [done|]. by rewrite Hvis.
  - intros atlasID atlas textureFileType Hatlas Hne.
    unfold generateTexture. pose proof (vec_at_length _ _ _ Hatlas) as Hr.
    rewrite decide_False by lia.
    assert (bakeColorBuffer ncams getPixelFor3DPoint isPixelInImage
              getPixelValueInterpolated point_triangle_squared_distance t' atlasID = None)
      as ->; [|done].
    unfold bakeColorBuffer. rewrite Hatlas. simpl.
    assert (registerCamTriangles ncams t' atlas = None) as ->; [|done].
    unfold registerCamTriangles. destruct atlas as [|triangleId atlas]; [done|]. simpl.
    unfold triangleCams. rewrite Hvis. by destruct (me t').
Qed.

End WithoutVisibilities.

Lemma loadFromOBJ_leaves_no_visibilities_witness :
  ∃ t',
    loadFromOBJ (λ _, (true, mkObjData one_point_mesh 0 [0] [] [] [] [])) (λ mesh, mesh)
      texturing_blank "mesh.obj" false = Returns t' ∧
    _atlases t' = [[0]] ∧
    generateTexture 2 flat_projection whole_plane_image two_camera_colors
      barycentric_distance (λ _ _ colorBuffer _, colorBuffer)
      (λ _ _ _ colorBuffer, colorBuffer) unit (λ _, "png") t' 0 tt = TextureUndefined.
Proof.
  eexists. split; [reflexivity|]. split; [reflexivity|].
  destruct (loadFromOBJ_leaves_no_visibilities 2 flat_projection whole_plane_image
              two_camera_colors barycentric_distance (λ _ _ colorBuffer _, colorBuffer)
              (λ _ _ _ colorBuffer, colorBuffer) unit (λ _, "png") pack_nothing
              (λ _, (true, mkObjData one_point_mesh 0 [0] [] [] [] [])) (λ mesh, mesh)
              texturing_blank "mesh.obj" false _ eq_refl) as (_ & _ & Hundef).
  apply (Hundef 0 [0] tt).
  - reflexivity.
  - discriminate.
Defined.

(** ** generateTexture: the samples of a triangle *)

Section RasterTriangle.

Variable getPixelFor3DPoint : Point3d → Z → Point2d.
Variable isPixelInImage : Point2d → Z → bool.
Variable getPixelValueInterpolated : Point2d → Z → Color.
Variable point_triangle_squared_distance :
  Point2d → Point2d → Point2d → Point2d → TriangleDistance.

Lemma pixelSample_elem tp camId triPixs triPts y x e :
  textureSide tp * textureSide tp <= 2 ^ 31 →
  0 <= y < textureSide tp → 0 <= x < textureSide tp →
  pixelSample getPixelFor3DPoint isPixelInImage getPixelValueInterpolated
    point_triangle_squared_distance tp camId triPixs triPts y x = Some e ↔
  let r := isPixelInTriangle point_triangle_squared_distance triPixs (mkPixel x y) in
  let pixRC := getPixelFor3DPoint (barycentricToCartesian3 triPts r.2) camId in
  r.1 = true ∧ isPixelInImage pixRC camId = true ∧
  e = ((textureSide tp - 1 - y) * textureSide tp + x, getPixelValueInterpolated pixRC camId).
Proof.
  intros Hsize Hy Hx. unfold pixelSample.
  destruct (isPixelInTriangle _ _ _) as [[] bary]; simpl; [|by split; [|intros []]].
  destruct (isPixelInImage _ _); simpl; [|by split; [|intros (_ & ? & _)]].
  rewrite (u32_small (textureSide tp - 1)) by nia.
  rewrite (u32_small (textureSide tp - 1 - y)) by nia.
  rewrite u32_small by nia.
  split; [intros [= <-]; done|intros (_ & _ & ->); done].
Qed.

(** X22. Rasterizing a triangle for a camera adds one sample for each pixel
    (x, y) of its clamped bounding box, which lies inside the texture,
    whose center is within the tolerance of the triangle and whose 3D
    point, rebuilt from the barycentric coordinates, projects inside the
    image of the camera; the sample goes to the texel of column x and row
    [textureSide - 1 - y], the rows being flipped, and holds the color
    read in the image at the projection. *)
Theorem rasterTriangle_samples_flipped t camId triangleId evs :
  let tp := texParams t in
  textureSide tp * textureSide tp <= 2 ^ 31 → 0 <= textureSide tp →
  triangleSamples getPixelFor3DPoint isPixelInImage getPixelValueInterpolated
    point_triangle_squared_distance t camId triangleId = Some evs →
  (∀ s, rasterTriangle getPixelFor3DPoint isPixelInImage getPixelValueInterpolated
          point_triangle_squared_distance t camId triangleId s
        = for_each applySample evs s) ∧
  ∃ triPixs triPts LUx LUy RDx RDy,
    triangleCorners t triangleId = Some (triPixs, triPts) ∧
    boundingBox tp triPixs = Some (LUx, LUy, RDx, RDy) ∧
    0 <= LUx ∧ 0 <= LUy ∧ RDx <= textureSide tp ∧ RDy <= textureSide tp ∧
    ∀ e, e ∈ evs ↔
      ∃ x y, LUx <= x < RDx ∧ LUy <= y < RDy ∧
        let r := isPixelInTriangle point_triangle_squared_distance triPixs (mkPixel x y) in
        let pixRC := getPixelFor3DPoint (barycentricToCartesian3 triPts r.2) camId in
        r.1 = true ∧ isPixelInImage pixRC camId = true ∧
        e = ((textureSide tp - 1 - y) * textureSide tp + x,
             getPixelValueInterpolated pixRC camId).
Proof.
  cbv zeta. intros Hsize Hside Hevs. split.
  { intros s. rewrite rasterTriangle_samples, Hevs. done. }
  unfold triangleSamples in Hevs.
  destruct (triangleCorners t triangleId) as [[triPixs triPts]|]; simpl in Hevs; [|done].
  destruct (boundingBox (texParams t) triPixs) as [[[[LUx LUy] RDx] RDy]|] eqn:Hbb;
    simpl in Hevs; [|done].
  injection Hevs as <-.
  pose proof Hbb as Hrange.
  apply boundingBox_range in Hrange as (H1 & H2 & H3 & H4); [|nia].
  exists triPixs, triPts, LUx, LUy, RDx, RDy.
  split; [done|]. split; [done|]. split; [done|]. split; [done|].
  split; [done|]. split; [done|].
  intros e. rewrite list_elem_of_In, in_concat. split.
  - intros (l & Hl & He). apply list_elem_of_In in Hl, He.
    apply list_elem_of_fmap in Hl as (y & -> & Hy).
    apply list_elem_of_omap in He as (x & Hx & He).
    apply elem_of_seqZ in Hy, Hx.
    exists x, y. split; [lia|]. split; [lia|].
    apply pixelSample_elem in He; [done|done|lia|lia].
  - intros (x & y & Hx & Hy & He).
    exists (omap (pixelSample getPixelFor3DPoint isPixelInImage getPixelValueInterpolated
                    point_triangle_squared_distance (texParams t) camId triPixs triPts y)
              (seqZ LUx (RDx - LUx))).
    split; apply list_elem_of_In.
    + apply list_elem_of_fmap. exists y. split; [done|]. apply elem_of_seqZ. lia.
    + apply list_elem_of_omap. exists x. split; [apply elem_of_seqZ; lia|].
      apply pixelSample_elem; [done|lia|lia|done].
Qed.

End RasterTriangle.

Lemma rasterTriangle_samples_flipped_witness :
  rasterTriangle flat_projection whole_plane_image two_camera_colors
    barycentric_distance texturing_one_triangle 0 0
    (replicate 9 (-1), replicate 9 AccuColor_new)
  = for_each applySample [(3, red)] (replicate 9 (-1), replicate 9 AccuColor_new).
Proof.
  destruct (rasterTriangle_samples_flipped flat_projection whole_plane_image
              two_camera_colors barycentric_distance texturing_one_triangle 0 0
              [(3, red)]) as [Hraster _].
  - simpl. lia.
  - simpl. lia.
  - reflexivity.
  - apply Hraster.
Defined.

(** ** generateUVs: the UV tables grow *)

Section GenerateUVsAppends.

Variable getPixelFor3DPoint : Point3d → Z → Point2d.
Variable isPixelInImage : Point2d → Z → bool.
Variable packCharts : Mesh → option PointsVisibility → Z → Z → list (list Chart).

(** X23. [generateUVs] never resets the UV tables: the former entries of
    [uvCoords] and [trisUvIds] stay in place and the new ones are pushed
    behind them, so the UV indices of the triangle [j] of the new mesh are
    at the position [j] only if [trisUvIds] was empty, and at the former
    length plus [j] otherwise, where they name entries of [uvCoords]. The
    parameters and the tables of materials and normals are left as they
    were. *)
Theorem generateUVs_appends_uv_tables t mesh vis :
  me t = Some mesh → pointsVisibilities t = Some vis →
  pts mesh ≠ [] → tris mesh ≠ [] →
  wf_atlases mesh vis
    (packCharts mesh (Some vis) (textureSide (texParams t)) (padding (texParams t))) →
  ∃ t' mesh',
    generateUVs getPixelFor3DPoint isPixelInImage packCharts t = Returns t' ∧
    me t' = Some mesh' ∧
    uvCoords t `prefix_of` uvCoords t' ∧ trisUvIds t `prefix_of` trisUvIds t' ∧
    length (trisUvIds t') = (length (trisUvIds t) + length (tris mesh'))%nat ∧
    (∀ (j : nat) tri, tris mesh' !! j = Some tri →
       ∃ uvIds, trisUvIds t' !! (length (trisUvIds t) + j)%nat = Some uvIds ∧
         ∀ u, u ∈ [m0 uvIds; m1 uvIds; m2 uvIds] →
           0 <= u < Z.of_nat (length (uvCoords t'))) ∧
    (∀ j uvIds, vec_at (trisUvIds t) j = Some uvIds →
       vec_at (trisUvIds t') j = Some uvIds) ∧
    texParams t' = texParams t ∧ nmtls t' = nmtls t ∧ trisMtlIds t' = trisMtlIds t ∧
    normals t' = normals t ∧ trisNormalsIds t' = trisNormalsIds t.
Proof.
  intros Hme Hvis Hpts Htris Hwf.
  destruct (generateUVs_run getPixelFor3DPoint isPixelInImage packCharts t mesh vis
              Hme Hvis Hpts Htris Hwf) as (recs & s & Hrun & _ & Hinv & _).
  destruct Hinv as (Htris' & Htu & _ & _ & Hpre & _ & _ & _ & _ & Hcorner & _).
  exists (uv_state_commit t s), (mkMesh (g_pts s) (g_tris s)).
  split; [done|]. split; [done|]. simpl. split; [done|].
  split; [rewrite Htu; by apply prefix_app_r|].
  split; [by rewrite Htu, Htris', length_app, !length_fmap|].
  split; [|split; [|done]].
  - intros j tri Hj. rewrite Htris', list_lookup_fmap in Hj.
    destruct (recs !! j) as [r|] eqn:Hr; [|done].
    exists (r_uv r). split.
    + rewrite Htu, lookup_app_r by lia.
      replace (length (trisUvIds t) + j - length (trisUvIds t))%nat with j by lia.
      by rewrite list_lookup_fmap, Hr.
    + intros u Hu. apply list_elem_of_lookup_2 in Hr.
      assert (∀ c, c ∈ record_corners r → 0 <= c_uv c < Z.of_nat (length (g_uvCoords s)))
        as Hc.
      { intros c Hc. destruct (Hcorner r c Hr Hc) as (_ & p & _ & Huv).
        by eapply vec_at_length. }
      apply list_elem_of_In in Hu. simpl in Hu.
      destruct Hu as [<-|[<-|[<-|[]]]].
      * apply (Hc (mkCorner (v0 (r_in r)) (v0 (r_out r)) (m0 (r_uv r)))).
        apply list_elem_of_In. simpl. auto.
      * apply (Hc (mkCorner (v1 (r_in r)) (v1 (r_out r)) (m1 (r_uv r)))).
        apply list_elem_of_In. simpl. auto.
      * apply (Hc (mkCorner (v2 (r_in r)) (v2 (r_out r)) (m2 (r_uv r)))).
        apply list_elem_of_In. simpl. auto.
  - intros j uvIds Hj. eapply vec_at_prefix; [|exact Hj].
    rewrite Htu. by apply prefix_app_r.
Qed.

End GenerateUVsAppends.

Lemma generateUVs_appends_uv_tables_witness :
  ∃ t' mesh',
    generateUVs flat_projection whole_plane_image pack_two_charts texturing_quad
      = Returns t' ∧
    me t' = Some mesh' ∧
    length (trisUvIds t') = (length (trisUvIds texturing_quad) + length (tris mesh'))%nat.
Proof.
  destruct (generateUVs_appends_uv_tables flat_projection whole_plane_image
              pack_two_charts texturing_quad quad_mesh quad_visibility)
    as (t' & mesh' & Hrun & Hme & _ & _ & Hlen & _).
  - reflexivity.
  - reflexivity.
  - discriminate.
  - discriminate.
  - exact wf_quad_charts.
  - exists t', mesh'. split; [exact Hrun|]. split; [exact Hme|exact Hlen].
Defined.

(** ** The Basic pipeline, from generateUVs to generateTexture *)

Lemma fits_int_to_int q :
  fits_int q → to_int (Qfloor q) = Some (Qfloor q) ∧ to_int (Qceiling q) = Some (Qceiling q).
Proof.
  intros [Hlo Hhi]. pose proof (Qle_floor_ceiling q) as Hle. rewrite <- Zle_Qle in Hle.
  unfold to_int. rewrite !decide_True by lia. done.
Qed.

Lemma fits_int_min a b : fits_int a → fits_int b → fits_int (Qc_min a b).
Proof. intros Ha Hb. unfold Qc_min. by case_decide. Qed.

Lemma fits_int_max a b : fits_int a → fits_int b → fits_int (Qc_max a b).
Proof. intros Ha Hb. unfold Qc_max. by case_decide. Qed.

Lemma boundingBox_defined tp triPixs :
  (∀ uv, uv ∈ [tri_0 triPixs; tri_1 triPixs; tri_2 triPixs] →
     fits_int (p2_x uv) ∧ fits_int (p2_y uv)) →
  is_Some (boundingBox tp triPixs).
Proof.
  intros Hfit.
  destruct (Hfit (tri_0 triPixs)) as [Hx0 Hy0]; [apply list_elem_of_In; simpl; auto|].
  destruct (Hfit (tri_1 triPixs)) as [Hx1 Hy1]; [apply list_elem_of_In; simpl; auto|].
  destruct (Hfit (tri_2 triPixs)) as [Hx2 Hy2]; [apply list_elem_of_In; simpl; auto|].
  unfold boundingBox.
  rewrite (proj1 (fits_int_to_int _ (fits_int_min _ _ (fits_int_min _ _ Hx0 Hx1) Hx2))).
  simpl.
  rewrite (proj1 (fits_int_to_int _ (fits_int_min _ _ (fits_int_min _ _ Hy0 Hy1) Hy2))).
  simpl.
  rewrite (proj2 (fits_int_to_int _ (fits_int_max _ _ (fits_int_max _ _ Hx0 Hx1) Hx2))).
  simpl.
  rewrite (proj2 (fits_int_to_int _ (fits_int_max _ _ (fits_int_max _ _ Hy0 Hy1) Hy2))).
  simpl. by eexists.
Qed.

Lemma atlas_work_chart a c0 charts w :
  w ∈ atlas_work a c0 charts → w_data w ∈ charts.
Proof.
  revert c0. induction charts as [|chart charts IH]; intros c0.
  - by intros ?%elem_of_nil.
  - rewrite atlas_work_cons, elem_of_app. intros [Hw|Hw].
    + apply chart_work_item in Hw as (_ & _ & ->). apply list_elem_of_here.
    + apply list_elem_of_further. by eapply IH.
Qed.

Lemma atlases_work_chart a0 atlasesIn w :
  w ∈ atlases_work a0 atlasesIn → ∃ charts, charts ∈ atlasesIn ∧ w_data w ∈ charts.
Proof.
  revert a0. induction atlasesIn as [|charts atlasesIn IH]; intros a0.
  - by intros ?%elem_of_nil.
  - rewrite atlases_work_cons, elem_of_app. intros [Hw|Hw].
    + exists charts. split; [apply list_elem_of_here|]. by eapply atlas_work_chart.
    + destruct (IH _ Hw) as (charts' & ? & ?). exists charts'.
      split; [by apply list_elem_of_further|done].
Qed.

Section BasicPipeline.

Variable ncams : Z.
Variable getPixelFor3DPoint : Point3d → Z → Point2d.
Variable isPixelInImage : Point2d → Z → bool.
Variable getPixelValueInterpolated : Point2d → Z → Color.
Variable point_triangle_squared_distance :
  Point2d → Point2d → Point2d → Point2d → TriangleDistance.
Variable imageIO_fillHoles : Z → Z → list Color → list Qc → list Color.
Variable imageIO_resizeImage : Z → Z → Z → list Color → list Color.
Variable EImageFileType : Type.
Variable EImageFileType_enumToString : EImageFileType → string.
Variable packCharts : Mesh → option PointsVisibility → Z → Z → list (list Chart).

(** X24. The Basic pipeline reads and writes inside its vectors from end
    to end. On a mesh that is not empty, with charts naming triangles and
    points of the mesh, no UV table yet (as after [loadFromMeshing]), a
    texture of side at least 2 with at most 2^31 texels, visibilities
    naming only cameras below [ncams] and chart coordinates that, in
    texels, fit an [int]: [generateUVs] returns, and on its result
    [generateTexture] writes, for every atlas, the image texture_[atlasID]
    of side [textureSide], divided by [downscale] when that is above 1. *)
Theorem basic_pipeline_writes_textures t mesh vis textureFileType :
  let side := textureSide (texParams t) in
  let atlasesIn := packCharts mesh (Some vis) side (padding (texParams t)) in
  me t = Some mesh → pointsVisibilities t = Some vis →
  pts mesh ≠ [] → tris mesh ≠ [] →
  wf_atlases mesh vis atlasesIn →
  trisUvIds t = [] →
  2 <= side → side * side <= 2 ^ 31 → 0 <= padding (texParams t) →
  Z.of_nat (length (uv_work atlasesIn)) <= 2 ^ 32 →
  (∀ cams camId, Some cams ∈ vis → camId ∈ cams → 0 <= camId < ncams) →
  (∀ charts chart p, charts ∈ atlasesIn → chart ∈ charts → p ∈ pts mesh →
     fits_int (p2_x (chartUV getPixelFor3DPoint isPixelInImage side chart p)
               * Qc_of_Z side) ∧
     fits_int (p2_y (chartUV getPixelFor3DPoint isPixelInImage side chart p)
               * Qc_of_Z side)) →
  ∃ t',
    generateUVs getPixelFor3DPoint isPixelInImage packCharts t = Returns t' ∧
    Z.of_nat (length (_atlases t')) = Z.of_nat (length atlasesIn) ∧
    ∀ atlasID, 0 <= atlasID < Z.of_nat (length (_atlases t')) →
      ∃ colorBuffer,
        generateTexture ncams getPixelFor3DPoint isPixelInImage getPixelValueInterpolated
          point_triangle_squared_distance imageIO_fillHoles imageIO_resizeImage
          EImageFileType EImageFileType_enumToString t' atlasID textureFileType =
        Written
          ("texture_" +:+ pretty atlasID +:+ "." +:+
           EImageFileType_enumToString textureFileType)
          (if decide (1 < downscale (texParams t)) then side / downscale (texParams t)
           else side)
          colorBuffer.
Proof.
  intros side atlasesIn Hme Hvis Hpts Htris Hwf Htu Hside Hsize Hpad Hcount Hcams Hfits.
  destruct (generateUVs_texture_lookups getPixelFor3DPoint isPixelInImage packCharts
              t mesh vis Hme Hvis Hpts Htris Hwf Htu)
    as (recs & t' & Hrun & Htp & Hitems & Hall).
  fold side atlasesIn in Hitems, Hall.
  destruct (generateUVs_run getPixelFor3DPoint isPixelInImage packCharts t mesh vis
              Hme Hvis Hpts Htris Hwf) as (recs0 & s0 & Hrun0 & _ & Hinv0 & _).
  assert (length (_atlases t') = length atlasesIn) as Hnatl.
  { rewrite Hrun in Hrun0. injection Hrun0 as ->.
    destruct Hinv0 as (_ & _ & _ & _ & _ & Hn & _). exact Hn. }
  exists t'. split; [done|]. split; [lia|].
  intros atlasID Ha.
  destruct (vec_at_lt (_atlases t') atlasID Ha) as [atlas Hatlas].
  destruct (generateTexture_defined ncams getPixelFor3DPoint isPixelInImage
              getPixelValueInterpolated point_triangle_squared_distance imageIO_fillHoles
              imageIO_resizeImage EImageFileType EImageFileType_enumToString
              t' atlasID atlas textureFileType) as (buf & alpha & _ & _ & Hgen).
  - rewrite Htp. exact Hside.
  - rewrite Htp. exact Hsize.
  - rewrite Htp. exact Hpad.
  - exact Hatlas.
  - intros triangleId Hin.
    unfold vec_at in Hatlas. rewrite decide_True in Hatlas by lia.
    destruct (Hall (Z.to_nat atlasID) atlas triangleId Hatlas Hin)
      as (j & r & p0 & p1 & p2 & c0 & c1 & c2 & -> & Hr & _ & _ & Hp0 & Hp1 & Hp2
          & Hc0 & Hc1 & Hc2 & Hcorners & Htricams).
    assert (r_item r ∈ uv_work atlasesIn) as Hitem.
    { rewrite <- Hitems. apply list_elem_of_fmap_2. by eapply list_elem_of_lookup_2. }
    destruct (atlases_work_chart _ _ _ Hitem) as (charts & Hcharts & Hchart).
    split; [|split].
    + apply lookup_lt_Some in Hr.
      assert (length recs = length (uv_work atlasesIn)) as Hlen.
      { by rewrite <- Hitems, length_fmap. }
      lia.
    + eexists. split; [exact Htricams|]. intros camId Hc.
      assert (∀ k (c : option (list Z)), vec_at vis k = Some c →
                camId ∈ visibilityCams c → 0 <= camId < ncams) as Hone.
      { intros k [cams|] Hk Hcam; [|by apply elem_of_empty in Hcam].
        apply elem_of_list_to_set in Hcam. apply (Hcams cams camId); [|done].
        unfold vec_at in Hk. case_decide; [|done]. by eapply list_elem_of_lookup_2. }
      apply elem_of_union in Hc as [Hc|Hc]; [apply elem_of_union in Hc as [Hc|Hc]|].
      * exact (Hone _ _ Hc0 Hc).
      * exact (Hone _ _ Hc1 Hc).
      * exact (Hone _ _ Hc2 Hc).
    + eexists _, _. split; [exact Hcorners|]. rewrite Htp.
      apply boundingBox_defined. intros uv Huv.
      assert (∀ k p, vec_at (pts mesh) k = Some p → p ∈ pts mesh) as Hpin.
      { intros k p Hk. unfold vec_at in Hk. case_decide; [|done].
        by eapply list_elem_of_lookup_2. }
      apply list_elem_of_In in Huv. simpl in Huv.
      destruct Huv as [<-|[<-|[<-|[]]]]; simpl.
      * exact (Hfits _ _ _ Hcharts Hchart (Hpin _ _ Hp0)).
      * exact (Hfits _ _ _ Hcharts Hchart (Hpin _ _ Hp1)).
      * exact (Hfits _ _ _ Hcharts Hchart (Hpin _ _ Hp2)).
  - exists (if decide (1 < downscale (texParams t'))
            then imageIO_resizeImage (textureSide (texParams t'))
                   (textureSide (texParams t')) (downscale (texParams t'))
                   (if fillHoles (texParams t')
                    then imageIO_fillHoles (textureSide (texParams t'))
                           (textureSide (texParams t')) buf alpha
                    else buf)
            else if fillHoles (texParams t')
                 then imageIO_fillHoles (textureSide (texParams t'))
                        (textureSide (texParams t')) buf alpha
                 else buf).
    rewrite Hgen. cbv zeta. rewrite Htp. fold side.
    by destruct (decide (1 < downscale (texParams t))).
Qed.

End BasicPipeline.

Lemma basic_pipeline_writes_textures_witness :
  ∃ t',
    generateUVs flat_projection whole_plane_image pack_two_charts texturing_quad
      = Returns t' ∧
    ∃ colorBuffer,
      generateTexture 1 flat_projection whole_plane_image two_camera_colors
        barycentric_distance (λ _ _ colorBuffer _, colorBuffer)
        (λ _ _ _ colorBuffer, colorBuffer) unit (λ _, "png") t' 0 tt
      = Written "texture_0.png" 8 colorBuffer.
Proof.
  destruct (basic_pipeline_writes_textures 1 flat_projection whole_plane_image
              two_camera_colors barycentric_distance (λ _ _ colorBuffer _, colorBuffer)
              (λ _ _ _ colorBuffer, colorBuffer) unit (λ _, "png") pack_two_charts
              texturing_quad quad_mesh quad_visibility tt)
    as (t' & Hrun & Hlen & Hgen).
  - reflexivity.
  - reflexivity.
  - discriminate.
  - discriminate.
  - exact wf_quad_charts.
  - reflexivity.
  - simpl. lia.
  - simpl. lia.
  - simpl. lia.
  - simpl. lia.
  - intros cams camId Hcams Hcam.
    apply list_elem_of_In in Hcams. simpl in Hcams.
    destruct Hcams as [[= <-]|[[= <-]|[[=]|[[= <-]|[]]]]];
      apply list_elem_of_In in Hcam; simpl in Hcam; lia.
  - intros charts chart p Hcharts Hchart Hp.
    apply list_elem_of_In in Hcharts. simpl in Hcharts. destruct Hcharts as [<-|[]].
    apply list_elem_of_In in Hchart. simpl in Hchart.
    apply list_elem_of_In in Hp. simpl in Hp.
    destruct Hchart as [<-|[<-|[]]]; destruct Hp as [<-|[<-|[<-|[<-|[]]]]];
      apply (bool_decide_unpack _); vm_compute; exact I.
  - exists t'. split; [exact Hrun|]. apply (Hgen 0). simpl in Hlen. lia.
Defined.
